(** * ramfuck: typed values, expression parser, constant folding and the
      command layer, embedded from value.c, parse.c, ast.c, opt.c, cli.c
      and mem.c. *)

From Stdlib Require Import ZArith List Bool String Ascii Lia.
From Stdlib Require Import Floats.SpecFloat.
From Stdlib Require Import DecimalString.
Import ListNotations.
Local Open Scope Z_scope.

(* ===================================================================== *)
(** ** Outcomes of a C call *)
(* ===================================================================== *)

(** The handlers of value.c return [int]: 1 with [*out] written, or 0 for
    an error.  A third outcome records that the C statement executed has no
    defined result (division by zero, a conversion out of range, a read of
    union bytes that were never stored). *)
Inductive result (A : Type) : Type :=
| Ok (a : A)
| Err
| Undef.
Arguments Ok {A} a.
Arguments Err {A}.
Arguments Undef {A}.

Definition bind {A B : Type} (r : result A) (k : A -> result B) : result B :=
  match r with
  | Ok a => k a
  | Err => Err
  | Undef => Undef
  end.

Notation "x <- e ;; k" := (bind e (fun x => k))
  (at level 61, e at next level, right associativity).

(* ===================================================================== *)
(** ** value.h: the type tags *)
(* ===================================================================== *)

(** Modelled from the spec: value.h is not under src/.  The tags are the ten
    scalar types and their pointer forms (the scalar tag with the pointer
    flag bit set, as [U16PTR] in cli.c). *)
Inductive value_type : Type :=
| S8 | U8 | S16 | U16 | S32 | U32 | S64 | U64 | F32 | F64
| S8PTR | U8PTR | S16PTR | U16PTR | S32PTR | U32PTR | S64PTR | U64PTR
| F32PTR | F64PTR.

Definition value_type_eqb (a b : value_type) : bool :=
  match a, b with
  | S8, S8 | U8, U8 | S16, S16 | U16, U16 | S32, S32 | U32, U32
  | S64, S64 | U64, U64 | F32, F32 | F64, F64
  | S8PTR, S8PTR | U8PTR, U8PTR | S16PTR, S16PTR | U16PTR, U16PTR
  | S32PTR, S32PTR | U32PTR, U32PTR | S64PTR, S64PTR | U64PTR, U64PTR
  | F32PTR, F32PTR | F64PTR, F64PTR => true
  | _, _ => false
  end.

(** [t & PTR] *)
Definition is_PTR (t : value_type) : bool :=
  match t with
  | S8 | U8 | S16 | U16 | S32 | U32 | S64 | U64 | F32 | F64 => false
  | _ => true
  end.

(** The scalar tag left when the pointer flag is cleared. *)
Definition scalar_of (t : value_type) : value_type :=
  match t with
  | S8PTR => S8 | U8PTR => U8 | S16PTR => S16 | U16PTR => U16
  | S32PTR => S32 | U32PTR => U32 | S64PTR => S64 | U64PTR => U64
  | F32PTR => F32 | F64PTR => F64
  | s => s
  end.

(** [t & INT]: the integer family bit of the scalar tag. *)
Definition is_INT (t : value_type) : bool :=
  match scalar_of t with
  | F32 | F64 => false
  | _ => true
  end.

(** [t & FPU] *)
Definition is_FPU (t : value_type) : bool :=
  match scalar_of t with
  | F32 | F64 => true
  | _ => false
  end.

(** [t & (INT|FPU)] *)
Definition is_INT_or_FPU (t : value_type) : bool := is_INT t || is_FPU t.

(** Modelled from the spec: the literal types parse.c names [SINT], [UINT]
    and [DOUBLE] are constants of value.h.  The spec gives an integer
    literal and every relational result the type s32 and a floating literal
    the type f64; the unsigned literal is taken as u32. *)
Definition SINT : value_type := S32.
Definition UINT : value_type := U32.
Definition DOUBLE : value_type := F64.

(** Width in bits of a scalar tag; a pointer is address-sized (ADDR_BITS is
    64 in defines.h unless configured otherwise). *)
Definition value_type_bits (t : value_type) : Z :=
  match t with
  | S8 | U8 => 8
  | S16 | U16 => 16
  | S32 | U32 | F32 => 32
  | _ => 64
  end.

Definition value_type_sizeof (t : value_type) : Z := value_type_bits t / 8.

Definition is_signed (t : value_type) : bool :=
  match t with
  | S8 | S16 | S32 | S64 => true
  | _ => false
  end.

(** Modelled from the spec: the macro [HIGHER_TYPE] of value.h.  The tags
    are ordered s8 < u8 < s16 < u16 < s32 < u32 < s64 < u64 < f32 < f64
    (wider dominates, unsigned dominates signed at equal width, float
    dominates int) and the macro keeps the larger of its arguments. *)
Definition type_rank (t : value_type) : Z :=
  match scalar_of t with
  | S8 => 1 | U8 => 2 | S16 => 3 | U16 => 4 | S32 => 5
  | U32 => 6 | S64 => 7 | U64 => 8 | F32 => 9 | _ => 10
  end + (if is_PTR t then 16 else 0).

Definition HIGHER_TYPE (t1 t2 : value_type) : value_type :=
  if type_rank t2 <? type_rank t1 then t1 else t2.

(* ===================================================================== *)
(** ** struct value *)
(* ===================================================================== *)

(** [data] holds the bytes of the union member that was stored, as an
    unsigned little-endian number below [2 ^ value_type_bits type]. *)
Record value : Type := mk_value { type : value_type; data : Z }.

Definition wrap (w x : Z) : Z := x mod 2 ^ w.

Definition signed (w x : Z) : Z :=
  if x <? 2 ^ (w - 1) then x else x - 2 ^ w.

Definition value_sizeof (v : value) : Z := value_type_sizeof (type v).

(** Byte [i] of the union, [((char * )&v->data)[i]]. *)
Definition data_byte (v : value) (i : Z) : Z := (data v / 256 ^ i) mod 256.

(** value.c, value_is_zero: the loop [for (i = 0, j = value_sizeof(dest);
    i < j; i++)], written with the number of bytes left to look at. *)
Fixpoint value_is_zero_from (dest : value) (i : Z) (left : nat) : Z :=
  match left with
  | O => 1
  | S left' =>
      if negb (data_byte dest i =? 0) then 0
      else value_is_zero_from dest (i + 1) left'
  end.

Definition value_is_zero (dest : value) : Z :=
  value_is_zero_from dest 0 (Z.to_nat (value_sizeof dest)).

(* ===================================================================== *)
(** ** IEEE 754 members of the union *)
(* ===================================================================== *)

(** [float] and [double] members are kept as their bit patterns and read
    through the Standard Library's [spec_float].  [mw] is the width of the
    stored mantissa, [ew] that of the exponent field. *)
Section Bits.
Variables prec emax mw ew : Z.

Definition float_of_bits (bits : Z) : spec_float :=
  let s := Z.testbit bits (mw + ew) in
  let e := (bits / 2 ^ mw) mod 2 ^ ew in
  let m := bits mod 2 ^ mw in
  if e =? 0 then
    match m with
    | Zpos p => S754_finite s p (emin prec emax)
    | _ => S754_zero s
    end
  else if e =? 2 ^ ew - 1 then
    if m =? 0 then S754_infinity s else S754_nan
  else
    match m + 2 ^ mw with
    | Zpos p => S754_finite s p (e + emin prec emax - 1)
    | _ => S754_nan
    end.

Definition sign_bit (s : bool) : Z := if s then 2 ^ (mw + ew) else 0.

(** A NaN result is written as the quiet NaN with an empty payload. *)
Definition bits_of_float (f : spec_float) : Z :=
  match f with
  | S754_zero s => sign_bit s
  | S754_infinity s => sign_bit s + (2 ^ ew - 1) * 2 ^ mw
  | S754_nan => (2 ^ ew - 1) * 2 ^ mw + 2 ^ (mw - 1)
  | S754_finite s m e =>
      if Zpos m <? 2 ^ mw then sign_bit s + Zpos m
      else sign_bit s + (e - emin prec emax + 1) * 2 ^ mw + (Zpos m - 2 ^ mw)
  end.

(** Rounding of a float of another format into this one. *)
Definition float_round (f : spec_float) : spec_float :=
  match f with
  | S754_finite s m e => binary_normalize prec emax (cond_Zopp s (Zpos m)) e s
  | other => other
  end.
End Bits.

Definition f32_of_bits : Z -> spec_float := float_of_bits 24 128 23 8.
Definition f64_of_bits : Z -> spec_float := float_of_bits 53 1024 52 11.
Definition bits_of_f32 : spec_float -> Z := bits_of_float 24 128 23 8.
Definition bits_of_f64 : spec_float -> Z := bits_of_float 53 1024 52 11.

(** C conversion of a floating value to an integer: the fraction is
    discarded; [None] for infinities and NaN. *)
Definition float_truncate (f : spec_float) : option Z :=
  match f with
  | S754_zero _ => Some 0
  | S754_finite s m e =>
      Some (cond_Zopp s (if 0 <=? e then Zpos m * 2 ^ e
                         else Zpos m / 2 ^ (- e)))
  | _ => None
  end.

(** The value of a C expression of arithmetic type, before it is converted
    to the parameter type of a [value_init_*] function. *)
Inductive cvalue : Type :=
| CInt (z : Z)
| CFloat (f : spec_float)
| CDouble (f : spec_float).

(** Conversion to an integer type of [w] bits.  Integers wrap; a floating
    value whose truncation does not fit has no defined conversion. *)
Definition to_integer (w : Z) (sg : bool) (x : cvalue) : result Z :=
  match x with
  | CInt z => Ok (wrap w z)
  | CFloat f | CDouble f =>
      match float_truncate f with
      | Some z =>
          let lo := if sg then - 2 ^ (w - 1) else 0 in
          let hi := if sg then 2 ^ (w - 1) else 2 ^ w in
          if (lo <=? z) && (z <? hi) then Ok (wrap w z) else Undef
      | None => Undef
      end
  end.

Definition to_float (x : cvalue) : spec_float :=
  match x with
  | CInt z => binary_normalize 24 128 z 0 false
  | CFloat f => f
  | CDouble f => float_round 24 128 f
  end.

Definition to_double (x : cvalue) : spec_float :=
  match x with
  | CInt z => binary_normalize 53 1024 z 0 false
  | CFloat f => float_round 53 1024 f
  | CDouble f => f
  end.

(** value.c, value_init_s8 .. value_init_f64: set the tag and store the
    argument, converted to the member's type. *)
Definition value_init_int (t : value_type) (x : cvalue) : result value :=
  bits <- to_integer (value_type_bits t) (is_signed t) x ;;
  Ok (mk_value t bits).

Definition value_init_s8 := value_init_int S8.
Definition value_init_u8 := value_init_int U8.
Definition value_init_s16 := value_init_int S16.
Definition value_init_u16 := value_init_int U16.
Definition value_init_s32 := value_init_int S32.
Definition value_init_u32 := value_init_int U32.
Definition value_init_s64 := value_init_int S64.
Definition value_init_u64 := value_init_int U64.

Definition value_init_f32 (x : cvalue) : result value :=
  Ok (mk_value F32 (bits_of_f32 (to_float x))).

Definition value_init_f64 (x : cvalue) : result value :=
  Ok (mk_value F64 (bits_of_f64 (to_double x))).

(** Reading a member of the union.  The bytes of a member wider than the
    one that was stored are indeterminate; a narrower member is the low
    bytes of the stored one (little-endian hosts). *)
Definition member_bits (w : Z) (v : value) : result Z :=
  if w <=? value_type_bits (type v) then Ok (data v mod 2 ^ w) else Undef.

Definition data_int (w : Z) (sg : bool) (v : value) : result Z :=
  bits <- member_bits w v ;;
  Ok (if sg then signed w bits else bits).

Definition data_s8 := data_int 8 true.
Definition data_u8 := data_int 8 false.
Definition data_s16 := data_int 16 true.
Definition data_u16 := data_int 16 false.
Definition data_s32 := data_int 32 true.
Definition data_u32 := data_int 32 false.
Definition data_s64 := data_int 64 true.
Definition data_u64 := data_int 64 false.

Definition data_f32 (v : value) : result spec_float :=
  bits <- member_bits 32 v ;; Ok (f32_of_bits bits).

Definition data_f64 (v : value) : result spec_float :=
  bits <- member_bits 64 v ;; Ok (f64_of_bits bits).


(* ===================================================================== *)
(** ** value.c: the casts *)
(* ===================================================================== *)

(** [T_to_U(this, out)] is [value_init_U(out, this->data.T)]. *)
Definition s8_to_s8 (this : value) : result value :=
  x <- data_s8 this ;; value_init_s8 (CInt x).
Definition s8_to_u8 (this : value) : result value :=
  x <- data_s8 this ;; value_init_u8 (CInt x).
Definition s8_to_s16 (this : value) : result value :=
  x <- data_s8 this ;; value_init_s16 (CInt x).
Definition s8_to_u16 (this : value) : result value :=
  x <- data_s8 this ;; value_init_u16 (CInt x).
Definition s8_to_s32 (this : value) : result value :=
  x <- data_s8 this ;; value_init_s32 (CInt x).
Definition s8_to_u32 (this : value) : result value :=
  x <- data_s8 this ;; value_init_u32 (CInt x).
Definition s8_to_s64 (this : value) : result value :=
  x <- data_s8 this ;; value_init_s64 (CInt x).
Definition s8_to_u64 (this : value) : result value :=
  x <- data_s8 this ;; value_init_u64 (CInt x).
Definition s8_to_f32 (this : value) : result value :=
  x <- data_s8 this ;; value_init_f32 (CInt x).
Definition s8_to_f64 (this : value) : result value :=
  x <- data_s8 this ;; value_init_f64 (CInt x).
Definition u8_to_s8 (this : value) : result value :=
  x <- data_u8 this ;; value_init_s8 (CInt x).
Definition u8_to_u8 (this : value) : result value :=
  x <- data_u8 this ;; value_init_u8 (CInt x).
Definition u8_to_s16 (this : value) : result value :=
  x <- data_u8 this ;; value_init_s16 (CInt x).
Definition u8_to_u16 (this : value) : result value :=
  x <- data_u8 this ;; value_init_u16 (CInt x).
Definition u8_to_s32 (this : value) : result value :=
  x <- data_u8 this ;; value_init_s32 (CInt x).
Definition u8_to_u32 (this : value) : result value :=
  x <- data_u8 this ;; value_init_u32 (CInt x).
Definition u8_to_s64 (this : value) : result value :=
  x <- data_u8 this ;; value_init_s64 (CInt x).
Definition u8_to_u64 (this : value) : result value :=
  x <- data_u8 this ;; value_init_u64 (CInt x).
Definition u8_to_f32 (this : value) : result value :=
  x <- data_u8 this ;; value_init_f32 (CInt x).
Definition u8_to_f64 (this : value) : result value :=
  x <- data_u8 this ;; value_init_f64 (CInt x).
Definition s16_to_s8 (this : value) : result value :=
  x <- data_s16 this ;; value_init_s8 (CInt x).
Definition s16_to_u8 (this : value) : result value :=
  x <- data_s16 this ;; value_init_u8 (CInt x).
Definition s16_to_s16 (this : value) : result value :=
  x <- data_s16 this ;; value_init_s16 (CInt x).
Definition s16_to_u16 (this : value) : result value :=
  x <- data_s16 this ;; value_init_u16 (CInt x).
Definition s16_to_s32 (this : value) : result value :=
  x <- data_s16 this ;; value_init_s32 (CInt x).
Definition s16_to_u32 (this : value) : result value :=
  x <- data_s16 this ;; value_init_u32 (CInt x).
Definition s16_to_s64 (this : value) : result value :=
  x <- data_s16 this ;; value_init_s64 (CInt x).
Definition s16_to_u64 (this : value) : result value :=
  x <- data_s16 this ;; value_init_u64 (CInt x).
Definition s16_to_f32 (this : value) : result value :=
  x <- data_s16 this ;; value_init_f32 (CInt x).
Definition s16_to_f64 (this : value) : result value :=
  x <- data_s16 this ;; value_init_f64 (CInt x).
Definition u16_to_s8 (this : value) : result value :=
  x <- data_u16 this ;; value_init_s8 (CInt x).
Definition u16_to_u8 (this : value) : result value :=
  x <- data_u16 this ;; value_init_u8 (CInt x).
Definition u16_to_s16 (this : value) : result value :=
  x <- data_u16 this ;; value_init_s16 (CInt x).
Definition u16_to_u16 (this : value) : result value :=
  x <- data_u16 this ;; value_init_u16 (CInt x).
Definition u16_to_s32 (this : value) : result value :=
  x <- data_u16 this ;; value_init_s32 (CInt x).
Definition u16_to_u32 (this : value) : result value :=
  x <- data_u16 this ;; value_init_u32 (CInt x).
Definition u16_to_s64 (this : value) : result value :=
  x <- data_u16 this ;; value_init_s64 (CInt x).
Definition u16_to_u64 (this : value) : result value :=
  x <- data_u16 this ;; value_init_u64 (CInt x).
Definition u16_to_f32 (this : value) : result value :=
  x <- data_u16 this ;; value_init_f32 (CInt x).
Definition u16_to_f64 (this : value) : result value :=
  x <- data_u16 this ;; value_init_f64 (CInt x).
Definition s32_to_s8 (this : value) : result value :=
  x <- data_s32 this ;; value_init_s8 (CInt x).
Definition s32_to_u8 (this : value) : result value :=
  x <- data_s32 this ;; value_init_u8 (CInt x).
Definition s32_to_s16 (this : value) : result value :=
  x <- data_s32 this ;; value_init_s16 (CInt x).
Definition s32_to_u16 (this : value) : result value :=
  x <- data_s32 this ;; value_init_u16 (CInt x).
Definition s32_to_s32 (this : value) : result value :=
  x <- data_s32 this ;; value_init_s32 (CInt x).
Definition s32_to_u32 (this : value) : result value :=
  x <- data_s32 this ;; value_init_u32 (CInt x).
Definition s32_to_s64 (this : value) : result value :=
  x <- data_s32 this ;; value_init_s64 (CInt x).
Definition s32_to_u64 (this : value) : result value :=
  x <- data_s32 this ;; value_init_u64 (CInt x).
Definition s32_to_f32 (this : value) : result value :=
  x <- data_s32 this ;; value_init_f32 (CInt x).
Definition s32_to_f64 (this : value) : result value :=
  x <- data_s32 this ;; value_init_f64 (CInt x).
Definition u32_to_s8 (this : value) : result value :=
  x <- data_u32 this ;; value_init_s8 (CInt x).
Definition u32_to_u8 (this : value) : result value :=
  x <- data_u32 this ;; value_init_u8 (CInt x).
Definition u32_to_s16 (this : value) : result value :=
  x <- data_u32 this ;; value_init_s16 (CInt x).
Definition u32_to_u16 (this : value) : result value :=
  x <- data_u32 this ;; value_init_u16 (CInt x).
Definition u32_to_s32 (this : value) : result value :=
  x <- data_u32 this ;; value_init_s32 (CInt x).
Definition u32_to_u32 (this : value) : result value :=
  x <- data_u32 this ;; value_init_u32 (CInt x).
Definition u32_to_s64 (this : value) : result value :=
  x <- data_u32 this ;; value_init_s64 (CInt x).
Definition u32_to_u64 (this : value) : result value :=
  x <- data_u32 this ;; value_init_u64 (CInt x).
Definition u32_to_f32 (this : value) : result value :=
  x <- data_u32 this ;; value_init_f32 (CInt x).
Definition u32_to_f64 (this : value) : result value :=
  x <- data_u32 this ;; value_init_f64 (CInt x).
Definition s64_to_s8 (this : value) : result value :=
  x <- data_s64 this ;; value_init_s8 (CInt x).
Definition s64_to_u8 (this : value) : result value :=
  x <- data_s64 this ;; value_init_u8 (CInt x).
Definition s64_to_s16 (this : value) : result value :=
  x <- data_s64 this ;; value_init_s16 (CInt x).
Definition s64_to_u16 (this : value) : result value :=
  x <- data_s64 this ;; value_init_u16 (CInt x).
Definition s64_to_s32 (this : value) : result value :=
  x <- data_s64 this ;; value_init_s32 (CInt x).
Definition s64_to_u32 (this : value) : result value :=
  x <- data_s64 this ;; value_init_u32 (CInt x).
Definition s64_to_s64 (this : value) : result value :=
  x <- data_s64 this ;; value_init_s64 (CInt x).
Definition s64_to_u64 (this : value) : result value :=
  x <- data_s64 this ;; value_init_u64 (CInt x).
Definition s64_to_f32 (this : value) : result value :=
  x <- data_s64 this ;; value_init_f32 (CInt x).
Definition s64_to_f64 (this : value) : result value :=
  x <- data_s64 this ;; value_init_f64 (CInt x).
Definition u64_to_s8 (this : value) : result value :=
  x <- data_u64 this ;; value_init_s8 (CInt x).
Definition u64_to_u8 (this : value) : result value :=
  x <- data_u64 this ;; value_init_u8 (CInt x).
Definition u64_to_s16 (this : value) : result value :=
  x <- data_u64 this ;; value_init_s16 (CInt x).
Definition u64_to_u16 (this : value) : result value :=
  x <- data_u64 this ;; value_init_u16 (CInt x).
Definition u64_to_s32 (this : value) : result value :=
  x <- data_u64 this ;; value_init_s32 (CInt x).
Definition u64_to_u32 (this : value) : result value :=
  x <- data_u64 this ;; value_init_u32 (CInt x).
Definition u64_to_s64 (this : value) : result value :=
  x <- data_u64 this ;; value_init_s64 (CInt x).
Definition u64_to_u64 (this : value) : result value :=
  x <- data_u64 this ;; value_init_u64 (CInt x).
Definition u64_to_f32 (this : value) : result value :=
  x <- data_u64 this ;; value_init_f32 (CInt x).
Definition u64_to_f64 (this : value) : result value :=
  x <- data_u64 this ;; value_init_f64 (CInt x).
Definition f32_to_s8 (this : value) : result value :=
  x <- data_f32 this ;; value_init_s8 (CFloat x).
Definition f32_to_u8 (this : value) : result value :=
  x <- data_f32 this ;; value_init_u8 (CFloat x).
Definition f32_to_s16 (this : value) : result value :=
  x <- data_f32 this ;; value_init_s16 (CFloat x).
Definition f32_to_u16 (this : value) : result value :=
  x <- data_f32 this ;; value_init_u16 (CFloat x).
Definition f32_to_s32 (this : value) : result value :=
  x <- data_f32 this ;; value_init_s32 (CFloat x).
Definition f32_to_u32 (this : value) : result value :=
  x <- data_f32 this ;; value_init_u32 (CFloat x).
Definition f32_to_s64 (this : value) : result value :=
  x <- data_f32 this ;; value_init_s64 (CFloat x).
Definition f32_to_u64 (this : value) : result value :=
  x <- data_f32 this ;; value_init_u64 (CFloat x).
Definition f32_to_f32 (this : value) : result value :=
  x <- data_f32 this ;; value_init_f32 (CFloat x).
Definition f32_to_f64 (this : value) : result value :=
  x <- data_f32 this ;; value_init_f64 (CFloat x).
Definition f64_to_s8 (this : value) : result value :=
  x <- data_f64 this ;; value_init_s8 (CDouble x).
Definition f64_to_u8 (this : value) : result value :=
  x <- data_f64 this ;; value_init_u8 (CDouble x).
Definition f64_to_s16 (this : value) : result value :=
  x <- data_f64 this ;; value_init_s16 (CDouble x).
Definition f64_to_u16 (this : value) : result value :=
  x <- data_f64 this ;; value_init_u16 (CDouble x).
Definition f64_to_s32 (this : value) : result value :=
  x <- data_f64 this ;; value_init_s32 (CDouble x).
Definition f64_to_u32 (this : value) : result value :=
  x <- data_f64 this ;; value_init_u32 (CDouble x).
Definition f64_to_s64 (this : value) : result value :=
  x <- data_f64 this ;; value_init_s64 (CDouble x).
Definition f64_to_u64 (this : value) : result value :=
  x <- data_f64 this ;; value_init_u64 (CDouble x).
Definition f64_to_f32 (this : value) : result value :=
  x <- data_f64 this ;; value_init_f32 (CDouble x).
Definition f64_to_f64 (this : value) : result value :=
  x <- data_f64 this ;; value_init_f64 (CDouble x).

(** The cast members of [struct value_operations], one row per type. *)
Record value_casts : Type := mk_casts {
  cast_to_s8 : value -> result value;
  cast_to_u8 : value -> result value;
  cast_to_s16 : value -> result value;
  cast_to_u16 : value -> result value;
  cast_to_s32 : value -> result value;
  cast_to_u32 : value -> result value;
  cast_to_s64 : value -> result value;
  cast_to_u64 : value -> result value;
  cast_to_f32 : value -> result value;
  cast_to_f64 : value -> result value
}.

Definition s8_casts : value_casts :=
  mk_casts s8_to_s8 s8_to_u8 s8_to_s16 s8_to_u16 s8_to_s32
           s8_to_u32 s8_to_s64 s8_to_u64 s8_to_f32 s8_to_f64.
Definition u8_casts : value_casts :=
  mk_casts u8_to_s8 u8_to_u8 u8_to_s16 u8_to_u16 u8_to_s32
           u8_to_u32 u8_to_s64 u8_to_u64 u8_to_f32 u8_to_f64.
Definition s16_casts : value_casts :=
  mk_casts s16_to_s8 s16_to_u8 s16_to_s16 s16_to_u16 s16_to_s32
           s16_to_u32 s16_to_s64 s16_to_u64 s16_to_f32 s16_to_f64.
Definition u16_casts : value_casts :=
  mk_casts u16_to_s8 u16_to_u8 u16_to_s16 u16_to_u16 u16_to_s32
           u16_to_u32 u16_to_s64 u16_to_u64 u16_to_f32 u16_to_f64.
Definition s32_casts : value_casts :=
  mk_casts s32_to_s8 s32_to_u8 s32_to_s16 s32_to_u16 s32_to_s32
           s32_to_u32 s32_to_s64 s32_to_u64 s32_to_f32 s32_to_f64.
Definition u32_casts : value_casts :=
  mk_casts u32_to_s8 u32_to_u8 u32_to_s16 u32_to_u16 u32_to_s32
           u32_to_u32 u32_to_s64 u32_to_u64 u32_to_f32 u32_to_f64.
Definition s64_casts : value_casts :=
  mk_casts s64_to_s8 s64_to_u8 s64_to_s16 s64_to_u16 s64_to_s32
           s64_to_u32 s64_to_s64 s64_to_u64 s64_to_f32 s64_to_f64.
Definition u64_casts : value_casts :=
  mk_casts u64_to_s8 u64_to_u8 u64_to_s16 u64_to_u16 u64_to_s32
           u64_to_u32 u64_to_s64 u64_to_u64 u64_to_f32 u64_to_f64.
Definition f32_casts : value_casts :=
  mk_casts f32_to_s8 f32_to_u8 f32_to_s16 f32_to_u16 f32_to_s32
           f32_to_u32 f32_to_s64 f32_to_u64 f32_to_f32 f32_to_f64.
Definition f64_casts : value_casts :=
  mk_casts f64_to_s8 f64_to_u8 f64_to_s16 f64_to_u16 f64_to_s32
           f64_to_u32 f64_to_s64 f64_to_u64 f64_to_f32 f64_to_f64.

(** The rows of the table that hold the casts, by the tag of the value
    ([value_ops(v)] of value.h); the table has no row for a pointer tag. *)
Definition value_casts_of (t : value_type) : option value_casts :=
  match t with
  | S8 => Some s8_casts | U8 => Some u8_casts
  | S16 => Some s16_casts | U16 => Some u16_casts
  | S32 => Some s32_casts | U32 => Some u32_casts
  | S64 => Some s64_casts | U64 => Some u64_casts
  | F32 => Some f32_casts | F64 => Some f64_casts
  | _ => None
  end.

(** [value_ops(v)->cast_to_T(v, out)] for the scalar tag [T]. *)
Definition cast_member (target : value_type) (row : value_casts)
  : option (value -> result value) :=
  match target with
  | S8 => Some (cast_to_s8 row) | U8 => Some (cast_to_u8 row)
  | S16 => Some (cast_to_s16 row) | U16 => Some (cast_to_u16 row)
  | S32 => Some (cast_to_s32 row) | U32 => Some (cast_to_u32 row)
  | S64 => Some (cast_to_s64 row) | U64 => Some (cast_to_u64 row)
  | F32 => Some (cast_to_f32 row) | F64 => Some (cast_to_f64 row)
  | _ => None
  end.

Definition value_cast (target : value_type) (v : value) : result value :=
  match value_casts_of (type v) with
  | Some row =>
      match cast_member target row with
      | Some cast => cast v
      | None => Undef
      end
  | None => Undef
  end.


(* ===================================================================== *)
(** ** value.c: the operators of s32, u32, s64 and u64 *)
(* ===================================================================== *)

(** Every handler of these rows sets [out->type], reads the member of its
    own type from both operands whatever their tags are, stores the result
    of the C operator and returns 1.  Results wrap to the width of the type
    (two's complement).  What C leaves undefined is [Undef]: a zero divisor,
    the quotient of the least value by -1, and a shift count that is
    negative or not below the width. *)
Section IntRow.
Variable t : value_type.
Let w : Z := value_type_bits t.
Let member (v : value) : result Z := data_int w (is_signed t) v.

Definition int_unop (f : Z -> Z) (op1 : value) : result value :=
  a <- member op1 ;;
  Ok (mk_value t (wrap w (f a))).

Definition int_binop (f : Z -> Z -> Z) (op1 op2 : value) : result value :=
  a <- member op1 ;;
  b <- member op2 ;;
  Ok (mk_value t (wrap w (f a b))).

(** [/] and [%]: no handler looks at the divisor before dividing. *)
Definition int_divop (f : Z -> Z -> Z) (op1 op2 : value) : result value :=
  a <- member op1 ;;
  b <- member op2 ;;
  if b =? 0 then Undef
  else if is_signed t && (a =? - 2 ^ (w - 1)) && (b =? -1) then Undef
  else Ok (mk_value t (wrap w (f a b))).

Definition int_shift (f : Z -> Z -> Z) (op1 op2 : value) : result value :=
  a <- member op1 ;;
  b <- member op2 ;;
  if (b <? 0) || (w <=? b) then Undef
  else Ok (mk_value t (wrap w (f a b))).

(** The comparisons store an [int]: [out->type = S32]. *)
Definition int_relop (f : Z -> Z -> bool) (op1 op2 : value) : result value :=
  a <- member op1 ;;
  b <- member op2 ;;
  Ok (mk_value S32 (if f a b then 1 else 0)).
End IntRow.

Definition c_not (a : Z) : Z := if a =? 0 then 1 else 0.
Definition Z_neqb (a b : Z) : bool := negb (a =? b).

Definition s32_neg := int_unop S32 Z.opp.
Definition s32_not := int_unop S32 c_not.
Definition s32_compl := int_unop S32 Z.lnot.
Definition s32_add := int_binop S32 Z.add.
Definition s32_sub := int_binop S32 Z.sub.
Definition s32_mul := int_binop S32 Z.mul.
Definition s32_div := int_divop S32 Z.quot.
Definition s32_mod := int_divop S32 Z.rem.
Definition s32_and := int_binop S32 Z.land.
Definition s32_xor := int_binop S32 Z.lxor.
Definition s32_or := int_binop S32 Z.lor.
Definition s32_shl := int_shift S32 Z.shiftl.
Definition s32_shr := int_shift S32 Z.shiftr.
Definition s32_eq := int_relop S32 Z.eqb.
Definition s32_neq := int_relop S32 Z_neqb.
Definition s32_lt := int_relop S32 Z.ltb.
Definition s32_gt := int_relop S32 Z.gtb.
Definition s32_le := int_relop S32 Z.leb.
Definition s32_ge := int_relop S32 Z.geb.

Definition u32_neg := int_unop U32 Z.opp.
Definition u32_not := int_unop U32 c_not.
Definition u32_compl := int_unop U32 Z.lnot.
Definition u32_add := int_binop U32 Z.add.
Definition u32_sub := int_binop U32 Z.sub.
Definition u32_mul := int_binop U32 Z.mul.
Definition u32_div := int_divop U32 Z.quot.
Definition u32_mod := int_divop U32 Z.rem.
Definition u32_and := int_binop U32 Z.land.
Definition u32_xor := int_binop U32 Z.lxor.
Definition u32_or := int_binop U32 Z.lor.
Definition u32_shl := int_shift U32 Z.shiftl.
Definition u32_shr := int_shift U32 Z.shiftr.
Definition u32_eq := int_relop U32 Z.eqb.
Definition u32_neq := int_relop U32 Z_neqb.
Definition u32_lt := int_relop U32 Z.ltb.
Definition u32_gt := int_relop U32 Z.gtb.
Definition u32_le := int_relop U32 Z.leb.
Definition u32_ge := int_relop U32 Z.geb.

Definition s64_neg := int_unop S64 Z.opp.
Definition s64_not := int_unop S64 c_not.
Definition s64_compl := int_unop S64 Z.lnot.
Definition s64_add := int_binop S64 Z.add.
Definition s64_sub := int_binop S64 Z.sub.
Definition s64_mul := int_binop S64 Z.mul.
Definition s64_div := int_divop S64 Z.quot.
Definition s64_mod := int_divop S64 Z.rem.
Definition s64_and := int_binop S64 Z.land.
Definition s64_xor := int_binop S64 Z.lxor.
Definition s64_or := int_binop S64 Z.lor.
Definition s64_shl := int_shift S64 Z.shiftl.
Definition s64_shr := int_shift S64 Z.shiftr.
Definition s64_eq := int_relop S64 Z.eqb.
Definition s64_neq := int_relop S64 Z_neqb.
Definition s64_lt := int_relop S64 Z.ltb.
Definition s64_gt := int_relop S64 Z.gtb.
Definition s64_le := int_relop S64 Z.leb.
Definition s64_ge := int_relop S64 Z.geb.

Definition u64_neg := int_unop U64 Z.opp.
Definition u64_not := int_unop U64 c_not.
Definition u64_compl := int_unop U64 Z.lnot.
Definition u64_add := int_binop U64 Z.add.
Definition u64_sub := int_binop U64 Z.sub.
Definition u64_mul := int_binop U64 Z.mul.
Definition u64_div := int_divop U64 Z.quot.
Definition u64_mod := int_divop U64 Z.rem.
Definition u64_and := int_binop U64 Z.land.
Definition u64_xor := int_binop U64 Z.lxor.
Definition u64_or := int_binop U64 Z.lor.
Definition u64_shl := int_shift U64 Z.shiftl.
Definition u64_shr := int_shift U64 Z.shiftr.
Definition u64_eq := int_relop U64 Z.eqb.
Definition u64_neq := int_relop U64 Z_neqb.
Definition u64_lt := int_relop U64 Z.ltb.
Definition u64_gt := int_relop U64 Z.gtb.
Definition u64_le := int_relop U64 Z.leb.
Definition u64_ge := int_relop U64 Z.geb.

(* ===================================================================== *)
(** ** value.c: the operators of f64 *)
(* ===================================================================== *)

Definition f64_arith (f : spec_float -> spec_float -> spec_float)
  (op1 op2 : value) : result value :=
  a <- data_f64 op1 ;;
  b <- data_f64 op2 ;;
  Ok (mk_value F64 (bits_of_f64 (f a b))).

Definition f64_relop (f : spec_float -> spec_float -> bool)
  (op1 op2 : value) : result value :=
  a <- data_f64 op1 ;;
  b <- data_f64 op2 ;;
  Ok (mk_value S32 (if f a b then 1 else 0)).

Definition f64_neg (op1 : value) : result value :=
  a <- data_f64 op1 ;;
  Ok (mk_value F64 (bits_of_f64 (SFopp a))).

(** [out->type = S32; out->data.s32 = !op1->data.f64] *)
Definition f64_not (op1 : value) : result value :=
  a <- data_f64 op1 ;;
  Ok (mk_value S32 (if SFeqb a (S754_zero false) then 1 else 0)).

Definition f64_add := f64_arith (SFadd 53 1024).
Definition f64_sub := f64_arith (SFsub 53 1024).
Definition f64_mul := f64_arith (SFmul 53 1024).
Definition f64_div := f64_arith (SFdiv 53 1024).
Definition f64_eq := f64_relop SFeqb.
Definition f64_neq := f64_relop (fun a b => negb (SFeqb a b)).
Definition f64_lt := f64_relop SFltb.
Definition f64_gt := f64_relop (fun a b => SFltb b a).
Definition f64_le := f64_relop SFleb.
Definition f64_ge := f64_relop (fun a b => SFleb b a).

(* ===================================================================== *)
(** ** value.c: the promoting handlers *)
(* ===================================================================== *)

(** [value_ops(op1)->cast_to_s32(op1, out)] and
    [value_ops(op1)->cast_to_f64(op1, out)]: the cast is looked up in the
    row of [op1]'s tag. *)
Definition promote_s32 (op1 : value) : result value := value_cast S32 op1.
Definition promote_f64 (op1 : value) : result value := value_cast F64 op1.

(** value.c, dummy_nop and dummy_unop: [return 0; /* error */]. *)
Definition dummy_nop (op1 op2 : value) : result value := Err.
Definition dummy_unop (op1 : value) : result value := Err.

(** value.c, dummy_neg .. dummy_ge: after the cast [out] has the tag S32, so
    [value_ops(out)] is the S32 row; the second operand is passed on as it
    is. *)
Definition dummy_neg (op1 : value) : result value :=
  out <- promote_s32 op1 ;; s32_neg out.
Definition dummy_not (op1 : value) : result value :=
  out <- promote_s32 op1 ;; s32_not out.
Definition dummy_compl (op1 : value) : result value :=
  out <- promote_s32 op1 ;; s32_compl out.
Definition dummy_add (op1 op2 : value) : result value :=
  out <- promote_s32 op1 ;; s32_add out op2.
Definition dummy_sub (op1 op2 : value) : result value :=
  out <- promote_s32 op1 ;; s32_sub out op2.
Definition dummy_mul (op1 op2 : value) : result value :=
  out <- promote_s32 op1 ;; s32_mul out op2.
Definition dummy_div (op1 op2 : value) : result value :=
  out <- promote_s32 op1 ;; s32_div out op2.
Definition dummy_mod (op1 op2 : value) : result value :=
  out <- promote_s32 op1 ;; s32_mod out op2.
Definition dummy_and (op1 op2 : value) : result value :=
  out <- promote_s32 op1 ;; s32_and out op2.
Definition dummy_xor (op1 op2 : value) : result value :=
  out <- promote_s32 op1 ;; s32_xor out op2.
Definition dummy_or (op1 op2 : value) : result value :=
  out <- promote_s32 op1 ;; s32_or out op2.
Definition dummy_shl (op1 op2 : value) : result value :=
  out <- promote_s32 op1 ;; s32_shl out op2.
Definition dummy_shr (op1 op2 : value) : result value :=
  out <- promote_s32 op1 ;; s32_shr out op2.
Definition dummy_eq (op1 op2 : value) : result value :=
  out <- promote_s32 op1 ;; s32_eq out op2.
Definition dummy_neq (op1 op2 : value) : result value :=
  out <- promote_s32 op1 ;; s32_neq out op2.
Definition dummy_lt (op1 op2 : value) : result value :=
  out <- promote_s32 op1 ;; s32_lt out op2.
Definition dummy_gt (op1 op2 : value) : result value :=
  out <- promote_s32 op1 ;; s32_gt out op2.
Definition dummy_le (op1 op2 : value) : result value :=
  out <- promote_s32 op1 ;; s32_le out op2.
Definition dummy_ge (op1 op2 : value) : result value :=
  out <- promote_s32 op1 ;; s32_ge out op2.

(** value.c, f32_neg .. f32_ge: after the cast [out] has the tag F64, so
    [value_ops(out)] is the F64 row. *)
Definition f32_neg (op1 : value) : result value :=
  out <- promote_f64 op1 ;; f64_neg out.
Definition f32_not (op1 : value) : result value :=
  out <- promote_f64 op1 ;; f64_not out.
Definition f32_add (op1 op2 : value) : result value :=
  out <- promote_f64 op1 ;; f64_add out op2.
Definition f32_sub (op1 op2 : value) : result value :=
  out <- promote_f64 op1 ;; f64_sub out op2.
Definition f32_mul (op1 op2 : value) : result value :=
  out <- promote_f64 op1 ;; f64_mul out op2.
Definition f32_div (op1 op2 : value) : result value :=
  out <- promote_f64 op1 ;; f64_div out op2.
Definition f32_eq (op1 op2 : value) : result value :=
  out <- promote_f64 op1 ;; f64_eq out op2.
Definition f32_neq (op1 op2 : value) : result value :=
  out <- promote_f64 op1 ;; f64_neq out op2.
Definition f32_lt (op1 op2 : value) : result value :=
  out <- promote_f64 op1 ;; f64_lt out op2.
Definition f32_gt (op1 op2 : value) : result value :=
  out <- promote_f64 op1 ;; f64_gt out op2.
Definition f32_le (op1 op2 : value) : result value :=
  out <- promote_f64 op1 ;; f64_le out op2.
Definition f32_ge (op1 op2 : value) : result value :=
  out <- promote_f64 op1 ;; f64_ge out op2.

(* ===================================================================== *)
(** ** value.c: the method table *)
(* ===================================================================== *)

Record value_operations : Type := mk_ops {
  casts : value_casts;
  op_neg : value -> result value;
  op_not : value -> result value;
  op_compl : value -> result value;
  op_add : value -> value -> result value;
  op_sub : value -> value -> result value;
  op_mul : value -> value -> result value;
  op_div : value -> value -> result value;
  op_mod : value -> value -> result value;
  op_and : value -> value -> result value;
  op_xor : value -> value -> result value;
  op_or : value -> value -> result value;
  op_shl : value -> value -> result value;
  op_shr : value -> value -> result value;
  op_eq : value -> value -> result value;
  op_neq : value -> value -> result value;
  op_lt : value -> value -> result value;
  op_gt : value -> value -> result value;
  op_le : value -> value -> result value;
  op_ge : value -> value -> result value
}.

Definition dummy_row (c : value_casts) : value_operations :=
  mk_ops c
    dummy_neg dummy_not dummy_compl
    dummy_add dummy_sub dummy_mul dummy_div dummy_mod
    dummy_and dummy_xor dummy_or dummy_shl dummy_shr
    dummy_eq dummy_neq dummy_lt dummy_gt dummy_le dummy_ge.

Definition S8_ops : value_operations := dummy_row s8_casts.
Definition U8_ops : value_operations := dummy_row u8_casts.
Definition S16_ops : value_operations := dummy_row s16_casts.
Definition U16_ops : value_operations := dummy_row u16_casts.

Definition S32_ops : value_operations :=
  mk_ops s32_casts
    s32_neg s32_not s32_compl
    s32_add s32_sub s32_mul s32_div s32_mod
    s32_and s32_xor s32_or s32_shl s32_shr
    s32_eq s32_neq s32_lt s32_gt s32_le s32_ge.

Definition U32_ops : value_operations :=
  mk_ops u32_casts
    u32_neg u32_not u32_compl
    u32_add u32_sub u32_mul u32_div u32_mod
    u32_and u32_xor u32_or u32_shl u32_shr
    u32_eq u32_neq u32_lt u32_gt u32_le u32_ge.

Definition S64_ops : value_operations :=
  mk_ops s64_casts
    s64_neg s64_not s64_compl
    s64_add s64_sub s64_mul s64_div s64_mod
    s64_and s64_xor s64_or s64_shl s64_shr
    s64_eq s64_neq s64_lt s64_gt s64_le s64_ge.

Definition U64_ops : value_operations :=
  mk_ops u64_casts
    u64_neg u64_not u64_compl
    u64_add u64_sub u64_mul u64_div u64_mod
    u64_and u64_xor u64_or u64_shl u64_shr
    u64_eq u64_neq u64_lt u64_gt u64_le u64_ge.

Definition F32_ops : value_operations :=
  mk_ops f32_casts
    f32_neg f32_not dummy_unop
    f32_add f32_sub f32_mul f32_div dummy_mod
    dummy_nop dummy_nop dummy_nop dummy_nop dummy_nop
    f32_eq f32_neq f32_lt f32_gt f32_le f32_ge.

Definition F64_ops : value_operations :=
  mk_ops f64_casts
    f64_neg f64_not dummy_unop
    f64_add f64_sub f64_mul f64_div dummy_mod
    dummy_nop dummy_nop dummy_nop dummy_nop dummy_nop
    f64_eq f64_neq f64_lt f64_gt f64_le f64_ge.

(** [value_ops(v)]: the row of the tag of [v]. *)
Definition value_ops (t : value_type) : option value_operations :=
  match t with
  | S8 => Some S8_ops | U8 => Some U8_ops
  | S16 => Some S16_ops | U16 => Some U16_ops
  | S32 => Some S32_ops | U32 => Some U32_ops
  | S64 => Some S64_ops | U64 => Some U64_ops
  | F32 => Some F32_ops | F64 => Some F64_ops
  | _ => None
  end.

(* ===================================================================== *)
(** ** value.c: type names *)
(* ===================================================================== *)

Definition NUL : ascii := Ascii.zero.

(** The bytes of a C string: its characters and the terminating NUL. *)
Definition c_bytes (s : string) : list ascii := list_ascii_of_string s ++ [NUL].

(** [!memcmp(a, b, len)]: the first [len] bytes agree.  A comparison that
    would run past the end of either object does not succeed; it cannot
    arise when [a] holds [len] bytes without a NUL. *)
Fixpoint memcmp_eq (a b : list ascii) (len : nat) : bool :=
  match len with
  | O => true
  | S len' =>
      match a, b with
      | x :: a', y :: b' => Ascii.eqb x y && memcmp_eq a' b' len'
      | _, _ => false
      end
  end.

(** value.c, value_type_from_substring; 0 is [None]. *)
Definition value_type_from_substring (str : list ascii) (len : nat)
  : option value_type :=
  if memcmp_eq str (c_bytes "s8") len then Some S8
  else if memcmp_eq str (c_bytes "s16") len then Some S16
  else if memcmp_eq str (c_bytes "s32") len then Some S32
  else if memcmp_eq str (c_bytes "s64") len then Some S64
  else if memcmp_eq str (c_bytes "u8") len then Some U8
  else if memcmp_eq str (c_bytes "u16") len then Some U16
  else if memcmp_eq str (c_bytes "u32") len then Some U32
  else if memcmp_eq str (c_bytes "u64") len then Some U64
  else if memcmp_eq str (c_bytes "f32") len then Some F32
  else if memcmp_eq str (c_bytes "f64") len then Some F64
  else None.

(** value.c, value_type_from_string:
    [value_type_from_substring(str, strlen(str))]. *)
Definition value_type_from_string (str : string) : option value_type :=
  value_type_from_substring (c_bytes str) (String.length str).

(** The names of the scalar types in the expression language. *)
Definition scalar_type_name (t : value_type) : string :=
  match t with
  | S8 => "s8" | S16 => "s16" | S32 => "s32" | S64 => "s64"
  | U8 => "u8" | U16 => "u16" | U32 => "u32" | U64 => "u64"
  | F32 => "f32" | F64 => "f64"
  | _ => "void"
  end.

Definition scalar_type_names : list string :=
  ["s8"; "s16"; "s32"; "s64"; "u8"; "u16"; "u32"; "u64"; "f32"; "f64"]%string.

Definition scalar_types : list value_type :=
  [S8; U8; S16; U16; S32; U32; S64; U64; F32; F64].

(* ===================================================================== *)
(** ** ast.h, ast.c: the tree *)
(* ===================================================================== *)

(** The node types parse.c and opt.c name.  ast.c calls the negation
    AST_NEG and has AST_DEREF besides, a node parse.c never builds; only
    parse.c has the unary plus. *)
Inductive ast_type : Type :=
| AST_VALUE | AST_VAR
| AST_CAST | AST_UADD | AST_USUB | AST_NOT | AST_COMPL
| AST_ADD | AST_SUB | AST_MUL | AST_DIV | AST_MOD
| AST_AND | AST_XOR | AST_OR | AST_SHL | AST_SHR
| AST_EQ | AST_NEQ | AST_LT | AST_GT | AST_LE | AST_GE
| AST_AND_COND | AST_OR_COND.

(** [struct ast] and the structs that extend it.  Every node carries
    [value_type]; a literal also carries its [struct value], a variable the
    name of its symbol, the other nodes their [node_type] and children. *)
Inductive ast : Type :=
| Value (value_type : value_type) (v : value)
| Var (value_type : value_type) (sym : string)
| Unop (node_type : ast_type) (value_type : value_type) (child : ast)
| Binop (node_type : ast_type) (value_type : value_type) (left right : ast).

Definition ast_value_type (t : ast) : value_type :=
  match t with
  | Value vt _ | Var vt _ | Unop _ vt _ | Binop _ vt _ _ => vt
  end.

Definition ast_node_type (t : ast) : ast_type :=
  match t with
  | Value _ _ => AST_VALUE
  | Var _ _ => AST_VAR
  | Unop nt _ _ | Binop nt _ _ _ => nt
  end.

(** [root->value_type = vt] *)
Definition set_value_type (vt : value_type) (t : ast) : ast :=
  match t with
  | Value _ v => Value vt v
  | Var _ s => Var vt s
  | Unop nt _ c => Unop nt vt c
  | Binop nt _ l r => Binop nt vt l r
  end.

(** ast.c, ast_value_new: the node takes the tag of the value it copies. *)
Definition ast_value_new (v : value) : ast := Value (type v) v.

(** ast.c, ast_cast_new *)
Definition ast_cast_new (vt : value_type) (child : ast) : ast :=
  Unop AST_CAST vt child.

(** ast.c, ast_unary_new and ast_binary_new ([ast_unop_new] and
    [ast_binop_new] to parse.c and opt.c) leave [value_type] to the caller,
    who assigns it in the next statement; the constructors here take it as
    an argument. *)
Definition ast_unop_new (nt : ast_type) (vt : value_type) (child : ast) : ast :=
  Unop nt vt child.

Definition ast_binop_new (nt : ast_type) (vt : value_type) (l r : ast) : ast :=
  Binop nt vt l r.

(** Modelled from the spec: ast_int_new, ast_uint_new and ast_float_new of
    the parser's ast.c are not under src/.  A literal node carries the
    token's number as a value whose tag is the node's result type. *)
Definition ast_int_new (integer : Z) : ast :=
  Value SINT (mk_value SINT (wrap (value_type_bits SINT) integer)).

Definition ast_uint_new (integer : Z) : ast :=
  Value UINT (mk_value UINT (wrap (value_type_bits UINT) integer)).

Definition ast_float_new (fp : Z) : ast :=
  Value DOUBLE (mk_value DOUBLE fp).

(** [ast_is_constant]: the node is a literal. *)
Definition ast_is_constant (t : ast) : bool :=
  match t with
  | Value _ _ => true
  | _ => false
  end.

(* ===================================================================== *)
(** ** lex.h: tokens *)
(* ===================================================================== *)

Inductive lex_token_type : Type :=
| LEX_EOL | LEX_IDENTIFIER | LEX_INTEGER | LEX_UINTEGER | LEX_FLOATING_POINT
| LEX_LEFT_PARENTHESE | LEX_RIGHT_PARENTHESE
| LEX_ADD | LEX_SUB | LEX_MUL | LEX_DIV | LEX_MOD
| LEX_AND | LEX_XOR | LEX_OR | LEX_SHL | LEX_SHR
| LEX_EQ | LEX_NEQ | LEX_LT | LEX_GT | LEX_LE | LEX_GE
| LEX_AND_COND | LEX_OR_COND | LEX_NOT | LEX_COMPL.

Definition lex_token_type_eqb (a b : lex_token_type) : bool :=
  match a, b with
  | LEX_EOL, LEX_EOL | LEX_IDENTIFIER, LEX_IDENTIFIER
  | LEX_INTEGER, LEX_INTEGER | LEX_UINTEGER, LEX_UINTEGER
  | LEX_FLOATING_POINT, LEX_FLOATING_POINT
  | LEX_LEFT_PARENTHESE, LEX_LEFT_PARENTHESE
  | LEX_RIGHT_PARENTHESE, LEX_RIGHT_PARENTHESE
  | LEX_ADD, LEX_ADD | LEX_SUB, LEX_SUB | LEX_MUL, LEX_MUL
  | LEX_DIV, LEX_DIV | LEX_MOD, LEX_MOD | LEX_AND, LEX_AND
  | LEX_XOR, LEX_XOR | LEX_OR, LEX_OR | LEX_SHL, LEX_SHL
  | LEX_SHR, LEX_SHR | LEX_EQ, LEX_EQ | LEX_NEQ, LEX_NEQ
  | LEX_LT, LEX_LT | LEX_GT, LEX_GT | LEX_LE, LEX_LE | LEX_GE, LEX_GE
  | LEX_AND_COND, LEX_AND_COND | LEX_OR_COND, LEX_OR_COND
  | LEX_NOT, LEX_NOT | LEX_COMPL, LEX_COMPL => true
  | _, _ => false
  end.

(** [struct lex_token]: the type and the members of the value union the
    parser reads ([identifier], [integer], [fp] as the bits of a double). *)
Record lex_token : Type := mk_token {
  ltype : lex_token_type;
  identifier : string;
  integer : Z;
  fp : Z
}.

Definition token (t : lex_token_type) : lex_token := mk_token t "" 0 0.
Definition tok_identifier (name : string) : lex_token :=
  mk_token LEX_IDENTIFIER name 0 0.
Definition tok_integer (z : Z) : lex_token := mk_token LEX_INTEGER "" z 0.
Definition tok_uinteger (z : Z) : lex_token := mk_token LEX_UINTEGER "" z 0.
Definition tok_fp (bits : Z) : lex_token :=
  mk_token LEX_FLOATING_POINT "" 0 bits.

(** Modelled from the spec: lex.c is not under src/.  The input of the
    parser is what the lexer makes of the rest of the line: one entry per
    call, [LexFail] where the lexer returns 0; past the last entry the
    lexer keeps giving the end-of-line token. *)
Inductive lexeme : Type :=
| Lexed (t : lex_token)
| LexFail.

Definition lexer (input : list lexeme) : option lex_token * list lexeme :=
  match input with
  | [] => (Some (token LEX_EOL), [])
  | Lexed t :: rest => (Some t, rest)
  | LexFail :: rest => (None, rest)
  end.

(** Modelled from the spec: lex_to_ast_type is not under src/; an operator
    token maps to the node type of the same name. *)
Definition lex_to_ast_type (t : lex_token_type) : ast_type :=
  match t with
  | LEX_ADD => AST_ADD | LEX_SUB => AST_SUB | LEX_MUL => AST_MUL
  | LEX_DIV => AST_DIV | LEX_MOD => AST_MOD | LEX_AND => AST_AND
  | LEX_XOR => AST_XOR | LEX_OR => AST_OR | LEX_SHL => AST_SHL
  | LEX_SHR => AST_SHR | LEX_EQ => AST_EQ | LEX_NEQ => AST_NEQ
  | LEX_LT => AST_LT | LEX_GT => AST_GT | LEX_LE => AST_LE
  | LEX_GE => AST_GE | LEX_AND_COND => AST_AND_COND
  | LEX_OR_COND => AST_OR_COND | LEX_NOT => AST_NOT
  | LEX_COMPL => AST_COMPL
  | _ => AST_VALUE
  end.

(* ===================================================================== *)
(** ** symbol.h: the symbol table of the parser *)
(* ===================================================================== *)

(** Modelled from the spec: symbol.c is not under src/.  A table binds a
    name to a value; parse.c reads [sym->name] and [sym->value]. *)
Definition symbol_table : Type := list (string * value).

Fixpoint symbol_table_nlookup (symtab : symbol_table) (name : string)
  : option (string * value) :=
  match symtab with
  | [] => None
  | (n, v) :: rest =>
      if String.eqb n name then Some (n, v) else symbol_table_nlookup rest name
  end.

(* ===================================================================== *)
(** ** parse.c *)
(* ===================================================================== *)

(** [struct parser].  [input] is [in], the rest of the line after the
    look-ahead token [symbol]; [quiet] only silences the diagnostics, which
    are not modelled. *)
Record parser : Type := mk_parser {
  input : list lexeme;
  symtab : option symbol_table;
  errors : nat;
  symbol : lex_token;
  accepted : lex_token
}.

(** A production gives the tree it built ([None] is NULL) and the parser
    state it leaves; the outer [None] is a run cut short by the recursion
    bound of [expression] below. *)
Definition presult : Type := option (option ast * parser).

Definition parse_error (p : parser) : parser :=
  mk_parser (input p) (symtab p) (S (errors p)) (symbol p) (accepted p).

(** parse.c, next_symbol, after a lexer error: [do { lexer(&p->in,
    p->symbol); } while (p->symbol->type != LEX_EOL);] reads on, whatever
    the lexer returns, up to the end-of-line token. *)
Fixpoint skip_to_eol (rest : list lexeme) : lex_token * list lexeme :=
  match rest with
  | [] => (token LEX_EOL, [])
  | LexFail :: rest' => skip_to_eol rest'
  | Lexed t :: rest' =>
      if lex_token_type_eqb (ltype t) LEX_EOL then (t, rest')
      else skip_to_eol rest'
  end.

(** parse.c, next_symbol *)
Definition next_symbol (p : parser) : bool * parser :=
  match lexer (input p) with
  | (Some t, rest) =>
      (true, mk_parser rest (symtab p) (errors p) t (accepted p))
  | (None, rest) =>
      let '(eol, rest') := skip_to_eol rest in
      (false, mk_parser rest' (symtab p) (S (errors p)) eol (accepted p))
  end.

(** parse.c, accept: the look-ahead becomes [accepted] and the next token
    is read; the result is that of [next_symbol]. *)
Definition accept (p : parser) (sym : lex_token_type) : bool * parser :=
  if negb (lex_token_type_eqb (ltype (symbol p)) sym) then (false, p)
  else
    next_symbol
      (mk_parser (input p) (symtab p) (errors p) (symbol p) (symbol p)).

(** [accept(p, A) || accept(p, B) || ...], left to right. *)
Fixpoint accept_any (p : parser) (syms : list lex_token_type) : bool * parser :=
  match syms with
  | [] => (false, p)
  | sym :: rest =>
      let '(ok, p1) := accept p sym in
      if ok then (true, p1) else accept_any p1 rest
  end.

(** parse.c, expect *)
Definition expect (p : parser) (sym : lex_token_type) : bool * parser :=
  let '(ok, p1) := accept p sym in
  if ok then (true, p1) else (false, parse_error p1).

(** parse.c, factor.  [expression] is the production a parenthesis opens. *)
Definition factor (expression : parser -> presult) (p : parser) : presult :=
  let '(ok, p1) := accept p LEX_IDENTIFIER in
  if ok then
    let name := identifier (accepted p1) in
    match symtab p1 with
    | Some tab =>
        match symbol_table_nlookup tab name with
        | Some (sym_name, sym_value) =>
            Some (Some (Var (type sym_value) sym_name), p1)
        | None => Some (None, parse_error p1)
        end
    | None => Some (None, parse_error p1)
    end
  else
  let '(ok, p2) := accept p1 LEX_INTEGER in
  if ok then
    Some (Some (set_value_type SINT (ast_int_new (integer (accepted p2)))), p2)
  else
  let '(ok, p3) := accept p2 LEX_UINTEGER in
  if ok then
    Some (Some (set_value_type UINT (ast_uint_new (integer (accepted p3)))), p3)
  else
  let '(ok, p4) := accept p3 LEX_FLOATING_POINT in
  if ok then
    Some (Some (set_value_type DOUBLE (ast_float_new (fp (accepted p4)))), p4)
  else
  let '(ok, p5) := accept p4 LEX_LEFT_PARENTHESE in
  if ok then
    match expression p5 with
    | None => None
    | Some (root, p6) => Some (root, snd (expect p6 LEX_RIGHT_PARENTHESE))
    end
  else Some (None, parse_error p5).

(** parse.c, unary_expression.  [cast_expression] parses the operand. *)
Definition unary_expression (cast_expression : parser -> presult)
  (expression : parser -> presult) (p : parser) : presult :=
  let '(ok, p1) :=
    accept_any p [LEX_ADD; LEX_SUB; LEX_NOT; LEX_COMPL] in
  if ok then
    let type := lex_to_ast_type (ltype (accepted p1)) in
    match cast_expression p1 with
    | None => None
    | Some (None, p2) => Some (None, p2)
    | Some (Some child, p2) =>
        let root :=
          match type with
          | AST_ADD =>
              if is_INT_or_FPU (ast_value_type child)
              then Some (ast_unop_new AST_UADD (ast_value_type child) child)
              else None
          | AST_SUB =>
              if is_INT_or_FPU (ast_value_type child)
              then Some (ast_unop_new AST_USUB (ast_value_type child) child)
              else None
          | _ => (* AST_NOT or AST_COMPL *)
              if is_INT (ast_value_type child)
              then Some (ast_unop_new type (ast_value_type child) child)
              else None
          end in
        match root with
        | Some r => Some (Some r, p2)
        | None => Some (None, parse_error p2)
        end
    end
  else factor expression p1.

(** parse.c, cast_expression: the two tokens after the parenthesis are read
    ahead from a copy of [in]; [sizeof(buf)-1] is 15. *)
Definition peek_type (p : parser) : option value_type :=
  match lexer (input p) with
  | (Some peek0, rest) =>
      match lexer rest with
      | (Some peek1, _) =>
          if lex_token_type_eqb (ltype peek0) LEX_IDENTIFIER
             && lex_token_type_eqb (ltype peek1) LEX_RIGHT_PARENTHESE
             && (String.length (identifier peek0) <? 15)%nat
          then value_type_from_string (identifier peek0)
          else None
      | (None, _) => None
      end
  | (None, _) => None
  end.

Fixpoint cast_expression (expression : parser -> presult) (fuel : nat)
  (p : parser) : presult :=
  match fuel with
  | O => None
  | S fuel' =>
      let unary := unary_expression (cast_expression expression fuel') expression in
      if lex_token_type_eqb (ltype (symbol p)) LEX_LEFT_PARENTHESE then
        match peek_type p with
        | Some type =>
            let '(ok, p1) := accept p LEX_LEFT_PARENTHESE in
            if negb ok then unary p1 else
            let '(ok, p2) := accept p1 LEX_IDENTIFIER in
            if negb ok then unary p2 else
            let '(ok, p3) := accept p2 LEX_RIGHT_PARENTHESE in
            if negb ok then unary p3 else
            match cast_expression expression fuel' p3 with
            | None => None
            | Some (Some child, p4) => Some (Some (ast_cast_new type child), p4)
            | Some (None, p4) => Some (None, p4)
            end
        | None => unary p
        end
      else unary p
  end.

(** The binary productions of parse.c share one shape:
[[
    root = operand(p);
    while (root && (accept(p, OP1) || accept(p, OP2) ...)) {
        type = lex_to_ast_type(p->accepted->type);
        left = root;  right = operand(p);  root = NULL;
        if (!right) { ast_delete(left); break; }
        if (<the operand types admit the operator>) {
            root = ast_binop_new(type, left, right);
            root->value_type = <result type>;
        } else { parse_error(p, ...); ast_delete(left); ast_delete(right); }
    }
    return root;
]]
    with [if] for [while] in equality_expression and relational_expression.
    The section takes what differs from one production to the next. *)
Section BinaryProduction.
Variable operand : parser -> presult.
Variable operators : list lex_token_type.
Variable admits : ast_type -> value_type -> value_type -> bool.
Variable result_type : value_type -> value_type -> value_type.

(** The body of the loop, after an operator was accepted; [lhs] and [rhs]
    are the source's [left] and [right]. *)
Definition binary_body (lhs : ast) (p : parser) : presult :=
  let type := lex_to_ast_type (ltype (accepted p)) in
  match operand p with
  | None => None
  | Some (None, p1) => Some (None, p1)
  | Some (Some rhs, p1) =>
      if admits type (ast_value_type lhs) (ast_value_type rhs) then
        Some (Some (ast_binop_new type
                      (result_type (ast_value_type lhs) (ast_value_type rhs))
                      lhs rhs), p1)
      else Some (None, parse_error p1)
  end.

Fixpoint binary_while (fuel : nat) (root : option ast) (p : parser) : presult :=
  match root with
  | None => Some (None, p)
  | Some lhs =>
      let '(ok, p1) := accept_any p operators in
      if ok then
        match fuel with
        | O => None
        | S fuel' =>
            match binary_body lhs p1 with
            | None => None
            | Some (root', p2) => binary_while fuel' root' p2
            end
        end
      else Some (root, p1)
  end.

Definition binary_if (root : option ast) (p : parser) : presult :=
  match root with
  | None => Some (None, p)
  | Some lhs =>
      let '(ok, p1) := accept_any p operators in
      if ok then binary_body lhs p1 else Some (root, p1)
  end.

Definition binary_loop_production (fuel : nat) (p : parser) : presult :=
  match operand p with
  | None => None
  | Some (root, p1) => binary_while fuel root p1
  end.

Definition binary_once_production (p : parser) : presult :=
  match operand p with
  | None => None
  | Some (root, p1) => binary_if root p1
  end.
End BinaryProduction.

Definition both_INT (_ : ast_type) (l r : value_type) : bool :=
  is_INT l && is_INT r.

Definition both_numeric (_ : ast_type) (l r : value_type) : bool :=
  is_INT_or_FPU l && is_INT_or_FPU r.

(** [valid_types = (type == AST_MOD) ? INT : (INT|FPU)] *)
Definition muldiv_admits (type : ast_type) (l r : value_type) : bool :=
  match type with
  | AST_MOD => is_INT l && is_INT r
  | _ => is_INT_or_FPU l && is_INT_or_FPU r
  end.

Section Productions.
(** [expression] is the production of a parenthesised factor; [fuel]
    bounds the nesting of casts and unary operators and the length of
    every operator chain. *)
Variable expression : parser -> presult.
Variable fuel : nat.

(** parse.c, muldiv_expression *)
Definition muldiv_expression : parser -> presult :=
  binary_loop_production (cast_expression expression fuel)
    [LEX_MUL; LEX_DIV; LEX_MOD] muldiv_admits HIGHER_TYPE fuel.

(** parse.c, addsub_expression *)
Definition addsub_expression : parser -> presult :=
  binary_loop_production muldiv_expression
    [LEX_ADD; LEX_SUB] both_numeric HIGHER_TYPE fuel.

(** parse.c, shift_expression: [root->value_type = left->value_type] *)
Definition shift_expression : parser -> presult :=
  binary_loop_production addsub_expression
    [LEX_SHL; LEX_SHR] both_INT (fun l _ => l) fuel.

(** parse.c, relational_expression: [root->value_type = SINT] *)
Definition relational_expression : parser -> presult :=
  binary_once_production shift_expression
    [LEX_LT; LEX_GT; LEX_LE; LEX_GE] both_numeric (fun _ _ => SINT).

(** parse.c, equality_expression: [root->value_type = SINT] *)
Definition equality_expression : parser -> presult :=
  binary_once_production relational_expression
    [LEX_EQ; LEX_NEQ] both_numeric (fun _ _ => SINT).

(** parse.c, and_expression *)
Definition and_expression : parser -> presult :=
  binary_loop_production equality_expression
    [LEX_AND] both_INT HIGHER_TYPE fuel.

(** parse.c, xor_expression *)
Definition xor_expression : parser -> presult :=
  binary_loop_production and_expression
    [LEX_XOR] both_INT HIGHER_TYPE fuel.

(** parse.c, or_expression *)
Definition or_expression : parser -> presult :=
  binary_loop_production xor_expression
    [LEX_OR] both_INT HIGHER_TYPE fuel.

(** parse.c, conditional_expression: no check of the operand types;
    [root->value_type = SINT]. *)
Definition conditional_expression : parser -> presult :=
  binary_loop_production or_expression
    [LEX_AND_COND; LEX_OR_COND] (fun _ _ _ => true) (fun _ _ => SINT) fuel.
End Productions.

(** parse.c, expression *)
Fixpoint expression (fuel : nat) (p : parser) : presult :=
  match fuel with
  | O => None
  | S fuel' =>
      if lex_token_type_eqb (ltype (symbol p)) LEX_EOL then Some (None, p)
      else conditional_expression (expression fuel') fuel' p
  end.

(** The end of parse_expression: [do { next_symbol(&p); } while
    (p.symbol->type != LEX_EOL);] *)
Fixpoint skip_line (fuel : nat) (p : parser) : parser :=
  match fuel with
  | O => p
  | S fuel' =>
      let p1 := snd (next_symbol p) in
      if negb (lex_token_type_eqb (ltype (symbol p1)) LEX_EOL)
      then skip_line fuel' p1 else p1
  end.

(** The nesting and the operator chains of a line are bounded by the number
    of its tokens. *)
Definition parse_fuel (line : list lexeme) : nat := S (S (List.length line)).

(** parse.c, parse_expression: the error count and the tree of [*pout].
    With an error counted, a tree that was built has been deleted
    ([ast_delete( *pout)]) and [*pout] still points at it: there is no tree
    to use, and [None] stands for that. *)
Definition parse_expression (line : list lexeme) (tab : option symbol_table)
  : option (nat * option ast) :=
  let p0 := mk_parser line tab 0 (token LEX_EOL) (token LEX_EOL) in
  let '(_, p) := next_symbol p0 in
  match expression (parse_fuel line) p with
  | None => None
  | Some (out, p1) =>
      let p2 :=
        if negb (lex_token_type_eqb (ltype (symbol p1)) LEX_EOL)
        then skip_line (S (List.length (input p1))) (parse_error p1)
        else match out with
             | None => parse_error p1
             | Some _ => p1
             end in
      Some (errors p2, if (0 <? errors p2)%nat then None else out)
  end.

(* ===================================================================== *)
(** ** eval.h: evaluation of a tree *)
(* ===================================================================== *)

(** The member of the method table a unary node type names. *)
Definition unary_method (nt : ast_type) (ops : value_operations)
  : option (value -> result value) :=
  match nt with
  | AST_USUB => Some (op_neg ops)
  | AST_NOT => Some (op_not ops)
  | AST_COMPL => Some (op_compl ops)
  | _ => None
  end.

(** The member of the method table a binary node type names. *)
Definition binary_method (nt : ast_type) (ops : value_operations)
  : option (value -> value -> result value) :=
  match nt with
  | AST_ADD => Some (op_add ops) | AST_SUB => Some (op_sub ops)
  | AST_MUL => Some (op_mul ops) | AST_DIV => Some (op_div ops)
  | AST_MOD => Some (op_mod ops) | AST_AND => Some (op_and ops)
  | AST_XOR => Some (op_xor ops) | AST_OR => Some (op_or ops)
  | AST_SHL => Some (op_shl ops) | AST_SHR => Some (op_shr ops)
  | AST_EQ => Some (op_eq ops) | AST_NEQ => Some (op_neq ops)
  | AST_LT => Some (op_lt ops) | AST_GT => Some (op_gt ops)
  | AST_LE => Some (op_le ops) | AST_GE => Some (op_ge ops)
  | _ => None
  end.

Definition is_relational (nt : ast_type) : bool :=
  match nt with
  | AST_EQ | AST_NEQ | AST_LT | AST_GT | AST_LE | AST_GE => true
  | _ => false
  end.

Definition is_arithmetic (nt : ast_type) : bool :=
  match nt with
  | AST_ADD | AST_SUB | AST_MUL | AST_DIV | AST_MOD => true
  | _ => false
  end.

Definition is_conditional (nt : ast_type) : bool :=
  match nt with
  | AST_AND_COND | AST_OR_COND => true
  | _ => false
  end.

(** [value_ops(v)->op(v, out)] *)
Definition apply_unary (nt : ast_type) (v : value) : result value :=
  match value_ops (type v) with
  | Some ops =>
      match unary_method nt ops with
      | Some method => method v
      | None => Undef
      end
  | None => Undef
  end.

(** [value_ops(l)->op(l, r, out)]: the row is that of the left operand. *)
Definition apply_binary (nt : ast_type) (l r : value) : result value :=
  match value_ops (type l) with
  | Some ops =>
      match binary_method nt ops with
      | Some method => method l r
      | None => Undef
      end
  | None => Undef
  end.

Definition truth (b : bool) : value := mk_value S32 (if b then 1 else 0).

(** Modelled from the spec: eval.c (ast_evaluate) is not under src/.
    Evaluation is a post-order traversal that gives a value or fails.  A
    literal gives its value and a variable the value of its symbol.  Every
    other node gives a value of its declared result type, "the type the
    evaluator will produce, independent of child types": what the operation
    of the node gives is stored as that type, through the cast of its row.
    A cast converts the child's value.  A unary operator is dispatched
    through the row of the child's value; unary plus has no operation.  At
    a binary node with operands of different types both are cast first, to
    the node's declared result type or, at a relational node, to the higher
    of the two types; the operator is then dispatched through the table.
    [&&] and [||] do not evaluate the right child when the left one settles
    the outcome, and give 0 or 1; a value is true when value_is_zero says
    it is not zero. *)
Fixpoint ast_evaluate (tab : symbol_table) (this : ast) : result value :=
  match this with
  | Value _ v => Ok v
  | Var _ name =>
      match symbol_table_nlookup tab name with
      | Some (_, v) => Ok v
      | None => Err
      end
  | Unop AST_CAST vt child =>
      v <- ast_evaluate tab child ;;
      value_cast vt v
  | Unop AST_UADD vt child =>
      v <- ast_evaluate tab child ;;
      value_cast vt v
  | Unop nt vt child =>
      v <- ast_evaluate tab child ;;
      out <- apply_unary nt v ;;
      value_cast vt out
  | Binop AST_AND_COND vt l r =>
      lv <- ast_evaluate tab l ;;
      if value_is_zero lv =? 1 then value_cast vt (truth false)
      else rv <- ast_evaluate tab r ;;
           value_cast vt (truth (negb (value_is_zero rv =? 1)))
  | Binop AST_OR_COND vt l r =>
      lv <- ast_evaluate tab l ;;
      if negb (value_is_zero lv =? 1) then value_cast vt (truth true)
      else rv <- ast_evaluate tab r ;;
           value_cast vt (truth (negb (value_is_zero rv =? 1)))
  | Binop nt vt l r =>
      lv <- ast_evaluate tab l ;;
      rv <- ast_evaluate tab r ;;
      out <- (if value_type_eqb (type lv) (type rv) then apply_binary nt lv rv
              else
                let target :=
                  if is_relational nt then HIGHER_TYPE (type lv) (type rv)
                  else vt in
                lv' <- value_cast target lv ;;
                rv' <- value_cast target rv ;;
                apply_binary nt lv' rv') ;;
      value_cast vt out
  end.

(* ===================================================================== *)
(** ** opt.c: constant folding *)
(* ===================================================================== *)

(** [struct value value; if (ast_evaluate(ast, &value)) { ast_delete(ast);
    ast = ast_value_new(&value); }]: a node whose evaluation fails is kept;
    an evaluation without a defined result leaves the optimizer without
    one. *)
Definition fold_constant (tab : symbol_table) (node : ast) : result ast :=
  match ast_evaluate tab node with
  | Ok value => Ok (ast_value_new value)
  | Err => Ok node
  | Undef => Undef
  end.

(** opt.c, ast_value_optimize, ast_var_optimize, ast_unop_optimize and
    ast_binop_optimize, dispatched on the node type by [ast_optimize]; the
    unary plus of parse.c goes with the other unary nodes.  Allocation is
    taken to succeed.  ast_var_new (ast.c) gives the copy of a variable the
    type of its symbol. *)
Fixpoint ast_optimize (tab : symbol_table) (this : ast) : result ast :=
  match this with
  | Value vt v => Ok (set_value_type vt (ast_value_new v))
  | Var _ name =>
      match symbol_table_nlookup tab name with
      | Some (sym_name, sym_value) => Ok (Var (type sym_value) sym_name)
      | None => Undef
      end
  | Unop nt vt c =>
      child <- ast_optimize tab c ;;
      let node := set_value_type vt (ast_unop_new nt vt child) in
      if ast_is_constant child then fold_constant tab node else Ok node
  | Binop nt vt l r =>
      lhs <- ast_optimize tab l ;;
      rhs <- ast_optimize tab r ;;
      let node := set_value_type vt (ast_binop_new nt vt lhs rhs) in
      if ast_is_constant lhs && ast_is_constant rhs
      then fold_constant tab node else Ok node
  end.

(** No variable occurs in the tree (this parser builds no dereference). *)
Fixpoint ast_closed (t : ast) : bool :=
  match t with
  | Value _ _ => true
  | Var _ _ => false
  | Unop _ _ c => ast_closed c
  | Binop _ _ l r => ast_closed l && ast_closed r
  end.

(* ===================================================================== *)
(** ** cli.c: accept_value *)
(* ===================================================================== *)

(** cli.c, accept_value, from the tree the parser returned to the tree
    that is evaluated:
[[
    if (ast->node_type == AST_CAST && (ast->value_type & PTR)) {
        cast = ast;  ast = ((struct ast_unary * )ast)->child;  free(cast);
    }
    if (ast->value_type != value_type) { ... ast_cast_new(value_type, ast) ... }
]]
    (allocation is taken to succeed). *)
Definition strip_pointer_cast (ast0 : ast) : ast :=
  match ast0 with
  | Unop AST_CAST vt child => if is_PTR vt then child else ast0
  | _ => ast0
  end.

Definition accept_value_tree (value_type : value_type) (ast0 : ast) : ast :=
  let ast1 := strip_pointer_cast ast0 in
  if negb (value_type_eqb (ast_value_type ast1) value_type)
  then ast_cast_new value_type ast1
  else ast1.

(** cli.c, accept_value, after the item was cut out of the line: [parsed]
    is what parse_expression returned for it (NULL is [None]); the result
    is the value written to [out], [Err] where the function returns 0. *)
Definition accept_value (tab : symbol_table) (parsed : option ast)
  (value_type : value_type) : result value :=
  match parsed with
  | Some ast0 => ast_evaluate tab (accept_value_tree value_type ast0)
  | None => Err
  end.

(* ===================================================================== *)
(** ** ramfuck.h: the context and the break lease *)
(* ===================================================================== *)

(** The fields of [struct ramfuck] the commands below touch: whether a
    target is attached, [breaks], and the state of the target with the
    outcome its [stop] and [run] methods will have. *)
Record ramfuck : Type := mk_ramfuck {
  attached : bool;
  stop_works : bool;
  run_works : bool;
  running : bool;
  breaks : nat
}.

(** Modelled from the spec: ramfuck.c (ramfuck_break, ramfuck_continue) is
    not under src/.  A break lease suspends the target when it was running
    and counts the nesting; only the outermost release resumes the target.
    A lease that could not suspend the target is not counted, and a release
    without a lease does nothing. *)
Definition ramfuck_break (ctx : ramfuck) : bool * ramfuck :=
  match breaks ctx with
  | O =>
      if attached ctx && stop_works ctx
      then (true, mk_ramfuck (attached ctx) (stop_works ctx) (run_works ctx)
                    false 1)
      else (false, ctx)
  | S n =>
      (true, mk_ramfuck (attached ctx) (stop_works ctx) (run_works ctx)
               (running ctx) (S (S n)))
  end.

Definition ramfuck_continue (ctx : ramfuck) : bool * ramfuck :=
  match breaks ctx with
  | O => (false, ctx)
  | S O =>
      (run_works ctx,
       mk_ramfuck (attached ctx) (stop_works ctx) (run_works ctx)
         (run_works ctx) 0)
  | S n =>
      (true, mk_ramfuck (attached ctx) (stop_works ctx) (run_works ctx)
               (running ctx) n)
  end.

(** [if (parser.has_deref) ramfuck_break(ctx);] and its release. *)
Definition break_if (has_deref : bool) (ctx : ramfuck) : ramfuck :=
  if has_deref then snd (ramfuck_break ctx) else ctx.

Definition continue_if (has_deref : bool) (ctx : ramfuck) : ramfuck :=
  if has_deref then snd (ramfuck_continue ctx) else ctx.

(* ===================================================================== *)
(** ** cli.c: the commands *)
(* ===================================================================== *)

(** What a command learns from the parser of cli.c (parse.h of that
    version is not under src/): whether a tree came back, the error count
    and [has_deref]. *)
Record parsed : Type := mk_parsed {
  tree : bool;
  parse_errors : nat;
  has_deref : bool
}.

(** cli.c, do_eval.  [ok] is the result of ast_evaluate. *)
Definition do_eval (ctx : ramfuck) (parser : parsed) (ok : bool)
  : ramfuck * Z :=
  if tree parser then
    let ctx1 := break_if (has_deref parser) ctx in
    (* ok = ast_evaluate(ast, &out); *)
    let ctx2 := continue_if (has_deref parser) ctx1 in
    (ctx2, if (0 <? parse_errors parser)%nat then 1
           else if ok then 0 else 2)
  else (ctx, 1).

(** The outcomes of the steps of do_explain. *)
Record explain_steps : Type := mk_explain {
  ex_eol : bool;
  ex_symtab : bool;
  ex_parser : parsed;
  ex_evaluate : bool;
  ex_optimize : bool;
  ex_evaluate_opt : bool;
  ex_same_type : bool;
  ex_same_data : bool
}.

(** cli.c, do_explain *)
Definition do_explain (ctx : ramfuck) (s : explain_steps) : ramfuck * Z :=
  if ex_eol s then (ctx, 1)
  else if negb (ex_symtab s) then (ctx, 2)
  else if negb (tree (ex_parser s)) then (ctx, 3)
  else
    let ctx1 := break_if (has_deref (ex_parser s)) ctx in
    let rc :=
      if ex_evaluate s then
        if ex_optimize s then
          if ex_evaluate_opt s then
            if ex_same_type s then
              if ex_same_data s then 0 else 8
            else 7
          else 6
        else 5
      else 4 in
    let ctx2 := continue_if (has_deref (ex_parser s)) ctx1 in
    (ctx2, rc).

(** cli.c, do_list.  [hits] is the number of hits; the loop over them only
    reads the target and prints. *)
Definition do_list (ctx : ramfuck) (trailing : bool) (hits : nat)
  : ramfuck * Z :=
  if trailing then (ctx, 1)
  else if (hits =? 0)%nat then (ctx, 0)
  else
    let ctx1 := snd (ramfuck_break ctx) in
    let ctx2 := snd (ramfuck_continue ctx1) in
    (ctx2, 0).

(** The outcomes of the steps of do_poke, in the order of the source. *)
Record poke_steps : Type := mk_poke {
  pk_eol : bool;
  pk_type : bool;
  pk_eol_after_type : bool;
  pk_addr : bool;
  pk_index : bool;
  pk_hits : bool;
  pk_index_in_range : bool;
  pk_eol_before_value : bool;
  pk_symbols : bool;
  pk_symtab : bool;
  pk_uses_value : bool;
  pk_read : bool;
  pk_parser : parsed;
  pk_cast : bool;
  pk_evaluate : bool;
  pk_write : bool
}.

(** cli.c, do_poke.  accept_type, accept_addr and accept_sint take no
    lease; ramfuck_read and ramfuck_write (ramfuck.c) leave [breaks] as
    they found it. *)
Definition do_poke (ctx : ramfuck) (s : poke_steps) : ramfuck * Z :=
  if pk_eol s then (ctx, 1)
  else if negb (attached ctx) then (ctx, 2)
  else if pk_type s && pk_eol_after_type s then (ctx, 3)
  else if pk_type s && negb (pk_addr s) then (ctx, 4)
  else if negb (pk_type s) && negb (pk_index s) then (ctx, 5)
  else if negb (pk_type s) && negb (pk_hits s) then (ctx, 6)
  else if negb (pk_type s) && negb (pk_index_in_range s) then (ctx, 7)
  else if pk_eol_before_value s then (ctx, 8)
  else if pk_symbols s && negb (pk_symtab s) then (ctx, 9)
  else if pk_symbols s && pk_uses_value s && negb (pk_read s) then (ctx, 10)
  else if negb (tree (pk_parser s)) then (ctx, 11)
  else if negb (pk_cast s) then (ctx, 12)
  else
    let ctx1 := break_if (has_deref (pk_parser s)) ctx in
    (* ok = ast_evaluate(ast, &out); *)
    let ctx2 := continue_if (has_deref (pk_parser s)) ctx1 in
    if negb (pk_evaluate s) then (ctx2, 13)
    else if negb (pk_write s) then (ctx2, 14)
    else (ctx2, 0).

(** Modelled from the spec: search.c (search, filter) is not under src/.
    A pass suspends the target, sweeps the regions or the hit list, and
    resumes the target; a pass that is cancelled or fails gives no hit list
    and releases the lease all the same.  [pass] is whether a list came
    back. *)
Definition search (ctx : ramfuck) (pass : bool) : ramfuck * bool :=
  let ctx1 := snd (ramfuck_break ctx) in
  let ctx2 := snd (ramfuck_continue ctx1) in
  (ctx2, pass).

Definition filter (ctx : ramfuck) (pass : bool) : ramfuck * bool :=
  let ctx1 := snd (ramfuck_break ctx) in
  let ctx2 := snd (ramfuck_continue ctx1) in
  (ctx2, pass).

(** cli.c, do_search *)
Definition do_search (ctx : ramfuck) (eol : bool) (pass : bool) : ramfuck * Z :=
  if eol then (ctx, 1)
  else if negb (attached ctx) then (ctx, 2)
  else
    let '(ctx1, hits) := search ctx pass in
    if negb hits then (ctx1, 3) else (ctx1, 0).

(** cli.c, do_filter.  [narrowed] is whether the list that came back is
    another one than [ctx->hits]. *)
Definition do_filter (ctx : ramfuck) (eol : bool) (hits : nat)
  (narrowed : bool) : ramfuck * Z :=
  if eol then (ctx, 1)
  else if (hits =? 0)%nat then (ctx, 2)
  else
    let '(ctx1, changed) := filter ctx narrowed in
    if negb changed then (ctx1, 3) else (ctx1, 0).

(** The core commands with what each run meets. *)
Inductive command : Type :=
| Eval (parser : parsed) (ok : bool)
| Explain (s : explain_steps)
| Poke (s : poke_steps)
| ListHits (trailing : bool) (hits : nat)
| Scan (eol : bool) (pass : bool)
| Filter (eol : bool) (hits : nat) (narrowed : bool).

Definition execute (ctx : ramfuck) (c : command) : ramfuck * Z :=
  match c with
  | Eval parser ok => do_eval ctx parser ok
  | Explain s => do_explain ctx s
  | Poke s => do_poke ctx s
  | ListHits trailing hits => do_list ctx trailing hits
  | Scan eol pass => do_search ctx eol pass
  | Filter eol hits narrowed => do_filter ctx eol hits narrowed
  end.

Fixpoint execute_all (ctx : ramfuck) (cs : list command) : ramfuck :=
  match cs with
  | [] => ctx
  | c :: rest => execute_all (fst (execute ctx c)) rest
  end.

(* ===================================================================== *)
(** ** cli.c: reading the command line *)
(* ===================================================================== *)

(** A line of input is the characters before its terminating NUL.
    [isspace] of ctype.h in the C locale: the space and the characters
    9 to 13 (tab, line feed, vertical tab, form feed, carriage return). *)
Definition isspace (c : ascii) : bool :=
  let n := nat_of_ascii c in
  (n =? 32)%nat || ((9 <=? n)%nat && (n <=? 13)%nat).

(** cli.c, skip_spaces *)
Fixpoint skip_spaces (input : list ascii) : list ascii :=
  match input with
  | c :: rest => if isspace c then skip_spaces rest else input
  | [] => []
  end.

(** cli.c, accept (named apart from accept of parse.c): the word [what],
    followed by the end of the line or by a space.  [None] is 0; otherwise
    the input left after the word and the spaces behind it. *)
Fixpoint cli_accept (input what : list ascii) {struct what}
  : option (list ascii) :=
  match what with
  | [] =>
      match input with
      | [] => Some (skip_spaces input)
      | c :: _ => if isspace c then Some (skip_spaces input) else None
      end
  | w :: what' =>
      match input with
      | c :: input' => if Ascii.eqb w c then cli_accept input' what' else None
      | [] => None
      end
  end.

(** [( **pend == '(') - ( **pend == ')')] *)
Definition paren_step (c : ascii) : Z :=
  (if Ascii.eqb c "(" then 1 else 0) - (if Ascii.eqb c ")" then 1 else 0).

(** cli.c, eat_item, the loop: the number of characters passed, the final
    [depth] and [unwrap], and the input at [*pend].  [at_pin] is
    [*pend == *pin].  (An [int] depth does not overflow on a line shorter
    than 2^31 characters.) *)
Fixpoint eat_item_loop (input : list ascii) (at_pin : bool) (depth : Z)
  (unwrap : bool) : nat * Z * bool * list ascii :=
  match input with
  | [] => (O, depth, unwrap, [])
  | c :: rest =>
      if negb (depth =? 0) || negb (isspace c) then
        let unwrap' :=
          if unwrap && (depth =? 0) && negb at_pin then false else unwrap in
        let '(n, d, u, pend) :=
          eat_item_loop rest false (depth + paren_step c) unwrap' in
        (S n, d, u, pend)
      else (O, depth, unwrap, input)
  end.

(** cli.c, eat_item: the item between [*pstart] and [*pend] and the input
    left; [None] is 0. *)
Definition eat_item (input : list ascii) : option (list ascii * list ascii) :=
  let unwrap0 :=
    match input with
    | c :: _ => Ascii.eqb c "("
    | [] => false
    end in
  let '(n, depth, unwrap, pend) := eat_item_loop input true 0 unwrap0 in
  if negb (depth =? 0) then None
  else
    let item :=
      if unwrap then firstn (n - 2) (skipn 1 input) else firstn n input in
    Some (item, skip_spaces pend).

(** cli.c, human_readable_size, the first loop: [p] walks the suffixes. *)
Fixpoint human_loop (p : list ascii) (bytes : Z) : list ascii * Z :=
  match p with
  | c :: p' =>
      if negb (Ascii.eqb c "?") && (1024 <? bytes)
      then human_loop p' (bytes / 1024) else (p, bytes)
  | [] => (p, bytes)
  end.

(** [while (bytes > 1024) bytes /= 1024;] ends within 64 steps on a
    [size_t] of 64 bits. *)
Fixpoint human_rest (steps : nat) (bytes : Z) : Z :=
  match steps with
  | O => bytes
  | S steps' => if 1024 <? bytes then human_rest steps' (bytes / 1024) else bytes
  end.

(** cli.c, human_readable_size: [*size] and [*suffix]. *)
Definition human_readable_size (bytes : Z) : Z * ascii :=
  let '(p, bytes1) :=
    human_loop (list_ascii_of_string "BKMGTPEZ?") bytes in
  (human_rest 64 bytes1, hd NUL p).

(** cli.c, do_peek and do_poke, the hit a signed index names:
[[
    index = (index0 < 0) ? index0 + ctx->hits->size : index0 - 1;
    if (!(0 <= index && index < ctx->hits->size)) { errf(...); return 6; }
]]
    [index0] and [index] are [intmax_t], [size] is a [size_t]; the sum is
    taken in the unsigned type and converted back.  With no hits the
    commands have returned before. *)
Definition hit_index (index0 size : Z) : option Z :=
  if size =? 0 then None
  else
    let index :=
      if index0 <? 0 then signed 64 (wrap 64 (index0 + size))
      else index0 - 1 in
    if (0 <=? index) && (index <? size) then Some index else None.

(** The fields of [struct region] that do_attach reads. *)
Record region : Type := mk_region { region_start : Z; region_size : Z }.

Definition UINT32_MAX : Z := 2 ^ 32 - 1.

(** [(mr->start + mr->size-1) > UINT32_MAX], in 64-bit addresses
    (ADDR_BITS is 64). *)
Definition region_above_4g (mr : region) : bool :=
  UINT32_MAX <? wrap 64 (region_start mr + region_size mr - 1).

(** cli.c, do_attach, the first loop over the regions of the target:
    what is left at the [break], and [regions] and [size], both
    [size_t]. *)
Fixpoint attach_low_regions (mrs : list region) (regions size : Z)
  : list region * Z * Z :=
  match mrs with
  | [] => ([], regions, size)
  | mr :: rest =>
      if region_above_4g mr then (mrs, regions, size)
      else attach_low_regions rest (wrap 64 (regions + 1))
             (wrap 64 (size + region_size mr))
  end.

(** [do { size += mr->size; regions++; } while ((mr = region_next(mr)));] *)
Fixpoint attach_other_regions (mrs : list region) (regions size : Z) : Z * Z :=
  match mrs with
  | [] => (regions, size)
  | mr :: rest =>
      attach_other_regions rest (wrap 64 (regions + 1))
        (wrap 64 (size + region_size mr))
  end.

(** [regions], [size] and [ctx->addr_size] after the loops of do_attach. *)
Definition attach_regions (mrs : list region) : Z * Z * Z :=
  let '(mr, regions, size) := attach_low_regions mrs 0 0 in
  match mr with
  | [] => (regions, size, 4)
  | _ :: _ =>
      let '(regions', size') := attach_other_regions mr regions size in
      (regions', size', 8)
  end.

(* ===================================================================== *)
(** ** ast.c: printing a tree *)
(* ===================================================================== *)

(** value.c, value_type_to_string, on the tags of [value_type]; the cases
    "sint", "uint" and "fpu" are for the family bits alone, which no value
    or node carries here, and a pointer tag takes the default. *)
Definition value_type_to_string (t : value_type) : list ascii :=
  list_ascii_of_string (scalar_type_name t).

(** [snprintf(out, size, ...)] for a conversion that gives [text]; [mem] is
    the [size] bytes at [out] (none for [snprintf(NULL, 0, ...)]).  The
    result is the length of the whole text and the bytes after the call:
    as much of the text as fits before a terminating NUL. *)
Definition c_snprintf (text mem : list ascii) : nat * list ascii :=
  (List.length text,
   match mem with
   | [] => []
   | _ :: _ =>
       let stored := firstn (List.length mem - 1) text in
       stored ++ NUL :: skipn (S (List.length stored)) mem
   end).

(** The conversions [%ld] and [%lu] of a [long]. *)
Definition format_long (z : Z) : list ascii :=
  list_ascii_of_string (NilZero.string_of_int (Z.to_int z)).

Section Printing.
(** The conversion [%g] of a [double] is left to the C library. *)
Variable format_g : spec_float -> list ascii.

(** value.c, value_to_string: every case is one [snprintf(out, size, ...)]
    of the member of the value's own type, as a [long], an [unsigned long]
    or a [double]; [value_text] is the text of that conversion. *)
Definition value_text (v : value) : list ascii :=
  let bits := data v mod 2 ^ value_type_bits (type v) in
  match type v with
  | S8 | S16 | S32 | S64 =>
      format_long (signed (value_type_bits (type v)) bits)
  | U8 | U16 | U32 | U64 => format_long bits
  | F32 => format_g (f32_of_bits bits)
  | F64 => format_g (f64_of_bits bits)
  | _ => list_ascii_of_string "???"
  end.

(** value.c, value_to_string *)
Definition value_to_string (v : value) (mem : list ascii)
  : nat * list ascii :=
  c_snprintf (value_text v) mem.

(** A function that prints at [out] into [size] bytes and returns a length;
    [None] where ast.c has no function for the node. *)
Definition printer : Type := list ascii -> option (nat * list ascii).

(** The step every printing function of ast.c repeats:
[[
    if (size && len < size-1) len += f(out+len, size-len);
    else len += f(NULL, 0);
]]
    on the pair of [len] and the bytes at [out]. *)
Definition guarded (f : printer) (state : nat * list ascii)
  : option (nat * list ascii) :=
  let '(len, mem) := state in
  let size := List.length mem in
  if negb (size =? 0)%nat && (len <? size - 1)%nat then
    match f (skipn len mem) with
    | Some (l, sub) => Some ((len + l)%nat, firstn len mem ++ sub)
    | None => None
    end
  else
    match f [] with
    | Some (l, _) => Some ((len + l)%nat, mem)
    | None => None
    end.

(** The same step after an earlier one. *)
Definition then_guarded (f : printer) (state : option (nat * list ascii))
  : option (nat * list ascii) :=
  match state with
  | Some s => guarded f s
  | None => None
  end.

(** [snprintf(out, size, text)] as a printing function. *)
Definition print_text (text : string) : printer :=
  fun mem => Some (c_snprintf (list_ascii_of_string text) mem).

(** The operator ast_snprint_funcs gives a unary node type (AST_NEG of
    ast.c is the negation; the table has no unary plus). *)
Definition unary_operator (nt : ast_type) : option string :=
  match nt with
  | AST_USUB => Some "u-"%string
  | AST_NOT => Some "!"%string
  | AST_COMPL => Some "~"%string
  | _ => None
  end.

(** The operator ast_snprint_funcs gives a binary node type. *)
Definition binary_operator (nt : ast_type) : option string :=
  match nt with
  | AST_ADD => Some "+" | AST_SUB => Some "-" | AST_MUL => Some "*"
  | AST_DIV => Some "/" | AST_MOD => Some "%" | AST_AND => Some "&"
  | AST_XOR => Some "^" | AST_OR => Some "|" | AST_SHL => Some "<<"
  | AST_SHR => Some ">>" | AST_EQ => Some "==" | AST_NEQ => Some "!="
  | AST_LT => Some "<" | AST_GT => Some ">" | AST_LE => Some "<="
  | AST_GE => Some ">=" | AST_AND_COND => Some "&&"
  | AST_OR_COND => Some "||"
  | _ => None
  end%string.

(** ast.c, ast_snprint: ast_value_snprint, ast_var_snprint,
    ast_cast_snprint, ast_unary_snprint and ast_binary_snprint, dispatched
    on the node type. *)
Fixpoint ast_snprint (this : ast) (mem : list ascii)
  : option (nat * list ascii) :=
  match this with
  | Value vt v =>
      then_guarded (fun m => Some (value_to_string v m))
        (guarded
           (fun m => Some (c_snprintf
                             ("("%char :: value_type_to_string vt ++ [")"%char])
                             m))
           (O, mem))
  | Var vt name =>
      Some (c_snprintf
              ("("%char :: value_type_to_string vt ++ ")"%char
               :: list_ascii_of_string name) mem)
  | Unop AST_CAST vt child =>
      then_guarded
        (fun m => Some (c_snprintf
                          (" "%char :: "("%char :: value_type_to_string vt
                           ++ [")"%char]) m))
        (guarded (ast_snprint child) (O, mem))
  | Unop nt _ child =>
      match unary_operator nt with
      | Some op =>
          then_guarded (print_text (String " " op))
            (guarded (ast_snprint child) (O, mem))
      | None => None
      end
  | Binop nt _ lhs rhs =>
      match binary_operator nt with
      | Some op =>
          then_guarded (print_text (String " " op))
            (then_guarded (ast_snprint rhs)
               (then_guarded (print_text " ")
                  (guarded (ast_snprint lhs) (O, mem))))
      | None => None
      end
  end.
End Printing.

(** ast.c, ast_print: what is written to stdout.  [buf] is the array of
    BUFSIZ bytes and [heap n] the [n] bytes malloc returns, both with the
    bytes they happen to hold; [None] is one of the two error messages. *)
Definition ast_print (format_g : spec_float -> list ascii) (this : ast)
  (buf : list ascii) (heap : nat -> list ascii) : option (list ascii) :=
  match ast_snprint format_g this buf with
  | Some (len, buf') =>
      if (len <? List.length buf)%nat then Some (firstn len buf')
      else
        match ast_snprint format_g this (heap (S len)) with
        | Some (len', p) =>
            if (len' =? len)%nat then Some (firstn len p) else None
        | None => None
        end
  | None => None
  end.

(* ===================================================================== *)
(** ** mem.c: the regions of /proc/pid/maps *)
(* ===================================================================== *)

(** What one call of fscanf in mem_region_iter_next assigns from a line of
    /proc/pid/maps: the two addresses, the four permission characters and
    the path (empty when the line has none). *)
Record maps_line : Type := mk_maps_line {
  line_start : Z;
  line_end : Z;
  line_perms : ascii * ascii * ascii * ascii;
  line_path : string
}.

(** The file from the position of the stream on: one entry per call of
    fscanf, [None] where it converts fewer than six fields; past the last
    entry it returns EOF. *)
Definition maps_file : Type := list (option maps_line).

(** [struct mem_region]; [prot] is kept as its three bits MEM_READ,
    MEM_WRITE and MEM_EXECUTE. *)
Record mem_region : Type := mk_mem_region {
  mr_start : Z;
  mr_size : Z;
  mr_read : bool;
  mr_write : bool;
  mr_execute : bool;
  mr_path : string
}.

(** mem.c, mem_region_iter_next, the fields it stores after fscanf. *)
Definition region_of_line (l : maps_line) : mem_region :=
  let '(p0, p1, p2, _) := line_perms l in
  mk_mem_region (line_start l) (wrap 64 (line_end l - line_start l))
    (Ascii.eqb p0 "r") (Ascii.eqb p1 "w") (Ascii.eqb p2 "x") (line_path l).

(** [struct mem_region_iter]: the region read last and the stream; [None]
    is NULL. *)
Definition mem_region_iter : Type := (option mem_region * maps_file)%type.

(** mem.c, mem_region_iter_next: on [n < 6] the stream is closed, the
    iterator freed and NULL returned. *)
Definition mem_region_iter_next (it : option mem_region_iter)
  : option mem_region_iter :=
  match it with
  | Some (_, Some l :: rest) => Some (Some (region_of_line l), rest)
  | _ => None
  end.

(** mem.c, mem_region_iter_first: [file] is what fopen gives, [None] when
    it fails; a new iterator holds no region yet. *)
Definition mem_region_iter_first (file : option maps_file)
  : option mem_region_iter :=
  match file with
  | Some stream => mem_region_iter_next (Some (None, stream))
  | None => None
  end.

(** [it->start <= addr && addr < it->start + it->size] *)
Definition region_contains (r : mem_region) (addr : Z) : bool :=
  (mr_start r <=? addr) && (addr <? wrap 64 (mr_start r + mr_size r)).

(** mem.c, mem_region_find_addr, the loop
    [while ((it = mem_region_iter_next(it))) { if (...) break; }];
    every turn reads a line, so it ends within the lines of the file. *)
Fixpoint find_addr_loop (turns : nat) (it : option mem_region_iter)
  (addr : Z) : option mem_region :=
  match turns with
  | O => None
  | S turns' =>
      match mem_region_iter_next it with
      | Some (Some r, stream) =>
          if region_contains r addr then Some r
          else find_addr_loop turns' (Some (Some r, stream)) addr
      | _ => None
      end
  end.

(** mem.c, mem_region_find_addr *)
Definition mem_region_find_addr (file : option maps_file) (addr : Z)
  : option mem_region :=
  let it := mem_region_iter_first file in
  find_addr_loop
    (S (match file with Some stream => List.length stream | None => O end))
    it addr.

(* ===================================================================== *)
(** * The vocabulary of the statements *)
(* ===================================================================== *)

(** The nonempty prefixes of a name. *)
Fixpoint nonempty_prefixes (name : string) : list string :=
  match name with
  | EmptyString => []
  | String c rest => String c "" :: map (String c) (nonempty_prefixes rest)
  end.

(** The line [(s3)x]. *)
Definition line_s3_x : list lexeme :=
  [Lexed (token LEX_LEFT_PARENTHESE); Lexed (tok_identifier "s3");
   Lexed (token LEX_RIGHT_PARENTHESE); Lexed (tok_identifier "x")].

(** The line [1 / 0] and the tree parse.c builds for it. *)
Definition line_1_div_0 : list lexeme :=
  [Lexed (tok_integer 1); Lexed (token LEX_DIV); Lexed (tok_integer 0)].

Definition tree_1_div_0 : ast :=
  Binop AST_DIV S32 (ast_int_new 1) (ast_int_new 0).

(** 5.0 as a double, and a double close to 5.0 whose two 32-bit halves hold
    the same bits, so that its [s32] member is the same on every host. *)
Definition double_5 : value := mk_value F64 0x4014000000000000.
Definition double_5_halves : value := mk_value F64 0x4014000140140001.
Definition float_5 : value := mk_value F32 0x40A00000.

(** The rule of the spec for the result type of a binary node: an
    arithmetic node over numeric operands has the higher of the operand
    types, a relational or equality node has s32. *)
Definition typing_rule (nt : ast_type) (vt l r : value_type) : bool :=
  if is_arithmetic nt then
    value_type_eqb vt (HIGHER_TYPE l r) && is_INT_or_FPU l && is_INT_or_FPU r
  else if is_relational nt then
    value_type_eqb vt S32 && is_INT_or_FPU l && is_INT_or_FPU r
  else true.

Fixpoint follows_typing_rule (t : ast) : bool :=
  match t with
  | Value _ _ | Var _ _ => true
  | Unop _ _ child => follows_typing_rule child
  | Binop nt vt l r =>
      typing_rule nt vt (ast_value_type l) (ast_value_type r)
      && follows_typing_rule l && follows_typing_rule r
  end.

(** Every tree a production returns follows the rule. *)
Definition ruled (f : parser -> presult) : Prop :=
  forall p r p', f p = Some (Some r, p') -> follows_typing_rule r = true.

(** The operand [(T)1] and the line [(A)1 op (B)1]. *)
Definition typed_one (t : value_type) : list lexeme :=
  [Lexed (token LEX_LEFT_PARENTHESE);
   Lexed (tok_identifier (scalar_type_name t));
   Lexed (token LEX_RIGHT_PARENTHESE); Lexed (tok_integer 1)].

Definition typed_line (a : value_type) (op : lex_token_type) (b : value_type)
  : list lexeme :=
  typed_one a ++ [Lexed (token op)] ++ typed_one b.

Definition typed_tree (a : value_type) (op : lex_token_type) (b : value_type)
  (vt : value_type) : ast :=
  Binop (lex_to_ast_type op) vt
    (ast_cast_new a (ast_int_new 1)) (ast_cast_new b (ast_int_new 1)).

Definition integer_types : list value_type :=
  [S8; U8; S16; U16; S32; U32; S64; U64].

(** No subtree has an evaluation without a defined result. *)
Fixpoint defined_everywhere (tab : symbol_table) (t : ast) : bool :=
  match ast_evaluate tab t with
  | Undef => false
  | _ =>
      match t with
      | Value _ _ | Var _ _ => true
      | Unop _ _ c => defined_everywhere tab c
      | Binop _ _ l r => defined_everywhere tab l && defined_everywhere tab r
      end
  end.



(** The line [1 + 2 * 3] and its tree. *)
Definition line_1_add_2_mul_3 : list lexeme :=
  [Lexed (tok_integer 1); Lexed (token LEX_ADD); Lexed (tok_integer 2);
   Lexed (token LEX_MUL); Lexed (tok_integer 3)].

Definition tree_1_add_2_mul_3 : ast :=
  Binop AST_ADD S32 (ast_int_new 1)
    (Binop AST_MUL S32 (ast_int_new 2) (ast_int_new 3)).

(** The lines [-(s8)1] and [-(f32)1] and their trees. *)
Definition line_neg (t : value_type) : list lexeme :=
  Lexed (token LEX_SUB) :: typed_one t.

Definition tree_neg (t : value_type) : ast :=
  Unop AST_USUB t (ast_cast_new t (ast_int_new 1)).

(** The tokens the parser has not accepted yet: the look-ahead, unless it is
    the end of the line, and the rest of the line. *)
Definition tokens_left (p : parser) : nat :=
  (List.length (input p)
   + if lex_token_type_eqb (ltype (symbol p)) LEX_EOL then 0 else 1)%nat.

(** A production returns at [p] and does not give tokens back. *)
Definition returns_at (f : parser -> presult) (p : parser) : Prop :=
  exists r p', f p = Some (r, p') /\ (tokens_left p' <= tokens_left p)%nat.

(** The number an integer value stands for: its stored bits read with the
    signedness of its tag. *)
Definition int_value (v : value) : Z :=
  if is_signed (type v) then signed (value_type_bits (type v)) (data v)
  else data v.

(** The stored bits fit the width of the tag. *)
Definition fits_tag (v : value) : Prop :=
  0 <= data v < 2 ^ value_type_bits (type v).

(** The least and the greatest number of an integer type. *)
Definition int_min (t : value_type) : Z :=
  if is_signed t then - 2 ^ (value_type_bits t - 1) else 0.

Definition int_max (t : value_type) : Z :=
  if is_signed t then 2 ^ (value_type_bits t - 1) - 1
  else 2 ^ value_type_bits t - 1.

(** The integer types with operators of their own in value.c, and those
    whose rows hold the promoting handlers. *)
Definition wide_integer_types : list value_type := [S32; U32; S64; U64].
Definition narrow_integer_types : list value_type := [S8; U8; S16; U16].

(** The bits of a double are a NaN: exponent all ones, fraction not zero. *)
Definition is_nan_bits (bits : Z) : bool :=
  ((bits / 2 ^ 52) mod 2 ^ 11 =? 2047) && negb (bits mod 2 ^ 52 =? 0).

Definition double_nan : value := mk_value F64 0x7FF8000000000000.

(** The checks of parse.c, node by node.  A cast names a scalar type; unary
    plus and minus keep the type of a numeric operand, [!] and [~] that of
    an integer operand; [*], [/], [+] and [-] give the higher type of two
    numeric operands, [%], [&], [^] and [|] that of two integer operands;
    a shift keeps the type of its left operand, both being integers; a
    comparison of numeric operands and [&&], [||] give s32. *)
Definition is_scalar (t : value_type) : bool := negb (is_PTR t).

Definition unary_rule (nt : ast_type) (vt c : value_type) : bool :=
  match nt with
  | AST_CAST => is_scalar vt
  | AST_UADD | AST_USUB => value_type_eqb vt c && is_INT_or_FPU c
  | AST_NOT | AST_COMPL => value_type_eqb vt c && is_INT c
  | _ => false
  end.

Definition binary_rule (nt : ast_type) (vt l r : value_type) : bool :=
  match nt with
  | AST_ADD | AST_SUB | AST_MUL | AST_DIV =>
      value_type_eqb vt (HIGHER_TYPE l r) && is_INT_or_FPU l && is_INT_or_FPU r
  | AST_MOD | AST_AND | AST_XOR | AST_OR =>
      value_type_eqb vt (HIGHER_TYPE l r) && is_INT l && is_INT r
  | AST_SHL | AST_SHR => value_type_eqb vt l && is_INT l && is_INT r
  | AST_EQ | AST_NEQ | AST_LT | AST_GT | AST_LE | AST_GE =>
      value_type_eqb vt S32 && is_INT_or_FPU l && is_INT_or_FPU r
  | AST_AND_COND | AST_OR_COND => value_type_eqb vt S32
  | _ => false
  end.

(** A variable node names a symbol of the table and has its type. *)
Definition variable_rule (tab : option symbol_table) (vt : value_type)
  (name : string) : bool :=
  match tab with
  | Some symbols =>
      match symbol_table_nlookup symbols name with
      | Some (n, v) => String.eqb n name && value_type_eqb vt (type v)
      | None => false
      end
  | None => false
  end.

(** A variable at the root has the type of its symbol, the type ast_var_new
    gave the node. *)
Definition root_has_symbol_type (tab : symbol_table) (t : ast) : bool :=
  match t with
  | Var vt name => variable_rule (Some tab) vt name
  | _ => true
  end.

(** Every node of the tree passes the check of its kind; a literal has the
    type of its value, one of the three literal types. *)
Fixpoint well_typed (tab : option symbol_table) (t : ast) : bool :=
  match t with
  | Value vt v =>
      value_type_eqb vt (type v)
      && (value_type_eqb vt S32 || value_type_eqb vt U32 || value_type_eqb vt F64)
  | Var vt name => variable_rule tab vt name
  | Unop nt vt c => unary_rule nt vt (ast_value_type c) && well_typed tab c
  | Binop nt vt l r =>
      binary_rule nt vt (ast_value_type l) (ast_value_type r)
      && well_typed tab l && well_typed tab r
  end.

(** The nodes of a tree, each with the tree below it. *)
Fixpoint subtrees (t : ast) : list ast :=
  t :: match t with
       | Unop _ _ c => subtrees c
       | Binop _ _ l r => subtrees l ++ subtrees r
       | _ => []
       end.

(** The lines [7 % 2] and [5.0 % 2], and the tree of the first. *)
Definition line_7_mod_2 : list lexeme :=
  [Lexed (tok_integer 7); Lexed (token LEX_MOD); Lexed (tok_integer 2)].

Definition tree_7_mod_2 : ast :=
  Binop AST_MOD S32 (ast_int_new 7) (ast_int_new 2).

Definition line_5_0_mod_2 : list lexeme :=
  [Lexed (tok_fp 0x4014000000000000); Lexed (token LEX_MOD);
   Lexed (tok_integer 2)].

(** A production keeps the symbol table and returns well-typed trees. *)
Definition typed (f : parser -> presult) : Prop :=
  forall p r p', f p = Some (Some r, p') ->
    symtab p' = symtab p /\ well_typed (symtab p) r = true.

(** The operators whose slots in the rows of f32 and f64 return the error
    code. *)
Definition is_bitwise_or_shift (nt : ast_type) : bool :=
  match nt with
  | AST_AND | AST_XOR | AST_OR | AST_SHL | AST_SHR => true
  | _ => false
  end.

(** What evaluation keeps of the declared type: no error return, and an
    integer value under a node of integer type. *)
Definition sound_result (declared : value_type) (r : result value) : Prop :=
  r <> Err /\
  forall v, r = Ok v -> is_INT declared = true -> is_INT (type v) = true.

(** The line [~x << 2] with [x] a u16 variable, and its tree. *)
Definition line_compl_x_shl_2 : list lexeme :=
  [Lexed (token LEX_COMPL); Lexed (tok_identifier "x");
   Lexed (token LEX_SHL); Lexed (tok_integer 2)].

Definition tree_compl_x_shl_2 : ast :=
  Binop AST_SHL U16 (Unop AST_COMPL U16 (Var U16 "x")) (ast_int_new 2).

Definition table_x : symbol_table := [("x"%string, mk_value U16 0xFF00)].

(** The parser looking at the tokens [line]: the first is the look-ahead,
    the others are the rest of the input. *)
Definition parser_at (line : list lex_token) (tab : option symbol_table)
  (errs : nat) (acc : lex_token) : parser :=
  mk_parser (map Lexed (tl line)) tab errs (hd (token LEX_EOL) line) acc.

Definition head_type (line : list lex_token) : lex_token_type :=
  ltype (hd (token LEX_EOL) line).

(** A chain [a0 op1 a1 op2 a2 ...] of operands of one kind, its tokens and
    the tree that nests to the left, [((a0 op1 a1) op2 a2) ...]; every
    operand here is of type s32, and so is every node. *)
Definition chain (A : Type) : Type := (A * list (lex_token_type * A))%type.

Definition chain_tokens {A : Type} (tokens : A -> list lex_token)
  (c : chain A) : list lex_token :=
  tokens (fst c)
  ++ flat_map (fun x => token (fst x) :: tokens (snd x)) (snd c).

Definition chain_tree {A : Type} (tree : A -> ast) (c : chain A) : ast :=
  fold_left (fun acc x => Binop (lex_to_ast_type (fst x)) S32 acc (tree (snd x)))
    (snd c) (tree (fst c)).

Definition chain_operators {A : Type} (c : chain A) : list lex_token_type :=
  map fst (snd c).

(** An integer literal; a product of literals; a sum of products. *)
Definition literal_tokens (n : Z) : list lex_token := [tok_integer n].
Definition literal_tree (n : Z) : ast := set_value_type SINT (ast_int_new n).

Definition product_tokens : chain Z -> list lex_token :=
  chain_tokens literal_tokens.
Definition product_tree : chain Z -> ast := chain_tree literal_tree.

Definition sum_tokens : chain (chain Z) -> list lex_token :=
  chain_tokens product_tokens.
Definition sum_tree : chain (chain Z) -> ast := chain_tree product_tree.

(** The operators of a product are [*], [/] and [%]; those of a sum are
    [+] and [-], its operands being products. *)
Definition multiplicative (c : chain Z) : Prop :=
  forall op, In op (chain_operators c) -> In op [LEX_MUL; LEX_DIV; LEX_MOD].

Definition additive (c : chain (chain Z)) : Prop :=
  (forall op, In op (chain_operators c) -> In op [LEX_ADD; LEX_SUB]) /\
  multiplicative (fst c) /\
  forall x, In x (snd c) -> multiplicative (snd x).

(** A production reads [tokens] and builds [tree] when what follows
    satisfies [stops]. *)
Definition reads (f : parser -> presult) (tokens : list lex_token) (tree : ast)
  (stops : list lex_token -> Prop) : Prop :=
  forall rest tab errs acc, stops rest ->
    exists acc', f (parser_at (tokens ++ rest) tab errs acc)
                 = Some (Some tree, parser_at rest tab errs acc').

(** The operators by the production that accepts them. *)
Definition below_relational : list lex_token_type :=
  [LEX_MUL; LEX_DIV; LEX_MOD; LEX_ADD; LEX_SUB; LEX_SHL; LEX_SHR].
Definition relational_operators : list lex_token_type :=
  [LEX_LT; LEX_GT; LEX_LE; LEX_GE].
Definition equality_operators : list lex_token_type := [LEX_EQ; LEX_NEQ].
Definition above_equality : list lex_token_type :=
  [LEX_AND; LEX_XOR; LEX_OR; LEX_AND_COND; LEX_OR_COND].

(** A sum whose tokens the recursion bound [fuel] covers. *)
Definition sums_fit (fuel : nat) (c : chain (chain Z)) : Prop :=
  (List.length (sum_tokens c) <= fuel)%nat /\ additive c.

Definition comparison_tree (op : lex_token_type) (l r : ast) : ast :=
  Binop (lex_to_ast_type op) S32 l r.

(** What may follow an operand of a relational expression, and what may
    follow an operand of an equality expression. *)
Definition stops_shift (tail : list lex_token) : Prop :=
  ~ In (head_type tail) below_relational.
Definition stops_rel (tail : list lex_token) : Prop :=
  stops_shift tail /\ ~ In (head_type tail) relational_operators.

(** The sums [1 * 2 - 3 / 4 + 5], [6] and [7]. *)
Definition sum_1_mul_2_sub_3_div_4_add_5 : chain (chain Z) :=
  ((1, [(LEX_MUL, 2)]), [(LEX_SUB, (3, [(LEX_DIV, 4)])); (LEX_ADD, (5, []))]).
Definition sum_6 : chain (chain Z) := ((6, []), []).
Definition sum_7 : chain (chain Z) := ((7, []), []).

(** The parentheses of [s] that are open at its end. *)
Definition paren_depth (s : list ascii) : Z :=
  fold_right (fun c d => paren_step c + d) 0 s.

(** The span eat_item passes over: the shortest prefix of the input that
    ends the line, or that has balanced parentheses and white space
    behind it. *)
Definition item_span (input span tail : list ascii) : Prop :=
  input = span ++ tail /\
  (tail = [] \/
   (paren_depth span = 0 /\
    exists c tail', tail = c :: tail' /\ isspace c = true)) /\
  (forall p c q, span = p ++ c :: q ->
     paren_depth p <> 0 \/ isspace c = false).

(** A span that one pair of parentheses encloses: it opens with a
    parenthesis that nothing before the last character closes. *)
Definition enclosed (span : list ascii) : Prop :=
  exists body, span = "("%char :: body /\
    forall p c q, body = p ++ c :: q -> paren_depth ("("%char :: p) <> 0.

(** The sizes of the regions, added up. *)
Definition total_size (mrs : list region) : Z :=
  fold_right (fun mr s => region_size mr + s) 0 mrs.

(** The node types ast.c has a printing function for. *)
Fixpoint printable (t : ast) : bool :=
  match t with
  | Value _ _ | Var _ _ => true
  | Unop AST_CAST _ c => printable c
  | Unop nt _ c =>
      match unary_operator nt with
      | Some _ => printable c
      | None => false
      end
  | Binop nt _ l r =>
      match binary_operator nt with
      | Some _ => printable l && printable r
      | None => false
      end
  end.

Definition operator_text (op : option string) : list ascii :=
  match op with
  | Some s => " "%char :: list_ascii_of_string s
  | None => []
  end.

(** The expression in reverse Polish notation: operands before their
    operator, every literal and variable with its type. *)
Fixpoint rpn (format_g : spec_float -> list ascii) (t : ast) : list ascii :=
  match t with
  | Value vt v =>
      ("("%char :: value_type_to_string vt ++ [")"%char])
      ++ value_text format_g v
  | Var vt name =>
      "("%char :: value_type_to_string vt ++ ")"%char
      :: list_ascii_of_string name
  | Unop AST_CAST vt c =>
      rpn format_g c
      ++ " "%char :: "("%char :: value_type_to_string vt ++ [")"%char]
  | Unop nt _ c => rpn format_g c ++ operator_text (unary_operator nt)
  | Binop nt _ l r =>
      ((rpn format_g l ++ [" "%char]) ++ rpn format_g r)
      ++ operator_text (binary_operator nt)
  end.

(** [f] prints [text] as snprintf does; into a buffer of one byte it may
    store nothing at all. *)
Definition prints (f : printer) (text : list ascii) : Prop :=
  forall mem,
    (List.length mem <> 1%nat -> f mem = Some (c_snprintf text mem)) /\
    exists mem', f mem = Some (List.length text, mem').

(** A [%g] that prints nothing, and a buffer of [n] bytes. *)
Definition no_format_g (f : spec_float) : list ascii := [].
Definition buffer (n : nat) : list ascii := repeat NUL n.

(** The first line of [stream], among those fscanf reads, whose region
    holds [addr]. *)
Fixpoint first_region_holding (stream : maps_file) (addr : Z)
  : option mem_region :=
  match stream with
  | Some l :: rest =>
      if region_contains (region_of_line l) addr
      then Some (region_of_line l)
      else first_region_holding rest addr
  | _ => None
  end.

(* ===================================================================== *)
(** * Properties *)
(* ===================================================================== *)

(** ** value_is_zero *)

Lemma value_is_zero_from_spec (dest : value) (n : nat) (i : Z) :
  0 <= i -> 0 <= data dest ->
  value_is_zero_from dest i n = 1 <->
  (data dest / 256 ^ i) mod 256 ^ Z.of_nat n = 0.
Proof.
  revert i. induction n as [|n IH]; intros i Hi Hd.
  - cbn [value_is_zero_from]. rewrite Z.pow_0_r, Z.mod_1_r. tauto.
  - cbn [value_is_zero_from]. unfold data_byte.
    rewrite Nat2Z.inj_succ, Z.pow_succ_r by lia.
    set (q := data dest / 256 ^ i).
    assert (Hq : q / 256 = data dest / 256 ^ (i + 1)).
    { unfold q. rewrite Z.pow_add_r, Z.pow_1_r by lia.
      rewrite Z.div_div by (try apply Z.pow_pos_nonneg; lia). reflexivity. }
    assert (Hpos : 0 < 256 ^ Z.of_nat n) by (apply Z.pow_pos_nonneg; lia).
    rewrite Z.rem_mul_r by lia.
    destruct (q mod 256 =? 0) eqn:E; cbn [negb].
    + apply Z.eqb_eq in E. rewrite E, Z.add_0_l.
      rewrite IH by lia. rewrite <- Hq.
      assert (Hr : 0 <= (q / 256) mod 256 ^ Z.of_nat n)
        by (apply Z.mod_pos_bound; lia).
      split; intro Hz; [rewrite Hz; lia | lia].
    + apply Z.eqb_neq in E.
      assert (Hb : 0 <= q mod 256 < 256) by (apply Z.mod_pos_bound; lia).
      assert (Hr : 0 <= (q / 256) mod 256 ^ Z.of_nat n)
        by (apply Z.mod_pos_bound; lia).
      split; intro Hz; [discriminate | nia].
Qed.

(** C9.  value_is_zero looks at the bytes of the value and at nothing else:
    it returns 1 exactly when the stored bytes are all zero.  For negative
    zero, as f32 and as f64, it returns 0, although negative zero compares
    equal to zero ([f64_eq] gives 1 for the two and the IEEE comparison of
    the two f32 values is true); for positive zero it returns 1. *)
Theorem value_is_zero_raw_bytes :
  (forall v : value,
      0 <= data v < 2 ^ value_type_bits (type v) ->
      value_is_zero v = 1 <-> data v = 0) /\
  value_is_zero (mk_value F64 (bits_of_f64 (S754_zero true))) = 0 /\
  value_is_zero (mk_value F32 (bits_of_f32 (S754_zero true))) = 0 /\
  f64_eq (mk_value F64 (bits_of_f64 (S754_zero true)))
         (mk_value F64 (bits_of_f64 (S754_zero false)))
    = Ok (mk_value S32 1) /\
  SFeqb (f32_of_bits (bits_of_f32 (S754_zero true)))
        (f32_of_bits (bits_of_f32 (S754_zero false))) = true /\
  value_is_zero (mk_value F64 (bits_of_f64 (S754_zero false))) = 1 /\
  value_is_zero (mk_value F32 (bits_of_f32 (S754_zero false))) = 1.
Proof.
  split; [|repeat split; vm_compute; reflexivity].
  intros v Hv. unfold value_is_zero.
  rewrite value_is_zero_from_spec by lia.
  rewrite Z.pow_0_r, Z.div_1_r.
  assert (E : 256 ^ Z.of_nat (Z.to_nat (value_sizeof v))
              = 2 ^ value_type_bits (type v)).
  { unfold value_sizeof, value_type_sizeof.
    destruct (type v); vm_compute; reflexivity. }
  rewrite E, Z.mod_small by lia. tauto.
Qed.

Lemma value_is_zero_raw_bytes_witness :
  value_is_zero (mk_value F64 (2 ^ 63)) = 1 <-> 2 ^ 63 = 0.
Proof.
  apply (proj1 value_is_zero_raw_bytes (mk_value F64 (2 ^ 63))).
  vm_compute. split; [discriminate | reflexivity].
Defined.

(** ** Type names and cast recognition *)

Lemma prefix_in_nonempty_prefixes (s name : string) :
  String.prefix s name = true -> s <> EmptyString ->
  In s (nonempty_prefixes name).
Proof.
  revert s. induction name as [|c rest IH]; intros [|d s'] Hp Hne;
    try congruence; cbn in Hp; try discriminate.
  destruct (Ascii.ascii_dec d c) as [->|]; [|discriminate].
  cbn [nonempty_prefixes]. destruct s' as [|e s''].
  - left. reflexivity.
  - right. apply in_map. apply IH; [exact Hp | discriminate].
Qed.

(** C8.  value_type_from_substring compares only the bytes it was given, so
    every nonempty prefix of a scalar type name is taken for a type: "s" is
    S8 and "s3" is S32, neither being a type name.  cast_expression asks
    value_type_from_string, so it commits to a cast at [(s3)x]: with [x] in
    the symbol table the line parses, without an error, to the cast of [x]
    to S32. *)
Theorem type_name_prefix_accepted :
  (forall s name : string,
      In name scalar_type_names -> String.prefix s name = true ->
      s <> EmptyString ->
      exists t, value_type_from_string s = Some t /\ In t scalar_types) /\
  value_type_from_substring (c_bytes "s") 1 = Some S8 /\
  value_type_from_substring (c_bytes "s3") 2 = Some S32 /\
  ~ In "s"%string scalar_type_names /\
  ~ In "s3"%string scalar_type_names /\
  (forall (v : value) (tab : option symbol_table),
      peek_type (mk_parser (tl line_s3_x) tab 0
                   (token LEX_LEFT_PARENTHESE) (token LEX_EOL)) = Some S32 /\
      parse_expression line_s3_x (Some [("x"%string, v)])
      = Some (0%nat, Some (ast_cast_new S32 (Var (type v) "x")))).
Proof.
  split; [|split; [reflexivity|]; split; [reflexivity|];
           split; [|split];
           [cbn; intuition discriminate ..
           | intros v tab; split; reflexivity]].
  intros s name Hin Hp Hne.
  assert (Hall : forallb (fun n =>
            forallb (fun q =>
              match value_type_from_string q with
              | Some t => existsb (value_type_eqb t) scalar_types
              | None => false
              end) (nonempty_prefixes n)) scalar_type_names = true)
    by (vm_compute; reflexivity).
  rewrite forallb_forall in Hall. specialize (Hall name Hin).
  rewrite forallb_forall in Hall.
  specialize (Hall s (prefix_in_nonempty_prefixes s name Hp Hne)).
  destruct (value_type_from_string s) as [t|]; [|discriminate].
  exists t. split; [reflexivity|].
  apply existsb_exists in Hall. destruct Hall as [u [Hu Heq]].
  destruct t, u; try discriminate; exact Hu.
Qed.

Lemma type_name_prefix_accepted_witness :
  exists t, value_type_from_string "s3" = Some t /\ In t scalar_types.
Proof.
  apply (proj1 type_name_prefix_accepted "s3"%string "s32"%string).
  - cbn. tauto.
  - reflexivity.
  - discriminate.
Defined.

(** X3.  value_type_from_string gives every scalar type for its own name;
    it also gives S8 for the empty string, of which memcmp compares no
    byte. *)
Theorem type_names_are_recognised :
  (forall t : value_type,
      In t scalar_types ->
      value_type_from_string (scalar_type_name t) = Some t) /\
  value_type_from_string "" = Some S8.
Proof.
  split; [|reflexivity].
  intros t Ht. cbn in Ht.
  repeat match type of Ht with
         | _ \/ _ => destruct Ht as [Ht|Ht]
         end;
    try contradiction; subst; reflexivity.
Qed.

Lemma type_names_are_recognised_witness :
  value_type_from_string (scalar_type_name U64) = Some U64.
Proof.
  apply (proj1 type_names_are_recognised U64). cbn. tauto.
Defined.

(** ** accept_value *)

Lemma value_type_eqb_eq (a b : value_type) :
  value_type_eqb a b = true <-> a = b.
Proof. destruct a, b; cbn; split; intro H; congruence. Qed.

(** C10.  When the tree the parser returned for a value expression is a
    cast to a pointer type, accept_value drops that node and goes on with
    its child, which it casts to the requested type only when the child's
    type differs.  The tree that is evaluated, and so the value, does not
    depend on the pointer type that was written. *)
Theorem accept_value_drops_pointer_cast
  (tab : symbol_table) (value_type pointer other : value_type) (child : ast) :
  is_PTR pointer = true -> is_PTR other = true ->
  accept_value_tree value_type (Unop AST_CAST pointer child)
  = (if value_type_eqb (ast_value_type child) value_type
     then child else ast_cast_new value_type child) /\
  accept_value tab (Some (Unop AST_CAST pointer child)) value_type
  = accept_value tab (Some (Unop AST_CAST other child)) value_type /\
  accept_value tab (Some (Unop AST_CAST pointer child)) value_type
  = ast_evaluate tab
      (if value_type_eqb (ast_value_type child) value_type
       then child else ast_cast_new value_type child).
Proof.
  intros Hp Ho.
  assert (E : forall q, is_PTR q = true ->
            accept_value_tree value_type (Unop AST_CAST q child)
            = (if value_type_eqb (ast_value_type child) value_type
               then child else ast_cast_new value_type child)).
  { intros q Hq. unfold accept_value_tree, strip_pointer_cast.
    rewrite Hq. destruct (value_type_eqb (ast_value_type child) value_type);
      reflexivity. }
  unfold accept_value. rewrite !E by assumption. auto.
Qed.

Lemma accept_value_drops_pointer_cast_witness :
  accept_value_tree U32 (Unop AST_CAST U16PTR (ast_int_new 7))
  = ast_cast_new U32 (ast_int_new 7) /\
  accept_value [] (Some (Unop AST_CAST U16PTR (ast_int_new 7))) U32
  = accept_value [] (Some (Unop AST_CAST F64PTR (ast_int_new 7))) U32 /\
  accept_value [] (Some (Unop AST_CAST U16PTR (ast_int_new 7))) U32
  = Ok (mk_value U32 7).
Proof.
  exact (accept_value_drops_pointer_cast [] U32 U16PTR F64PTR (ast_int_new 7)
           eq_refl eq_refl).
Defined.

(** ** The break lease *)

Lemma break_continue_balanced (ctx : ramfuck) :
  breaks (snd (ramfuck_continue (snd (ramfuck_break ctx)))) = breaks ctx.
Proof.
  unfold ramfuck_break, ramfuck_continue.
  destruct ctx as [a s r g [|[|n]]]; cbn;
    try destruct (a && s); cbn; reflexivity.
Qed.

Lemma lease_if_balanced (has_deref : bool) (ctx : ramfuck) :
  breaks (continue_if has_deref (break_if has_deref ctx)) = breaks ctx.
Proof.
  destruct has_deref; cbn; [apply break_continue_balanced | reflexivity].
Qed.

Lemma execute_balanced (ctx : ramfuck) (c : command) :
  breaks (fst (execute ctx c)) = breaks ctx.
Proof.
  destruct c as [parser ok | s | s | trailing hits | eol pass
                 | eol hits narrowed]; cbn [execute].
  - unfold do_eval. destruct (tree parser); cbn [fst];
      [apply lease_if_balanced | reflexivity].
  - unfold do_explain.
    destruct (ex_eol s), (ex_symtab s), (tree (ex_parser s)); cbn [fst negb];
      try reflexivity; apply lease_if_balanced.
  - unfold do_poke.
    repeat match goal with
           | |- context [if ?b then _ else _] =>
               lazymatch b with
               | context [if _ then _ else _] => fail
               | _ => destruct b eqn:?
               end
           end; cbn [fst]; try reflexivity; apply lease_if_balanced.
  - unfold do_list. destruct trailing, (hits =? 0)%nat; cbn [fst];
      try reflexivity; apply break_continue_balanced.
  - unfold do_search, search. destruct eol, (attached ctx), pass; cbn;
      try reflexivity; apply break_continue_balanced.
  - unfold do_filter, filter. destruct eol, (hits =? 0)%nat, narrowed; cbn;
      try reflexivity; apply break_continue_balanced.
Qed.

(** C7.  Every core command (eval, explain, poke, list, scan, filter)
    leaves the suspend count [breaks] as it found it, whatever the parser,
    the evaluation and the target do during the command and whichever
    return it takes; so does every sequence of core commands. *)
Theorem break_lease_balance :
  (forall (ctx : ramfuck) (c : command),
      breaks (fst (execute ctx c)) = breaks ctx) /\
  (forall (ctx : ramfuck) (cs : list command),
      breaks (execute_all ctx cs) = breaks ctx).
Proof.
  split; [exact execute_balanced|].
  intros ctx cs. revert ctx.
  induction cs as [|c rest IH]; intro ctx; cbn [execute_all].
  - reflexivity.
  - rewrite IH. apply execute_balanced.
Qed.

(** ** The handlers of value.c and the error return *)

Lemma bind_not_err {A B : Type} (r : result A) (k : A -> result B) :
  r <> Err -> (forall a, k a <> Err) -> bind r k <> Err.
Proof.
  intros Hr Hk. destruct r as [a| |]; cbn;
    [apply Hk | contradiction Hr; reflexivity | discriminate].
Qed.

Lemma member_bits_not_err (w : Z) (v : value) : member_bits w v <> Err.
Proof. unfold member_bits. destruct (w <=? _); discriminate. Qed.

Lemma data_int_not_err (w : Z) (sg : bool) (v : value) :
  data_int w sg v <> Err.
Proof.
  unfold data_int. apply bind_not_err;
    [apply member_bits_not_err | discriminate].
Qed.

Lemma data_f32_not_err (v : value) : data_f32 v <> Err.
Proof.
  unfold data_f32. apply bind_not_err;
    [apply member_bits_not_err | discriminate].
Qed.

Lemma data_f64_not_err (v : value) : data_f64 v <> Err.
Proof.
  unfold data_f64. apply bind_not_err;
    [apply member_bits_not_err | discriminate].
Qed.

Lemma value_init_int_not_err (t : value_type) (x : cvalue) :
  value_init_int t x <> Err.
Proof.
  unfold value_init_int. apply bind_not_err; [|discriminate].
  unfold to_integer. destruct x as [z|f|f]; try discriminate;
    destruct (float_truncate f); try discriminate;
    match goal with |- (if ?c then _ else _) <> _ => destruct c end;
    discriminate.
Qed.

Lemma value_init_f32_not_err (x : cvalue) : value_init_f32 x <> Err.
Proof. discriminate. Qed.

Lemma value_init_f64_not_err (x : cvalue) : value_init_f64 x <> Err.
Proof. discriminate. Qed.

Ltac reads_or_inits :=
  first [ apply data_int_not_err | apply data_f32_not_err
        | apply data_f64_not_err | apply value_init_int_not_err
        | apply value_init_f32_not_err | apply value_init_f64_not_err ].

(** Every [T_to_U] reads a member and initialises a value. *)
Ltac cast_not_err :=
  lazymatch goal with
  | |- ?cast _ <> Err =>
      unfold cast; apply bind_not_err; [reads_or_inits|];
      intro; reads_or_inits
  end.

Lemma value_cast_not_err (target : value_type) (v : value) :
  value_cast target v <> Err.
Proof.
  unfold value_cast.
  destruct (type v); cbn [value_casts_of]; try discriminate;
    destruct target; cbn -[Z.pow]; try discriminate; cast_not_err.
Qed.





Lemma signed_wrap (w a : Z) :
  0 < w -> - 2 ^ (w - 1) <= a < 2 ^ (w - 1) ->
  signed w (wrap w a mod 2 ^ w) = a.
Proof.
  intros Hw Ha. unfold signed, wrap.
  assert (E : 2 ^ w = 2 * 2 ^ (w - 1)).
  { replace w with (Z.succ (w - 1)) at 1 by lia.
    rewrite Z.pow_succ_r by lia. reflexivity. }
  assert (Hp : 0 < 2 ^ (w - 1)) by (apply Z.pow_pos_nonneg; lia).
  rewrite Z.mod_mod by lia.
  destruct (Z_lt_le_dec a 0) as [Hneg|Hpos].
  - assert (Hm : a mod 2 ^ w = a + 2 ^ w).
    { symmetry. apply Z.mod_unique with (q := -1); lia. }
    rewrite Hm. destruct (a + 2 ^ w <? 2 ^ (w - 1)) eqn:C; [|lia].
    apply Z.ltb_lt in C. lia.
  - rewrite Z.mod_small by lia.
    destruct (a <? 2 ^ (w - 1)) eqn:C; [reflexivity|].
    apply Z.ltb_ge in C. lia.
Qed.


(** Under the evaluation the spec describes, [1 / 0] reaches s32_div. *)
Example evaluate_1_div_0 :
  parse_expression line_1_div_0 None = Some (0%nat, Some tree_1_div_0) /\
  ast_evaluate [] tree_1_div_0 = s32_div (mk_value S32 1) (mk_value S32 0).
Proof. split; reflexivity. Qed.




(** ** Floating operands *)

(** C4, as stated, fails for the modulo: the member of the F64 and F32
    rows is dummy_mod, which returns 1 with a value.  It converts the left
    operand to s32, reads the [s32] member of the right operand and runs
    s32_mod, so the handler gives the s32 value 5 for 5.0 and the double
    next to it, and for two floats 5.0. *)
Lemma float_modulo_handler_returns_a_value :
  op_mod F64_ops double_5 double_5_halves = Ok (mk_value S32 5) /\
  op_mod F32_ops float_5 float_5 = Ok (mk_value S32 5) /\
  op_mod F64_ops double_5 double_5_halves <> Err /\
  op_mod F32_ops float_5 float_5 <> Err.
Proof. repeat split; try discriminate; vm_compute; reflexivity. Qed.

(** ** The tags of the values the handlers give *)

Lemma bind_ok {A B : Type} (r : result A) (k : A -> result B) (b : B) :
  bind r k = Ok b -> exists a, r = Ok a /\ k a = Ok b.
Proof. destruct r as [a| |]; cbn; intro H; [eauto | discriminate ..]. Qed.

Lemma value_init_int_type (t : value_type) (x : cvalue) (r : value) :
  value_init_int t x = Ok r -> type r = t.
Proof.
  unfold value_init_int. intro H. apply bind_ok in H.
  destruct H as [bits [_ H]]. inversion H. reflexivity.
Qed.

(** X1.  Every cast of value.c that returns gives a value whose tag is the
    target type of the cast, whatever the tag of the operand. *)
Theorem cast_gives_target_type (target : value_type) (v r : value) :
  value_cast target v = Ok r -> type r = target.
Proof.
  unfold value_cast.
  destruct (type v); cbn [value_casts_of]; try discriminate;
    destruct target; cbn -[Z.pow]; try discriminate;
    (lazymatch goal with
     | |- ?cast _ = _ -> _ => unfold cast
     end);
    intro H; apply bind_ok in H; destruct H as [x [_ H]];
    first [ exact (value_init_int_type _ _ _ H) | inversion H; reflexivity ].
Qed.

Lemma cast_gives_target_type_witness :
  type (mk_value U8 (wrap 8 300)) = U8.
Proof.
  apply (cast_gives_target_type U8 (mk_value S32 300) (mk_value U8 (wrap 8 300))).
  reflexivity.
Defined.

Lemma int_relop_type (t : value_type) (f : Z -> Z -> bool) (a b r : value) :
  int_relop t f a b = Ok r -> type r = S32.
Proof.
  unfold int_relop. intro H.
  apply bind_ok in H. destruct H as [x [_ H]].
  apply bind_ok in H. destruct H as [y [_ H]].
  inversion H. reflexivity.
Qed.

Lemma f64_relop_type (f : spec_float -> spec_float -> bool) (a b r : value) :
  f64_relop f a b = Ok r -> type r = S32.
Proof.
  unfold f64_relop. intro H.
  apply bind_ok in H. destruct H as [x [_ H]].
  apply bind_ok in H. destruct H as [y [_ H]].
  inversion H. reflexivity.
Qed.

Lemma promoted_relop_type (k : value -> value -> result value)
  (promote : value -> result value) (a b r : value) :
  (forall x y z, k x y = Ok z -> type z = S32) ->
  (out <- promote a ;; k out b) = Ok r -> type r = S32.
Proof.
  intros Hk H. apply bind_ok in H. destruct H as [out [_ H]].
  exact (Hk _ _ _ H).
Qed.

(** The six comparison members of every row store an s32. *)
Lemma relational_handlers_give_s32 (t : value_type) (ops : value_operations)
  (nt : ast_type) (method : value -> value -> result value) (a b r : value) :
  value_ops t = Some ops -> is_relational nt = true ->
  binary_method nt ops = Some method ->
  method a b = Ok r -> type r = S32.
Proof.
  intros Hops Hrel Hm H.
  destruct nt; try discriminate; cbn in Hm; inversion Hm; subst method;
    clear Hm Hrel;
    (destruct t; cbn in Hops; inversion Hops; subst ops; cbn in H;
     first [ exact (int_relop_type _ _ _ _ _ H)
           | exact (f64_relop_type _ _ _ _ H)
           | exact (promoted_relop_type _ promote_s32 _ _ _
                      (int_relop_type S32 _) H)
           | exact (promoted_relop_type _ promote_f64 _ _ _
                      (f64_relop_type _) H) ]).
Qed.

(** ** Accepting tokens *)

Lemma lex_token_type_eqb_eq (a b : lex_token_type) :
  lex_token_type_eqb a b = true <-> a = b.
Proof. destruct a, b; cbn; split; intro H; congruence. Qed.

Lemma next_symbol_accepted (p : parser) :
  accepted (snd (next_symbol p)) = accepted p.
Proof.
  unfold next_symbol. destruct (lexer (input p)) as [[t|] rest];
    [reflexivity|].
  destruct (skip_to_eol rest) as [eol rest']. reflexivity.
Qed.

(** An accepted token is the look-ahead that was asked for, kept in
    [accepted]. *)
Lemma accept_true (p p1 : parser) (sym : lex_token_type) :
  accept p sym = (true, p1) ->
  ltype (symbol p) = sym /\ accepted p1 = symbol p.
Proof.
  unfold accept. intro H.
  destruct (lex_token_type_eqb (ltype (symbol p)) sym) eqn:E; cbn in H;
    [|discriminate].
  apply lex_token_type_eqb_eq in E. split; [exact E|].
  pose proof (next_symbol_accepted
                (mk_parser (input p) (symtab p) (errors p) (symbol p) (symbol p)))
    as Ha.
  rewrite H in Ha. exact Ha.
Qed.

Lemma accept_mismatch (p : parser) (sym : lex_token_type) :
  ltype (symbol p) <> sym -> accept p sym = (false, p).
Proof.
  intro H. unfold accept.
  destruct (lex_token_type_eqb (ltype (symbol p)) sym) eqn:E;
    [apply lex_token_type_eqb_eq in E; contradiction | reflexivity].
Qed.

Lemma accept_any_true (syms : list lex_token_type) (p p1 : parser) :
  accept_any p syms = (true, p1) -> In (ltype (accepted p1)) syms.
Proof.
  revert p. induction syms as [|sym rest IH]; intros p H; cbn in H.
  - discriminate.
  - destruct (accept p sym) as [ok p'] eqn:E. destruct ok.
    + inversion H; subst p'. apply accept_true in E.
      destruct E as [E1 E2]. left. rewrite E2. symmetry. exact E1.
    + right. exact (IH p' H).
Qed.

(** ** The parser returns *)

Lemma skip_to_eol_shorter (rest : list lexeme) :
  ltype (fst (skip_to_eol rest)) = LEX_EOL /\
  (List.length (snd (skip_to_eol rest)) <= List.length rest)%nat.
Proof.
  induction rest as [|[t|] rest IH]; cbn [skip_to_eol].
  - split; [reflexivity | apply le_n].
  - destruct (lex_token_type_eqb (ltype t) LEX_EOL) eqn:E; cbn [fst snd List.length].
    + apply lex_token_type_eqb_eq in E. split; [exact E | lia].
    + destruct IH as [IH1 IH2]. split; [exact IH1 | lia].
  - destruct IH as [IH1 IH2]. cbn [List.length]. split; [exact IH1 | lia].
Qed.

Lemma next_symbol_tokens_left (p : parser) :
  (tokens_left (snd (next_symbol p)) <= List.length (input p))%nat.
Proof.
  unfold next_symbol, tokens_left, lexer.
  destruct (input p) as [|[t|] rest]; cbn [snd input symbol List.length].
  - cbn. lia.
  - destruct (lex_token_type_eqb (ltype t) LEX_EOL); lia.
  - pose proof (skip_to_eol_shorter rest) as [H1 H2].
    destruct (skip_to_eol rest) as [eol rest']. cbn [fst snd] in H1, H2.
    cbn [snd input symbol]. rewrite H1. cbn. lia.
Qed.

Lemma accept_tokens_left (p p' : parser) (sym : lex_token_type) (ok : bool) :
  sym <> LEX_EOL -> accept p sym = (ok, p') ->
  (tokens_left p' <= tokens_left p)%nat /\
  (ok = true -> (tokens_left p' < tokens_left p)%nat).
Proof.
  intros Hsym H. unfold accept in H.
  destruct (lex_token_type_eqb (ltype (symbol p)) sym) eqn:E; cbn [negb] in H.
  - apply lex_token_type_eqb_eq in E.
    pose proof (next_symbol_tokens_left
                  (mk_parser (input p) (symtab p) (errors p) (symbol p)
                     (symbol p))) as Hn.
    rewrite H in Hn. cbn [snd input] in Hn.
    assert (Hp : tokens_left p = S (List.length (input p))).
    { unfold tokens_left.
      destruct (lex_token_type_eqb (ltype (symbol p)) LEX_EOL) eqn:E2;
        [apply lex_token_type_eqb_eq in E2; congruence | lia]. }
    lia.
  - inversion H; subst. split; [apply le_n | discriminate].
Qed.

Lemma accept_any_tokens_left (syms : list lex_token_type) (p p' : parser)
  (ok : bool) :
  ~ In LEX_EOL syms -> accept_any p syms = (ok, p') ->
  (tokens_left p' <= tokens_left p)%nat /\
  (ok = true -> (tokens_left p' < tokens_left p)%nat).
Proof.
  revert p. induction syms as [|sym rest IH]; intros p Hno H;
    cbn [accept_any] in H.
  - inversion H; subst. split; [apply le_n | discriminate].
  - destruct (accept p sym) as [ok1 p1] eqn:E.
    assert (Hsym : sym <> LEX_EOL) by (intro; subst; apply Hno; left; reflexivity).
    destruct (accept_tokens_left _ _ _ _ Hsym E) as [H1 H2].
    destruct ok1.
    + inversion H; subst. split; [exact H1 | intros _; exact (H2 eq_refl)].
    + assert (Hno' : ~ In LEX_EOL rest) by (intro; apply Hno; right; assumption).
      destruct (IH p1 Hno' H) as [H3 H4]. split; [lia | intro; specialize (H4 H0); lia].
Qed.

Lemma parse_error_tokens_left (p : parser) :
  tokens_left (parse_error p) = tokens_left p.
Proof. reflexivity. Qed.

Ltac accept_bound E L S :=
  lazymatch type of E with
  | accept ?p ?sym = (?ok, ?p') =>
      let H := fresh in
      assert (H : sym <> LEX_EOL) by discriminate;
      destruct (accept_tokens_left p p' sym ok H E) as [L S]; clear H
  end.

Lemma factor_returns (expression : parser -> presult) (p : parser) :
  (forall q, (tokens_left q < tokens_left p)%nat -> returns_at expression q) ->
  returns_at (factor expression) p.
Proof.
  intro He. unfold returns_at, factor.
  destruct (accept p LEX_IDENTIFIER) as [ok1 p1] eqn:E1.
  accept_bound E1 L1 ipattern:(_).
  destruct ok1.
  { destruct (symtab p1) as [tab|];
      [destruct (symbol_table_nlookup tab _) as [[n v]|]|];
      eexists; eexists; (split; [reflexivity|]);
      rewrite ?parse_error_tokens_left; exact L1. }
  destruct (accept p1 LEX_INTEGER) as [ok2 p2] eqn:E2.
  accept_bound E2 L2 ipattern:(_).
  destruct ok2; [eexists; eexists; split; [reflexivity | lia]|].
  destruct (accept p2 LEX_UINTEGER) as [ok3 p3] eqn:E3.
  accept_bound E3 L3 ipattern:(_).
  destruct ok3; [eexists; eexists; split; [reflexivity | lia]|].
  destruct (accept p3 LEX_FLOATING_POINT) as [ok4 p4] eqn:E4.
  accept_bound E4 L4 ipattern:(_).
  destruct ok4; [eexists; eexists; split; [reflexivity | lia]|].
  destruct (accept p4 LEX_LEFT_PARENTHESE) as [ok5 p5] eqn:E5.
  accept_bound E5 L5 S5.
  destruct ok5.
  - specialize (S5 eq_refl).
    destruct (He p5 ltac:(lia)) as [root [p6 [E6 L6]]]. rewrite E6.
    eexists; eexists; split; [reflexivity|].
    unfold expect. destruct (accept p6 LEX_RIGHT_PARENTHESE) as [ok7 p7] eqn:E7.
    accept_bound E7 L7 ipattern:(_).
    destruct ok7; cbn [snd]; rewrite ?parse_error_tokens_left; lia.
  - eexists; eexists; split; [reflexivity|].
    rewrite parse_error_tokens_left. lia.
Qed.

Lemma unary_expression_returns (cast_expression expression : parser -> presult)
  (p : parser) :
  (forall q, (tokens_left q < tokens_left p)%nat ->
             returns_at cast_expression q) ->
  (forall q, (tokens_left q < tokens_left p)%nat -> returns_at expression q) ->
  returns_at (unary_expression cast_expression expression) p.
Proof.
  intros Hc He. unfold returns_at, unary_expression.
  destruct (accept_any p [LEX_ADD; LEX_SUB; LEX_NOT; LEX_COMPL])
    as [ok p1] eqn:Ea.
  assert (Hno : ~ In LEX_EOL [LEX_ADD; LEX_SUB; LEX_NOT; LEX_COMPL])
    by (cbn; intuition discriminate).
  destruct (accept_any_tokens_left _ _ _ _ Hno Ea) as [L1 S1].
  destruct ok.
  - specialize (S1 eq_refl).
    destruct (Hc p1 S1) as [child [p2 [E2 L2]]].
    rewrite E2. destruct child as [child|].
    + destruct (lex_to_ast_type _);
        repeat match goal with
               | |- context [if ?c then _ else _] => destruct c
               end;
        eexists; eexists; (split; [reflexivity|]);
        rewrite ?parse_error_tokens_left; lia.
    + eexists; eexists; split; [reflexivity | lia].
  - destruct (factor_returns expression p1) as [r [p2 [E2 L2]]].
    + intros q Hq. apply He. lia.
    + exists r, p2. split; [exact E2 | lia].
Qed.

Lemma cast_expression_returns (expression : parser -> presult) (fuel : nat)
  (p : parser) :
  (tokens_left p < fuel)%nat ->
  (forall q, (tokens_left q < tokens_left p)%nat -> returns_at expression q) ->
  returns_at (cast_expression expression fuel) p.
Proof.
  revert p. induction fuel as [|fuel IH]; intros p Hf He; [lia|].
  cbn [cast_expression].
  assert (Hu : forall q, (tokens_left q <= tokens_left p)%nat ->
             returns_at (unary_expression (cast_expression expression fuel)
                           expression) q).
  { intros q Hq. apply unary_expression_returns.
    - intros q' Hq'. apply IH; [lia|]. intros q'' Hq''. apply He. lia.
    - intros q' Hq'. apply He. lia. }
  assert (Hw : forall q, (tokens_left q <= tokens_left p)%nat ->
             exists r p',
               unary_expression (cast_expression expression fuel) expression q
               = Some (r, p') /\ (tokens_left p' <= tokens_left p)%nat).
  { intros q Hq. destruct (Hu q Hq) as [r [p' [E L]]].
    exists r, p'. split; [exact E | lia]. }
  unfold returns_at.
  destruct (lex_token_type_eqb _ _); [|apply Hw; lia].
  destruct (peek_type p) as [t|]; [|apply Hw; lia].
  destruct (accept p LEX_LEFT_PARENTHESE) as [ok1 p1] eqn:E1.
  accept_bound E1 L1 S1.
  destruct ok1; cbn [negb]; [|apply Hw; lia].
  destruct (accept p1 LEX_IDENTIFIER) as [ok2 p2] eqn:E2.
  accept_bound E2 L2 S2.
  destruct ok2; cbn [negb]; [|apply Hw; lia].
  destruct (accept p2 LEX_RIGHT_PARENTHESE) as [ok3 p3] eqn:E3.
  accept_bound E3 L3 S3.
  destruct ok3; cbn [negb]; [|apply Hw; lia].
  specialize (S1 eq_refl).
  destruct (IH p3) as [child [p4 [E4 L4]]]; [lia | |].
  - intros q Hq. apply He. lia.
  - rewrite E4. destruct child; eexists; eexists;
      (split; [reflexivity | lia]).
Qed.

Section BinaryReturns.
Variable operand : parser -> presult.
Variable operators : list lex_token_type.
Variable admits : ast_type -> value_type -> value_type -> bool.
Variable result_type : value_type -> value_type -> value_type.
Hypothesis operators_not_eol : ~ In LEX_EOL operators.

Lemma binary_body_returns (lhs : ast) (p : parser) :
  returns_at operand p ->
  returns_at (binary_body operand admits result_type lhs) p.
Proof.
  intros [rhs [p1 [E L]]]. unfold returns_at, binary_body. rewrite E.
  destruct rhs as [rhs|]; [destruct (admits _ _ _)|];
    eexists; eexists; (split; [reflexivity|]);
    rewrite ?parse_error_tokens_left; exact L.
Qed.

Lemma binary_while_returns (fuel : nat) (root : option ast) (p : parser) :
  (tokens_left p <= fuel)%nat ->
  (forall q, (tokens_left q < tokens_left p)%nat -> returns_at operand q) ->
  returns_at (binary_while operand operators admits result_type fuel root) p.
Proof.
  revert root p. induction fuel as [|fuel IH]; intros root p Hf Ho;
    unfold returns_at; destruct root as [lhs|]; cbn [binary_while];
    try (eexists; eexists; split; [reflexivity | apply le_n]);
    destruct (accept_any p operators) as [ok p1] eqn:Ea;
    destruct (accept_any_tokens_left _ _ _ _ operators_not_eol Ea) as [L1 S1];
    (destruct ok; [specialize (S1 eq_refl)
                  | eexists; eexists; split; [reflexivity | exact L1]]).
  - lia.
  - destruct (binary_body_returns lhs p1 (Ho p1 S1)) as [root' [p2 [E2 L2]]].
    rewrite E2.
    destruct (IH root' p2) as [r [p3 [E3 L3]]]; [lia | |].
    + intros q Hq. apply Ho. lia.
    + exists r, p3. split; [exact E3 | lia].
Qed.

Lemma binary_loop_production_returns (fuel : nat) (p : parser) :
  (tokens_left p <= fuel)%nat ->
  (forall q, (tokens_left q <= tokens_left p)%nat -> returns_at operand q) ->
  returns_at
    (binary_loop_production operand operators admits result_type fuel) p.
Proof.
  intros Hf Ho. unfold returns_at, binary_loop_production.
  destruct (Ho p (le_n _)) as [root [p1 [E1 L1]]]. rewrite E1.
  destruct (binary_while_returns fuel root p1) as [r [p2 [E2 L2]]]; [lia | |].
  - intros q Hq. apply Ho. lia.
  - exists r, p2. split; [exact E2 | lia].
Qed.

Lemma binary_once_production_returns (p : parser) :
  (forall q, (tokens_left q <= tokens_left p)%nat -> returns_at operand q) ->
  returns_at (binary_once_production operand operators admits result_type) p.
Proof.
  intros Ho. unfold returns_at, binary_once_production.
  destruct (Ho p (le_n _)) as [root [p1 [E1 L1]]]. rewrite E1.
  destruct root as [lhs|]; cbn [binary_if];
    [|eexists; eexists; split; [reflexivity | exact L1]].
  destruct (accept_any p1 operators) as [ok p2] eqn:Ea.
  destruct (accept_any_tokens_left _ _ _ _ operators_not_eol Ea) as [L2 S2].
  destruct ok; [|eexists; eexists; split; [reflexivity | lia]].
  destruct (binary_body_returns lhs p2 (Ho p2 ltac:(lia))) as [r [p3 [E3 L3]]].
  exists r, p3. split; [exact E3 | lia].
Qed.
End BinaryReturns.

Ltac not_eol := cbn; intuition discriminate.

Section ProductionsReturn.
Variable expression : parser -> presult.
Variable fuel : nat.
Variable p0 : parser.
Hypothesis enough_fuel : (tokens_left p0 < fuel)%nat.
Hypothesis expression_returns_below :
  forall q, (tokens_left q < tokens_left p0)%nat -> returns_at expression q.

Lemma cast_expression_returns_upto (q : parser) :
  (tokens_left q <= tokens_left p0)%nat ->
  returns_at (cast_expression expression fuel) q.
Proof.
  intro Hq. apply cast_expression_returns; [lia|].
  intros q' Hq'. apply expression_returns_below. lia.
Qed.

Lemma muldiv_expression_returns (q : parser) :
  (tokens_left q <= tokens_left p0)%nat ->
  returns_at (muldiv_expression expression fuel) q.
Proof.
  intro Hq. apply binary_loop_production_returns; [not_eol | lia |].
  intros q' Hq'. apply cast_expression_returns_upto. lia.
Qed.

Lemma addsub_expression_returns (q : parser) :
  (tokens_left q <= tokens_left p0)%nat ->
  returns_at (addsub_expression expression fuel) q.
Proof.
  intro Hq. apply binary_loop_production_returns; [not_eol | lia |].
  intros q' Hq'. apply muldiv_expression_returns. lia.
Qed.

Lemma shift_expression_returns (q : parser) :
  (tokens_left q <= tokens_left p0)%nat ->
  returns_at (shift_expression expression fuel) q.
Proof.
  intro Hq. apply binary_loop_production_returns; [not_eol | lia |].
  intros q' Hq'. apply addsub_expression_returns. lia.
Qed.

Lemma relational_expression_returns (q : parser) :
  (tokens_left q <= tokens_left p0)%nat ->
  returns_at (relational_expression expression fuel) q.
Proof.
  intro Hq. apply binary_once_production_returns; [not_eol|].
  intros q' Hq'. apply shift_expression_returns. lia.
Qed.

Lemma equality_expression_returns (q : parser) :
  (tokens_left q <= tokens_left p0)%nat ->
  returns_at (equality_expression expression fuel) q.
Proof.
  intro Hq. apply binary_once_production_returns; [not_eol|].
  intros q' Hq'. apply relational_expression_returns. lia.
Qed.

Lemma and_expression_returns (q : parser) :
  (tokens_left q <= tokens_left p0)%nat ->
  returns_at (and_expression expression fuel) q.
Proof.
  intro Hq. apply binary_loop_production_returns; [not_eol | lia |].
  intros q' Hq'. apply equality_expression_returns. lia.
Qed.

Lemma xor_expression_returns (q : parser) :
  (tokens_left q <= tokens_left p0)%nat ->
  returns_at (xor_expression expression fuel) q.
Proof.
  intro Hq. apply binary_loop_production_returns; [not_eol | lia |].
  intros q' Hq'. apply and_expression_returns. lia.
Qed.

Lemma or_expression_returns (q : parser) :
  (tokens_left q <= tokens_left p0)%nat ->
  returns_at (or_expression expression fuel) q.
Proof.
  intro Hq. apply binary_loop_production_returns; [not_eol | lia |].
  intros q' Hq'. apply xor_expression_returns. lia.
Qed.

Lemma conditional_expression_returns :
  returns_at (conditional_expression expression fuel) p0.
Proof.
  apply binary_loop_production_returns; [not_eol | lia |].
  intros q' Hq'. apply or_expression_returns. lia.
Qed.
End ProductionsReturn.

Lemma expression_returns (fuel : nat) (p : parser) :
  (S (tokens_left p) < fuel)%nat -> returns_at (expression fuel) p.
Proof.
  revert p. induction fuel as [|fuel IH]; intros p Hf; [lia|].
  unfold returns_at. cbn [expression].
  destruct (lex_token_type_eqb (ltype (symbol p)) LEX_EOL);
    [eexists; eexists; split; [reflexivity | apply le_n]|].
  apply conditional_expression_returns; [lia|].
  intros q Hq. apply IH. lia.
Qed.

(** parse_expression returns for every line: the bound [parse_fuel] on the
    recursion is never reached. *)
Lemma parse_expression_returns (line : list lexeme)
  (tab : option symbol_table) :
  exists (errs : nat) (out : option ast),
    parse_expression line tab = Some (errs, out).
Proof.
  unfold parse_expression.
  pose proof (next_symbol_tokens_left
                (mk_parser line tab 0 (token LEX_EOL) (token LEX_EOL))) as Hn.
  destruct (next_symbol _) as [ok p]. cbn [snd input] in Hn.
  destruct (expression_returns (parse_fuel line) p) as [out [p1 [E L]]];
    [unfold parse_fuel; lia|].
  rewrite E. eauto.
Qed.

(** The loop that skips the rest of the line stops at the end-of-line token
    within the bound parse_expression gives it. *)
Lemma skip_line_reaches_eol (fuel : nat) (p : parser) :
  (List.length (input p) < fuel)%nat ->
  ltype (symbol (skip_line fuel p)) = LEX_EOL.
Proof.
  revert p. induction fuel as [|fuel IH]; intros p Hf; [lia|].
  cbn [skip_line].
  pose proof (next_symbol_tokens_left p) as Hn.
  destruct (lex_token_type_eqb (ltype (symbol (snd (next_symbol p)))) LEX_EOL)
    eqn:E; cbn [negb].
  - apply lex_token_type_eqb_eq. exact E.
  - apply IH. unfold tokens_left in Hn. rewrite E in Hn. lia.
Qed.

(** ** The typing rules of the parser *)

(** C6, as stated, fails: [!1.5] is rejected with a parse error, and the
    node of [!1u] has the type u32 of its operand, not s32. *)
Lemma logical_not_is_typed_like_complement :
  parse_expression
    [Lexed (token LEX_NOT); Lexed (tok_fp 0x3FF8000000000000)] None
  = Some (2%nat, None) /\
  parse_expression [Lexed (token LEX_NOT); Lexed (tok_uinteger 1)] None
  = Some (0%nat, Some (Unop AST_NOT U32 (ast_uint_new 1))) /\
  U32 <> S32.
Proof. repeat split; try discriminate; reflexivity. Qed.

(** C6, amended.  When the look-ahead is [!] and the operand parses to a
    tree of integer type, unary_expression accepts the expression and the
    node gets the type of the operand, which is s32 only for an operand of
    type s32. *)
Theorem logical_not_typing
  (cast_expression expression : parser -> presult)
  (p p1 p2 : parser) (child : ast) :
  accept p LEX_NOT = (true, p1) ->
  cast_expression p1 = Some (Some child, p2) ->
  is_INT (ast_value_type child) = true ->
  unary_expression cast_expression expression p
  = Some (Some (Unop AST_NOT (ast_value_type child) child), p2).
Proof.
  intros Hacc Hcast Hint. unfold unary_expression. cbn [accept_any].
  destruct (accept_true _ _ _ Hacc) as [Hsym Hacd].
  rewrite (accept_mismatch p LEX_ADD) by (rewrite Hsym; discriminate).
  rewrite (accept_mismatch p LEX_SUB) by (rewrite Hsym; discriminate).
  rewrite Hacc, Hcast, Hacd, Hsym. cbn [lex_to_ast_type].
  rewrite Hint. reflexivity.
Qed.

Lemma logical_not_typing_witness :
  unary_expression (cast_expression (expression 2) 2) (expression 2)
    (mk_parser [Lexed (tok_uinteger 1)] None 0 (token LEX_NOT) (token LEX_EOL))
  = Some (Some (Unop AST_NOT U32 (ast_uint_new 1)),
          mk_parser [] None 0 (token LEX_EOL) (tok_uinteger 1)).
Proof.
  exact (logical_not_typing (cast_expression (expression 2) 2) (expression 2)
           (mk_parser [Lexed (tok_uinteger 1)] None 0 (token LEX_NOT)
              (token LEX_EOL))
           (mk_parser [] None 0 (tok_uinteger 1) (token LEX_NOT))
           (mk_parser [] None 0 (token LEX_EOL) (tok_uinteger 1))
           (ast_uint_new 1) eq_refl eq_refl eq_refl).
Defined.

Lemma factor_ruled (expression : parser -> presult) :
  ruled expression -> ruled (factor expression).
Proof.
  intros He p r p' H. unfold factor in H.
  destruct (accept p LEX_IDENTIFIER) as [[|] p1].
  { destruct (symtab p1) as [tab|]; [|discriminate].
    destruct (symbol_table_nlookup tab _) as [[n v]|]; [|discriminate].
    inversion H; subst. reflexivity. }
  destruct (accept p1 LEX_INTEGER) as [[|] p2];
    [inversion H; subst; reflexivity|].
  destruct (accept p2 LEX_UINTEGER) as [[|] p3];
    [inversion H; subst; reflexivity|].
  destruct (accept p3 LEX_FLOATING_POINT) as [[|] p4];
    [inversion H; subst; reflexivity|].
  destruct (accept p4 LEX_LEFT_PARENTHESE) as [[|] p5]; [|discriminate].
  destruct (expression p5) as [[root q]|] eqn:E; [|discriminate].
  inversion H; subst. exact (He _ _ _ E).
Qed.

Lemma unary_expression_ruled (cast_expression expression : parser -> presult) :
  ruled cast_expression -> ruled expression ->
  ruled (unary_expression cast_expression expression).
Proof.
  intros Hc He p r p' H. unfold unary_expression in H.
  destruct (accept_any p _) as [[|] p1].
  - destruct (cast_expression p1) as [[[child|] p2]|] eqn:E; try discriminate.
    pose proof (Hc _ _ _ E) as Hchild.
    destruct (lex_to_ast_type _);
      repeat match type of H with
             | context [if ?c then _ else _] => destruct c
             end;
      inversion H; subst; exact Hchild.
  - exact (factor_ruled expression He _ _ _ H).
Qed.

Lemma cast_expression_ruled (expression : parser -> presult) (fuel : nat) :
  ruled expression -> ruled (cast_expression expression fuel).
Proof.
  intro He. induction fuel as [|fuel IH]; intros p r p' H;
    cbn [cast_expression] in H; [discriminate|].
  pose proof (unary_expression_ruled _ _ IH He) as Hu.
  destruct (lex_token_type_eqb _ _); [|exact (Hu _ _ _ H)].
  destruct (peek_type p) as [t|]; [|exact (Hu _ _ _ H)].
  destruct (accept p _) as [[|] p1]; cbn [negb] in H; [|exact (Hu _ _ _ H)].
  destruct (accept p1 _) as [[|] p2]; cbn [negb] in H; [|exact (Hu _ _ _ H)].
  destruct (accept p2 _) as [[|] p3]; cbn [negb] in H; [|exact (Hu _ _ _ H)].
  destruct (cast_expression expression fuel p3) as [[[child|] p4]|] eqn:E;
    try discriminate.
  inversion H; subst. exact (IH _ _ _ E).
Qed.

Section BinaryRuled.
Variable operand : parser -> presult.
Variable operators : list lex_token_type.
Variable admits : ast_type -> value_type -> value_type -> bool.
Variable result_type : value_type -> value_type -> value_type.
Hypothesis operand_ruled : ruled operand.
Hypothesis admitted_by_rule :
  forall op l r, In op operators ->
    admits (lex_to_ast_type op) l r = true ->
    typing_rule (lex_to_ast_type op) (result_type l r) l r = true.

Lemma binary_body_ruled (lhs : ast) (p : parser) (r : ast) (p' : parser) :
  follows_typing_rule lhs = true ->
  In (ltype (accepted p)) operators ->
  binary_body operand admits result_type lhs p = Some (Some r, p') ->
  follows_typing_rule r = true.
Proof.
  intros Hl Hin H. unfold binary_body in H.
  destruct (operand p) as [[[rhs|] p1]|] eqn:E; try discriminate.
  destruct (admits _ _ _) eqn:Ea; [|discriminate].
  inversion H; subst. cbn [follows_typing_rule ast_binop_new].
  rewrite (admitted_by_rule _ _ _ Hin Ea), Hl, (operand_ruled _ _ _ E).
  reflexivity.
Qed.

Lemma binary_while_ruled (fuel : nat) (root : option ast) (p : parser)
  (r : ast) (p' : parser) :
  (forall t, root = Some t -> follows_typing_rule t = true) ->
  binary_while operand operators admits result_type fuel root p
  = Some (Some r, p') ->
  follows_typing_rule r = true.
Proof.
  revert root p. induction fuel as [|fuel IH]; intros root p Hroot H;
    destruct root as [lhs|]; cbn [binary_while] in H; try discriminate;
    destruct (accept_any p operators) as [[|] p1] eqn:Ea; try discriminate;
    try (inversion H; subst; apply Hroot; reflexivity).
  destruct (binary_body _ _ _ lhs p1) as [[root' p2]|] eqn:Eb;
    [|discriminate].
  apply (IH root' p2); [|exact H].
  intros t ->.
  apply (binary_body_ruled lhs p1 t p2); auto.
  exact (accept_any_true _ _ _ Ea).
Qed.

Lemma binary_loop_production_ruled (fuel : nat) :
  ruled (binary_loop_production operand operators admits result_type fuel).
Proof.
  intros p r p' H. unfold binary_loop_production in H.
  destruct (operand p) as [[root p1]|] eqn:E; [|discriminate].
  apply (binary_while_ruled fuel root p1 r p'); [|exact H].
  intros t ->. exact (operand_ruled _ _ _ E).
Qed.

Lemma binary_once_production_ruled :
  ruled (binary_once_production operand operators admits result_type).
Proof.
  intros p r p' H. unfold binary_once_production in H.
  destruct (operand p) as [[[lhs|] p1]|] eqn:E; cbn [binary_if] in H;
    try discriminate.
  pose proof (operand_ruled _ _ _ E) as Hl.
  destruct (accept_any p1 operators) as [[|] p2] eqn:Ea.
  - apply (binary_body_ruled lhs p2 r p'); auto.
    exact (accept_any_true _ _ _ Ea).
  - inversion H; subst. exact Hl.
Qed.
End BinaryRuled.

Lemma is_INT_numeric (t : value_type) :
  is_INT t = true -> is_INT_or_FPU t = true.
Proof. unfold is_INT_or_FPU. intros ->. reflexivity. Qed.

Ltac operator_cases H :=
  cbn in H;
  repeat match type of H with
         | _ \/ _ => destruct H as [H|H]
         end;
  try contradiction; subst.

Section ProductionsRuled.
Variable expression : parser -> presult.
Variable fuel : nat.
Hypothesis expression_ruled : ruled expression.

Lemma muldiv_expression_ruled : ruled (muldiv_expression expression fuel).
Proof.
  apply binary_loop_production_ruled.
  - apply cast_expression_ruled. exact expression_ruled.
  - intros op l r Hin Ha. operator_cases Hin; cbn in Ha;
      unfold typing_rule; cbn [is_arithmetic lex_to_ast_type];
      rewrite (proj2 (value_type_eqb_eq _ _) eq_refl);
      apply andb_prop in Ha; destruct Ha as [Hl Hr];
      try apply is_INT_numeric in Hl; try apply is_INT_numeric in Hr;
      rewrite Hl, Hr; reflexivity.
Qed.

Lemma addsub_expression_ruled : ruled (addsub_expression expression fuel).
Proof.
  apply binary_loop_production_ruled.
  - exact muldiv_expression_ruled.
  - intros op l r Hin Ha. operator_cases Hin;
      unfold typing_rule; cbn [is_arithmetic lex_to_ast_type];
      rewrite (proj2 (value_type_eqb_eq _ _) eq_refl);
      exact Ha.
Qed.

Lemma shift_expression_ruled : ruled (shift_expression expression fuel).
Proof.
  apply binary_loop_production_ruled.
  - exact addsub_expression_ruled.
  - intros op l r Hin Ha. operator_cases Hin; reflexivity.
Qed.

Lemma relational_expression_ruled :
  ruled (relational_expression expression fuel).
Proof.
  apply binary_once_production_ruled.
  - exact shift_expression_ruled.
  - intros op l r Hin Ha. operator_cases Hin; exact Ha.
Qed.

Lemma equality_expression_ruled :
  ruled (equality_expression expression fuel).
Proof.
  apply binary_once_production_ruled.
  - exact relational_expression_ruled.
  - intros op l r Hin Ha. operator_cases Hin; exact Ha.
Qed.

Lemma and_expression_ruled : ruled (and_expression expression fuel).
Proof.
  apply binary_loop_production_ruled.
  - exact equality_expression_ruled.
  - intros op l r Hin Ha. operator_cases Hin; reflexivity.
Qed.

Lemma xor_expression_ruled : ruled (xor_expression expression fuel).
Proof.
  apply binary_loop_production_ruled.
  - exact and_expression_ruled.
  - intros op l r Hin Ha. operator_cases Hin; reflexivity.
Qed.

Lemma or_expression_ruled : ruled (or_expression expression fuel).
Proof.
  apply binary_loop_production_ruled.
  - exact xor_expression_ruled.
  - intros op l r Hin Ha. operator_cases Hin; reflexivity.
Qed.

Lemma conditional_expression_ruled :
  ruled (conditional_expression expression fuel).
Proof.
  apply binary_loop_production_ruled.
  - exact or_expression_ruled.
  - intros op l r Hin Ha. operator_cases Hin; reflexivity.
Qed.
End ProductionsRuled.

Lemma expression_ruled (fuel : nat) : ruled (expression fuel).
Proof.
  induction fuel as [|fuel IH]; intros p r p' H; cbn [expression] in H;
    [discriminate|].
  destruct (lex_token_type_eqb _ _); [discriminate|].
  exact (conditional_expression_ruled _ _ IH _ _ _ H).
Qed.

Lemma parse_expression_ruled (line : list lexeme) (tab : option symbol_table)
  (errs : nat) (t : ast) :
  parse_expression line tab = Some (errs, Some t) ->
  follows_typing_rule t = true.
Proof.
  unfold parse_expression. intro H.
  destruct (next_symbol _) as [ok p].
  destruct (expression _ p) as [[out p1]|] eqn:E; [|discriminate].
  inversion H as [[He Ht]]. clear H He.
  destruct (0 <? _)%nat; [discriminate|]. subst out.
  exact (expression_ruled _ _ _ _ E).
Qed.

Ltac enumerate H :=
  cbn in H;
  repeat match type of H with
         | _ \/ _ => destruct H as [H|H]
         end;
  try contradiction; subst.

Lemma arithmetic_lines_typed (a b : value_type) (op : lex_token_type) :
  In a scalar_types -> In b scalar_types ->
  In op [LEX_ADD; LEX_SUB; LEX_MUL; LEX_DIV] ->
  parse_expression (typed_line a op b) None
  = Some (0%nat, Some (typed_tree a op b (HIGHER_TYPE a b))).
Proof.
  intros Ha Hb Hop. enumerate Ha; enumerate Hb; enumerate Hop;
    vm_compute; reflexivity.
Qed.

Lemma modulo_lines_typed (a b : value_type) :
  In a integer_types -> In b integer_types ->
  parse_expression (typed_line a LEX_MOD b) None
  = Some (0%nat, Some (typed_tree a LEX_MOD b (HIGHER_TYPE a b))).
Proof.
  intros Ha Hb. enumerate Ha; enumerate Hb; vm_compute; reflexivity.
Qed.

Lemma relational_lines_typed (a b : value_type) (op : lex_token_type) :
  In a scalar_types -> In b scalar_types ->
  In op [LEX_EQ; LEX_NEQ; LEX_LT; LEX_GT; LEX_LE; LEX_GE] ->
  parse_expression (typed_line a op b) None
  = Some (0%nat, Some (typed_tree a op b S32)).
Proof.
  intros Ha Hb Hop. enumerate Ha; enumerate Hb; enumerate Hop;
    vm_compute; reflexivity.
Qed.

Lemma HIGHER_TYPE_lattice (a b : value_type) :
  In a scalar_types -> In b scalar_types ->
  (HIGHER_TYPE a b = a \/ HIGHER_TYPE a b = b) /\
  HIGHER_TYPE a b = HIGHER_TYPE b a /\
  (is_FPU a = true -> is_INT b = true -> HIGHER_TYPE a b = a) /\
  (is_FPU a = is_FPU b -> value_type_bits a < value_type_bits b ->
   HIGHER_TYPE a b = b) /\
  (is_INT a = true -> is_INT b = true ->
   value_type_bits a = value_type_bits b ->
   is_signed a = true -> is_signed b = false -> HIGHER_TYPE a b = b).
Proof.
  intros Ha Hb. enumerate Ha; enumerate Hb;
    (split; [cbn; tauto|]);
    (split; [reflexivity|]); repeat split; cbn; intros;
    try reflexivity; try discriminate; try lia.
Qed.

(** C5.  parse_expression returns for every line, and every tree it
    returns follows the typing rule at each of its binary nodes: an
    arithmetic node ([+ - * / %]) over numeric operands has the type
    [HIGHER_TYPE] of its operand types, a relational or equality node has
    s32.  The parser does accept the operators: for all scalar types A and
    B the line [(A)1 op (B)1] parses without error to a node of type
    [HIGHER_TYPE A B] for [+ - * /] (and for [%] when A and B are integer
    types) and of type s32 for the six comparisons.  [HIGHER_TYPE] picks
    one of its arguments, in either order the same one: the floating one
    against an integer, the wider one within a family, the unsigned one at
    equal width.  The comparison handlers of every row of value.c store an
    s32 as well. *)
Theorem promotion_consistency :
  (forall (line : list lexeme) (tab : option symbol_table),
      exists (errs : nat) (out : option ast),
        parse_expression line tab = Some (errs, out)) /\
  (forall (line : list lexeme) (tab : option symbol_table) (errs : nat)
          (t : ast),
      parse_expression line tab = Some (errs, Some t) ->
      follows_typing_rule t = true) /\
  (forall (a b : value_type) (op : lex_token_type),
      In a scalar_types -> In b scalar_types ->
      In op [LEX_ADD; LEX_SUB; LEX_MUL; LEX_DIV] ->
      parse_expression (typed_line a op b) None
      = Some (0%nat, Some (typed_tree a op b (HIGHER_TYPE a b)))) /\
  (forall a b : value_type,
      In a integer_types -> In b integer_types ->
      parse_expression (typed_line a LEX_MOD b) None
      = Some (0%nat, Some (typed_tree a LEX_MOD b (HIGHER_TYPE a b)))) /\
  (forall (a b : value_type) (op : lex_token_type),
      In a scalar_types -> In b scalar_types ->
      In op [LEX_EQ; LEX_NEQ; LEX_LT; LEX_GT; LEX_LE; LEX_GE] ->
      parse_expression (typed_line a op b) None
      = Some (0%nat, Some (typed_tree a op b S32))) /\
  (forall a b : value_type,
      In a scalar_types -> In b scalar_types ->
      (HIGHER_TYPE a b = a \/ HIGHER_TYPE a b = b) /\
      HIGHER_TYPE a b = HIGHER_TYPE b a /\
      (is_FPU a = true -> is_INT b = true -> HIGHER_TYPE a b = a) /\
      (is_FPU a = is_FPU b -> value_type_bits a < value_type_bits b ->
       HIGHER_TYPE a b = b) /\
      (is_INT a = true -> is_INT b = true ->
       value_type_bits a = value_type_bits b ->
       is_signed a = true -> is_signed b = false -> HIGHER_TYPE a b = b)) /\
  (forall (t : value_type) (ops : value_operations) (nt : ast_type)
          (method : value -> value -> result value) (a b r : value),
      value_ops t = Some ops -> is_relational nt = true ->
      binary_method nt ops = Some method ->
      method a b = Ok r -> type r = S32).
Proof.
  split; [exact parse_expression_returns|].
  split; [exact parse_expression_ruled|].
  split; [exact arithmetic_lines_typed|].
  split; [exact modulo_lines_typed|].
  split; [exact relational_lines_typed|].
  split; [exact HIGHER_TYPE_lattice | exact relational_handlers_give_s32].
Qed.

Lemma promotion_consistency_witness :
  follows_typing_rule
    (Binop AST_ADD F64
       (Value S32 (mk_value S32 1))
       (Binop AST_MUL F64 (Value U32 (mk_value U32 2))
          (Value F64 (mk_value F64 0x4008000000000000)))) = true.
Proof.
  apply (proj1 (proj2 promotion_consistency)
           [Lexed (tok_integer 1); Lexed (token LEX_ADD);
            Lexed (tok_uinteger 2); Lexed (token LEX_MUL);
            Lexed (tok_fp 0x4008000000000000)] None 0%nat).
  vm_compute. reflexivity.
Defined.

(** ** Constant folding *)

Lemma evaluate_unop_congruence (tab : symbol_table) (nt : ast_type)
  (vt : value_type) (c c' : ast) :
  ast_evaluate tab c' = ast_evaluate tab c ->
  ast_evaluate tab (Unop nt vt c') = ast_evaluate tab (Unop nt vt c).
Proof. intro H. destruct nt; cbn [ast_evaluate]; rewrite H; reflexivity. Qed.

Lemma evaluate_binop_congruence (tab : symbol_table) (nt : ast_type)
  (vt : value_type) (l l' r r' : ast) :
  ast_evaluate tab l' = ast_evaluate tab l ->
  ast_evaluate tab r' = ast_evaluate tab r ->
  ast_evaluate tab (Binop nt vt l' r') = ast_evaluate tab (Binop nt vt l r).
Proof.
  intros Hl Hr. destruct nt; cbn [ast_evaluate]; rewrite Hl, Hr; reflexivity.
Qed.

Lemma fold_constant_sound (tab : symbol_table) (node folded : ast) :
  fold_constant tab node = Ok folded ->
  ast_evaluate tab folded = ast_evaluate tab node.
Proof.
  unfold fold_constant. intro H.
  destruct (ast_evaluate tab node) as [v| |] eqn:E; inversion H; subst.
  - reflexivity.
  - exact E.
Qed.

Lemma ast_optimize_sound (tab : symbol_table) (t t' : ast) :
  ast_optimize tab t = Ok t' -> ast_evaluate tab t' = ast_evaluate tab t.
Proof.
  revert t'. induction t as [vt v | vt name | nt vt c IHc | nt vt l IHl r IHr];
    intros t' H; cbn [ast_optimize] in H.
  - inversion H; subst. reflexivity.
  - destruct (symbol_table_nlookup tab name) as [[n v]|] eqn:E;
      inversion H; subst. cbn [ast_evaluate].
    assert (En : n = name).
    { clear H. induction tab as [|[m w] rest IH]; cbn in E; [discriminate|].
      destruct (String.eqb m name) eqn:Em.
      - inversion E; subst. apply String.eqb_eq. exact Em.
      - exact (IH E). }
    subst n. rewrite E. reflexivity.
  - destruct (ast_optimize tab c) as [child| |]; cbn [bind] in H;
      try discriminate.
    specialize (IHc child eq_refl).
    cbn [ast_unop_new set_value_type] in H.
    rewrite <- (evaluate_unop_congruence tab nt vt c child IHc).
    destruct (ast_is_constant child);
      [exact (fold_constant_sound _ _ _ H) | inversion H; reflexivity].
  - destruct (ast_optimize tab l) as [lhs| |]; cbn [bind] in H;
      try discriminate.
    destruct (ast_optimize tab r) as [rhs| |]; cbn [bind] in H;
      try discriminate.
    specialize (IHl lhs eq_refl). specialize (IHr rhs eq_refl).
    cbn [ast_binop_new set_value_type] in H.
    rewrite <- (evaluate_binop_congruence tab nt vt l lhs r rhs IHl IHr).
    destruct (ast_is_constant lhs && ast_is_constant rhs);
      [exact (fold_constant_sound _ _ _ H) | inversion H; reflexivity].
Qed.

Lemma defined_everywhere_root (tab : symbol_table) (t : ast) :
  defined_everywhere tab t = true -> ast_evaluate tab t <> Undef.
Proof.
  intros H E. destruct t; cbn [defined_everywhere] in H; rewrite E in H;
    discriminate.
Qed.

Lemma defined_everywhere_unop (tab : symbol_table) (nt : ast_type)
  (vt : value_type) (c : ast) :
  defined_everywhere tab (Unop nt vt c) = true ->
  defined_everywhere tab c = true.
Proof.
  intro H. cbn [defined_everywhere] in H.
  destruct (ast_evaluate tab (Unop nt vt c)); [exact H | exact H | discriminate].
Qed.

Lemma defined_everywhere_binop (tab : symbol_table) (nt : ast_type)
  (vt : value_type) (l r : ast) :
  defined_everywhere tab (Binop nt vt l r) = true ->
  defined_everywhere tab l = true /\ defined_everywhere tab r = true.
Proof.
  intro H. cbn [defined_everywhere] in H.
  destruct (ast_evaluate tab (Binop nt vt l r));
    [apply andb_prop; exact H | apply andb_prop; exact H | discriminate].
Qed.


(** X26.  Whenever the optimizer returns a tree, evaluating it gives what
    evaluating the tree it was given gives: the same value with the same
    type, or the same failure.  This holds of every tree, closed or not,
    and for every binding of its variables. *)
Theorem optimized_tree_evaluates_alike (tab : symbol_table) (t t' : ast) :
  ast_optimize tab t = Ok t' -> ast_evaluate tab t' = ast_evaluate tab t.
Proof. apply ast_optimize_sound. Qed.

Example parse_1_add_2_mul_3 :
  parse_expression line_1_add_2_mul_3 None
  = Some (0%nat, Some tree_1_add_2_mul_3) /\
  ast_evaluate [] tree_1_add_2_mul_3 = Ok (mk_value S32 7) /\
  ast_optimize [] tree_1_add_2_mul_3 = Ok (ast_value_new (mk_value S32 7)).
Proof. repeat split; vm_compute; reflexivity. Qed.

Lemma optimized_tree_evaluates_alike_witness :
  ast_evaluate [] (ast_value_new (mk_value S32 7))
  = ast_evaluate [] tree_1_add_2_mul_3.
Proof.
  apply (optimized_tree_evaluates_alike [] tree_1_add_2_mul_3
           (ast_value_new (mk_value S32 7))).
  vm_compute. reflexivity.
Defined.

Lemma value_cast_tag (target : value_type) (v r : value) :
  value_cast target v = Ok r -> type r = target.
Proof.
  unfold value_cast.
  destruct (type v); cbn [value_casts_of]; try discriminate;
    destruct target; cbn -[Z.pow]; try discriminate;
    (lazymatch goal with
     | |- ?cast _ = _ -> _ => unfold cast
     end);
    intro H; apply bind_ok in H; destruct H as [x [_ H]];
    first [ exact (value_init_int_type _ _ _ H) | inversion H; reflexivity ].
Qed.

(** An operator node evaluates to a value of its declared type. *)
Lemma ast_evaluate_unop_type (tab : symbol_table) (nt : ast_type)
  (vt : value_type) (c : ast) (v : value) :
  ast_evaluate tab (Unop nt vt c) = Ok v -> type v = vt.
Proof.
  intro H.
  destruct nt; cbn [ast_evaluate] in H;
    apply bind_ok in H; destruct H as [cv [_ H]];
    try (apply bind_ok in H; destruct H as [out [_ H]]);
    exact (value_cast_tag _ _ _ H).
Qed.

Lemma ast_evaluate_binop_type (tab : symbol_table) (nt : ast_type)
  (vt : value_type) (l r : ast) (v : value) :
  ast_evaluate tab (Binop nt vt l r) = Ok v -> type v = vt.
Proof.
  intro H.
  destruct nt; cbn [ast_evaluate] in H;
    apply bind_ok in H; destruct H as [lv [_ H]];
    try (destruct (value_is_zero lv =? 1); cbn [negb] in H);
    try (exact (value_cast_tag _ _ _ H));
    apply bind_ok in H; destruct H as [rv [_ H]];
    try (exact (value_cast_tag _ _ _ H));
    apply bind_ok in H; destruct H as [out [_ H]];
    exact (value_cast_tag _ _ _ H).
Qed.

(** What fold_constant leaves of an operator node: the node, or a literal
    that holds the value of the node and has its declared type. *)
Lemma fold_constant_type (tab : symbol_table) (node t' : ast) :
  ast_is_constant node = false ->
  (forall v, ast_evaluate tab node = Ok v -> type v = ast_value_type node) ->
  fold_constant tab node = Ok t' ->
  ast_value_type t' = ast_value_type node /\
  forall vt v, t' = Value vt v ->
    type v = ast_value_type node /\ ast_evaluate tab node = Ok v.
Proof.
  intros Hn Hty H. unfold fold_constant in H.
  destruct (ast_evaluate tab node) as [v| |] eqn:E; inversion H; subst.
  - pose proof (Hty v eq_refl) as Ht.
    split; [exact Ht|].
    intros vt w Hw. inversion Hw; subst. split; [exact Ht | reflexivity].
  - split; [reflexivity|].
    intros vt w Hw. subst t'. discriminate.
Qed.

(** C2.  The tree the optimizer returns has at its root the declared type
    of the root it was given, and the literal that replaces a folded node
    holds a value of the declared type of that node.  ast_value_optimize
    copies the type to the copy of a literal; ast_var_new gives the copy of
    a variable the type of its symbol, the type the variable had from
    ast_var_new; a node that is rebuilt gets [this->value_type]; and the
    literal of a folded node is made by ast_value_new from the value
    ast_evaluate gave, which is of the declared type of the node. *)
Theorem optimizer_preserves_result_type (tab : symbol_table) (t t' : ast) :
  root_has_symbol_type tab t = true ->
  ast_optimize tab t = Ok t' ->
  ast_value_type t' = ast_value_type t /\
  (ast_is_constant t = false ->
   forall vt v, t' = Value vt v ->
     type v = ast_value_type t /\ ast_evaluate tab t = Ok v).
Proof.
  intros Hroot H. pose proof (ast_optimize_sound tab t t' H) as Hs.
  destruct t as [vt v | vt name | nt vt c | nt vt l r]; cbn [ast_optimize] in H.
  - inversion H; subst. split; [reflexivity | discriminate].
  - cbn [root_has_symbol_type variable_rule] in Hroot.
    destruct (symbol_table_nlookup tab name) as [[n w]|]; [|discriminate].
    apply andb_prop in Hroot. destruct Hroot as [_ Hty].
    apply value_type_eqb_eq in Hty. inversion H; subst.
    split; [reflexivity|]. intros _ vt' v Hv. discriminate.
  - destruct (ast_optimize tab c) as [child| |] eqn:Ec; cbn [bind] in H;
      try discriminate.
    cbn [ast_unop_new set_value_type] in H.
    assert (Hfold : fold_constant tab (Unop nt vt child) = Ok t' \/
                    t' = Unop nt vt child).
    { destruct (ast_is_constant child);
        [left; exact H | right; inversion H; reflexivity]. }
    destruct Hfold as [Hf| ->].
    + destruct (fold_constant_type tab (Unop nt vt child) t' eq_refl
                  (ast_evaluate_unop_type tab nt vt child) Hf) as [Hty Hlit].
      split; [exact Hty|]. intros _ vt' v Hv.
      destruct (Hlit vt' v Hv) as [Hv1 Hv2]. split; [exact Hv1|].
      rewrite <- Hs. subst t'. reflexivity.
    + split; [reflexivity|]. intros _ vt' v Hv. discriminate.
  - destruct (ast_optimize tab l) as [lhs| |] eqn:El; cbn [bind] in H;
      try discriminate.
    destruct (ast_optimize tab r) as [rhs| |] eqn:Er; cbn [bind] in H;
      try discriminate.
    cbn [ast_binop_new set_value_type] in H.
    assert (Hfold : fold_constant tab (Binop nt vt lhs rhs) = Ok t' \/
                    t' = Binop nt vt lhs rhs).
    { destruct (ast_is_constant lhs && ast_is_constant rhs);
        [left; exact H | right; inversion H; reflexivity]. }
    destruct Hfold as [Hf| ->].
    + destruct (fold_constant_type tab (Binop nt vt lhs rhs) t' eq_refl
                  (ast_evaluate_binop_type tab nt vt lhs rhs) Hf)
        as [Hty Hlit].
      split; [exact Hty|]. intros _ vt' v Hv.
      destruct (Hlit vt' v Hv) as [Hv1 Hv2]. split; [exact Hv1|].
      rewrite <- Hs. subst t'. reflexivity.
    + split; [reflexivity|]. intros _ vt' v Hv. discriminate.
Qed.

(** [-(s8)1], declared s8: the s8 row negates through dummy_neg, which
    gives an s32, and the node evaluates to the s8 value -1; the folded
    literal has type s8.  [-(f32)1] folds to a literal of type f32. *)
Example fold_neg_s8 :
  parse_expression (line_neg S8) None = Some (0%nat, Some (tree_neg S8)) /\
  ast_optimize [] (tree_neg S8) = Ok (Value S8 (mk_value S8 0xFF)) /\
  parse_expression (line_neg F32) None = Some (0%nat, Some (tree_neg F32)) /\
  ast_optimize [] (tree_neg F32) = Ok (Value F32 (mk_value F32 0xBF800000)).
Proof. repeat split; vm_compute; reflexivity. Qed.

Lemma optimizer_preserves_result_type_witness :
  ast_value_type (Value S8 (mk_value S8 0xFF)) = ast_value_type (tree_neg S8) /\
  (ast_is_constant (tree_neg S8) = false ->
   forall vt v, Value S8 (mk_value S8 0xFF) = Value vt v ->
     type v = ast_value_type (tree_neg S8) /\
     ast_evaluate [] (tree_neg S8) = Ok v).
Proof.
  apply (optimizer_preserves_result_type [] (tree_neg S8)
           (Value S8 (mk_value S8 0xFF))).
  - reflexivity.
  - vm_compute. reflexivity.
Defined.

(* ===================================================================== *)
(** * Further properties of the code *)
(* ===================================================================== *)

(** ** value.c: stored width, casts and operators of the integer rows *)

Lemma value_type_bits_pos (t : value_type) : 0 < value_type_bits t.
Proof. destruct t; cbn; lia. Qed.

Lemma wrap_fits (t : value_type) (x : Z) : fits_tag (mk_value t (wrap (value_type_bits t) x)).
Proof.
  unfold fits_tag; cbn [type data].
  apply Z.mod_pos_bound. apply Z.pow_pos_nonneg; [lia | pose proof (value_type_bits_pos t); lia].
Qed.

Lemma pow2_pos (w : Z) : 0 <= w -> 0 < 2 ^ w.
Proof. intro; apply Z.pow_pos_nonneg; lia. Qed.

Lemma pow2_half (w : Z) : 0 < w -> 2 ^ w = 2 * 2 ^ (w - 1).
Proof.
  intro Hw. replace w with (Z.succ (w - 1)) at 1 by lia.
  rewrite Z.pow_succ_r by lia. reflexivity.
Qed.

Lemma signed_mod (w x : Z) : 0 < w -> signed w x mod 2 ^ w = x mod 2 ^ w.
Proof.
  intro Hw. unfold signed. destruct (x <? 2 ^ (w - 1)); [reflexivity|].
  replace (x - 2 ^ w) with (x + (-1) * 2 ^ w) by lia.
  apply Z_mod_plus_full.
Qed.

Lemma signed_range (w x : Z) :
  0 < w -> 0 <= x < 2 ^ w -> - 2 ^ (w - 1) <= signed w x <= 2 ^ (w - 1) - 1.
Proof.
  intros Hw Hx. pose proof (pow2_half w Hw). unfold signed.
  destruct (x <? 2 ^ (w - 1)) eqn:C;
    [apply Z.ltb_lt in C | apply Z.ltb_ge in C]; lia.
Qed.

Lemma signed_of_wrap (w a : Z) :
  0 < w -> - 2 ^ (w - 1) <= a <= 2 ^ (w - 1) - 1 -> signed w (wrap w a) = a.
Proof.
  intros Hw Ha. pose proof (signed_wrap w a Hw) as H.
  unfold wrap in *. rewrite Z.mod_mod in H by (pose proof (pow2_pos w); lia).
  apply H. lia.
Qed.

Lemma int_value_mod (v : value) :
  fits_tag v -> int_value v mod 2 ^ value_type_bits (type v) = data v.
Proof.
  intro Hf. unfold int_value. pose proof (value_type_bits_pos (type v)).
  destruct (is_signed (type v)).
  - rewrite signed_mod by assumption. apply Z.mod_small. exact Hf.
  - apply Z.mod_small. exact Hf.
Qed.

Lemma int_value_range (v : value) :
  fits_tag v -> int_min (type v) <= int_value v <= int_max (type v).
Proof.
  intro Hf. unfold int_value, int_min, int_max.
  pose proof (value_type_bits_pos (type v)).
  destruct (is_signed (type v)).
  - apply signed_range; assumption.
  - unfold fits_tag in Hf. lia.
Qed.

Lemma int_value_of_wrap (t : value_type) (x : Z) :
  int_min t <= x <= int_max t ->
  int_value (mk_value t (wrap (value_type_bits t) x)) = x.
Proof.
  unfold int_value, int_min, int_max; cbn [type data].
  pose proof (value_type_bits_pos t).
  destruct (is_signed t); intro Hx.
  - apply signed_of_wrap; assumption.
  - unfold wrap. apply Z.mod_small. lia.
Qed.

Lemma int_value_wrap_mod (t : value_type) (x : Z) :
  int_value (mk_value t (wrap (value_type_bits t) x)) mod 2 ^ value_type_bits t
  = x mod 2 ^ value_type_bits t.
Proof.
  pose proof (int_value_mod (mk_value t (wrap (value_type_bits t) x))
                (wrap_fits t x)) as H.
  cbn [type data] in H. rewrite H. reflexivity.
Qed.

(** The member of its own type, read from a value whose bits fit its tag. *)
Lemma data_int_own (v : value) :
  fits_tag v ->
  data_int (value_type_bits (type v)) (is_signed (type v)) v
  = Ok (int_value v).
Proof.
  intro Hf. unfold data_int, member_bits, int_value.
  rewrite Z.leb_refl. cbn [bind]. rewrite Z.mod_small by exact Hf.
  reflexivity.
Qed.

Lemma value_cast_int (target : value_type) (v : value) :
  In (type v) integer_types -> In target integer_types -> fits_tag v ->
  value_cast target v
  = Ok (mk_value target (wrap (value_type_bits target) (int_value v))).
Proof.
  intros Hs Ht Hf. pose proof (data_int_own v Hf) as Hd.
  unfold value_cast. destruct v as [tv d]. cbn [type data] in *.
  cbn in Hs; repeat (destruct Hs as [Hs|Hs]; [subst tv|]); try contradiction;
    cbn [value_casts_of];
    cbn in Ht; repeat (destruct Ht as [Ht|Ht]; [subst target|]);
    try contradiction; cbn [cast_member cast_to_s8 cast_to_u8 cast_to_s16
      cast_to_u16 cast_to_s32 cast_to_u32 cast_to_s64 cast_to_u64
      s8_casts u8_casts s16_casts u16_casts s32_casts u32_casts s64_casts
      u64_casts];
    (lazymatch goal with
     | |- ?cast _ = _ => unfold cast
     end);
    unfold data_s8, data_u8, data_s16, data_u16, data_s32, data_u32,
      data_s64, data_u64;
    cbn [value_type_bits is_signed] in Hd; rewrite Hd; reflexivity.
Qed.

Lemma pow2_divide (a b : Z) : 0 <= a <= b -> (2 ^ a | 2 ^ b).
Proof.
  intro H. exists (2 ^ (b - a)). rewrite <- Z.pow_add_r by lia.
  f_equal. lia.
Qed.

(** X5.  A cast between integer types always returns, and gives the number
    of the operand reduced modulo two to the width of the target: the
    number itself whenever the target type can hold it. *)
Theorem integer_cast_keeps_the_number (target : value_type) (v : value) :
  In (type v) integer_types -> In target integer_types -> fits_tag v ->
  exists r,
    value_cast target v = Ok r /\ type r = target /\ fits_tag r /\
    (int_value r - int_value v) mod 2 ^ value_type_bits target = 0 /\
    (int_min target <= int_value v <= int_max target ->
     int_value r = int_value v).
Proof.
  intros Hs Ht Hf. eexists. split; [apply value_cast_int; assumption|].
  split; [reflexivity|]. split; [apply wrap_fits|]. split.
  - rewrite Zminus_mod, int_value_wrap_mod, <- Zminus_mod, Z.sub_diag.
    apply Z.mod_0_l. pose proof (pow2_pos (value_type_bits target)).
    pose proof (value_type_bits_pos target). lia.
  - apply int_value_of_wrap.
Qed.

Lemma integer_cast_keeps_the_number_witness :
  exists r,
    value_cast S64 (mk_value S8 0x80) = Ok r /\ type r = S64 /\ fits_tag r /\
    (int_value r - int_value (mk_value S8 0x80)) mod 2 ^ value_type_bits S64 = 0 /\
    (int_min S64 <= int_value (mk_value S8 0x80) <= int_max S64 ->
     int_value r = int_value (mk_value S8 0x80)).
Proof.
  apply (integer_cast_keeps_the_number S64 (mk_value S8 0x80)).
  - cbn; tauto.
  - cbn; tauto.
  - unfold fits_tag; cbn; lia.
Defined.

(** X6.  Casting an integer value to an integer type at least as wide and
    back gives the value again, whatever the signedness of the two
    types. *)
Theorem widening_cast_round_trip (wide : value_type) (v : value) :
  In (type v) integer_types -> In wide integer_types -> fits_tag v ->
  value_type_bits (type v) <= value_type_bits wide ->
  (w <- value_cast wide v ;; value_cast (type v) w) = Ok v.
Proof.
  intros Hs Ht Hf Hle.
  rewrite (value_cast_int wide v Hs Ht Hf). cbn [bind].
  rewrite value_cast_int; [|exact Ht|exact Hs|apply wrap_fits].
  destruct v as [t d]. cbn [type data] in *. f_equal. f_equal.
  unfold wrap at 1.
  pose proof (value_type_bits_pos t).
  rewrite <- (Z.mod_mod_divide _ (2 ^ value_type_bits wide))
    by (apply pow2_divide; lia).
  rewrite int_value_wrap_mod.
  rewrite Z.mod_mod_divide by (apply pow2_divide; lia).
  exact (int_value_mod (mk_value t d) Hf).
Qed.

Lemma widening_cast_round_trip_witness :
  (w <- value_cast U32 (mk_value S8 0xFF) ;; value_cast S8 w)
  = Ok (mk_value S8 0xFF).
Proof.
  apply (widening_cast_round_trip U32 (mk_value S8 0xFF)).
  - cbn; tauto.
  - cbn; tauto.
  - unfold fits_tag; cbn; lia.
  - cbn; lia.
Defined.

Lemma int_unop_own (t : value_type) (f : Z -> Z) (a : value) :
  type a = t -> fits_tag a ->
  int_unop t f a = Ok (mk_value t (wrap (value_type_bits t) (f (int_value a)))).
Proof.
  intros Ha Hf. unfold int_unop. subst t.
  rewrite (data_int_own a Hf). reflexivity.
Qed.

Lemma int_binop_own (t : value_type) (f : Z -> Z -> Z) (a b : value) :
  type a = t -> type b = t -> fits_tag a -> fits_tag b ->
  int_binop t f a b
  = Ok (mk_value t (wrap (value_type_bits t) (f (int_value a) (int_value b)))).
Proof.
  intros Ha Hb Hfa Hfb. unfold int_binop.
  pose proof (data_int_own a Hfa) as Da. pose proof (data_int_own b Hfb) as Db.
  rewrite Ha in Da. rewrite Hb in Db. rewrite Da, Db. reflexivity.
Qed.

Lemma int_relop_own (t : value_type) (f : Z -> Z -> bool) (a b : value) :
  type a = t -> type b = t -> fits_tag a -> fits_tag b ->
  int_relop t f a b = Ok (truth (f (int_value a) (int_value b))).
Proof.
  intros Ha Hb Hfa Hfb. unfold int_relop.
  pose proof (data_int_own a Hfa) as Da. pose proof (data_int_own b Hfb) as Db.
  rewrite Ha in Da. rewrite Hb in Db. rewrite Da, Db. reflexivity.
Qed.

Lemma int_value_inj (a b : value) :
  type a = type b -> fits_tag a -> fits_tag b ->
  int_value a = int_value b -> a = b.
Proof.
  intros Ht Ha Hb H.
  pose proof (int_value_mod a Ha) as Ma. pose proof (int_value_mod b Hb) as Mb.
  rewrite H, Ht, Mb in Ma. destruct a, b; cbn in *; congruence.
Qed.

(** X7.  The comparison handlers of s32, u32, s64 and u64 order the numbers
    the operands stand for, signed rows as signed numbers: of [<], [==] and
    [>] exactly one holds, [<=] and [>=] are their unions, [!=] is the
    negation of [==], [a > b] is [b < a], and [==] holds of equal values
    only. *)
Theorem integer_comparisons_order_the_numbers
  (t : value_type) (ops : value_operations) (a b : value) :
  In t wide_integer_types -> value_ops t = Some ops ->
  type a = t -> type b = t -> fits_tag a -> fits_tag b ->
  exists less same more : bool,
    op_lt ops a b = Ok (truth less) /\ op_eq ops a b = Ok (truth same) /\
    op_gt ops a b = Ok (truth more) /\
    op_le ops a b = Ok (truth (less || same)) /\
    op_ge ops a b = Ok (truth (more || same)) /\
    op_neq ops a b = Ok (truth (negb same)) /\
    op_gt ops b a = Ok (truth less) /\
    (same = true <-> a = b) /\
    (less = true <-> int_value a < int_value b) /\
    ((if less then 1 else 0) + (if same then 1 else 0)
     + (if more then 1 else 0) = 1).
Proof.
  intros Ht Hops Ha Hb Hfa Hfb.
  exists (int_value a <? int_value b), (int_value a =? int_value b),
    (int_value a >? int_value b).
  assert (R : forall f, int_relop t f a b = Ok (truth (f (int_value a) (int_value b))))
    by (intro f; apply int_relop_own; assumption).
  assert (R' : forall f, int_relop t f b a = Ok (truth (f (int_value b) (int_value a))))
    by (intro f; apply int_relop_own; assumption).
  assert (Hinj : (int_value a =? int_value b) = true <-> a = b).
  { rewrite Z.eqb_eq. split; [|congruence].
    apply int_value_inj; congruence. }
  cbn in Ht; repeat (destruct Ht as [Ht|Ht]; [subst t|]); try contradiction;
    cbn in Hops; inversion Hops; subst ops;
    cbn -[int_relop int_value Z.ltb Z.gtb Z.eqb Z.leb Z.geb Z_neqb truth];
    unfold s32_lt, s32_eq, s32_gt, s32_le, s32_ge, s32_neq,
      u32_lt, u32_eq, u32_gt, u32_le, u32_ge, u32_neq,
      s64_lt, s64_eq, s64_gt, s64_le, s64_ge, s64_neq,
      u64_lt, u64_eq, u64_gt, u64_le, u64_ge, u64_neq;
    rewrite !R, !R'; unfold Z_neqb;
    (repeat split; try apply Hinj; try (apply Z.ltb_lt; assumption);
     try (intro; apply Z.ltb_lt; assumption);
     try (f_equal; f_equal;
          destruct (Z.ltb_spec (int_value a) (int_value b));
          destruct (Z.eqb_spec (int_value a) (int_value b));
          destruct (Z.gtb_spec (int_value a) (int_value b));
          destruct (Z.leb_spec (int_value a) (int_value b));
          destruct (Z.geb_spec (int_value a) (int_value b));
          destruct (Z.gtb_spec (int_value b) (int_value a));
          cbn; first [reflexivity | lia]);
     try (destruct (Z.ltb_spec (int_value a) (int_value b));
          destruct (Z.eqb_spec (int_value a) (int_value b));
          destruct (Z.gtb_spec (int_value a) (int_value b)); lia)).
Qed.

Lemma integer_comparisons_order_the_numbers_witness :
  exists less same more : bool,
    op_lt U32_ops (mk_value U32 3) (mk_value U32 0xFFFFFFFF) = Ok (truth less) /\
    op_eq U32_ops (mk_value U32 3) (mk_value U32 0xFFFFFFFF) = Ok (truth same) /\
    op_gt U32_ops (mk_value U32 3) (mk_value U32 0xFFFFFFFF) = Ok (truth more) /\
    op_le U32_ops (mk_value U32 3) (mk_value U32 0xFFFFFFFF)
    = Ok (truth (less || same)) /\
    op_ge U32_ops (mk_value U32 3) (mk_value U32 0xFFFFFFFF)
    = Ok (truth (more || same)) /\
    op_neq U32_ops (mk_value U32 3) (mk_value U32 0xFFFFFFFF)
    = Ok (truth (negb same)) /\
    op_gt U32_ops (mk_value U32 0xFFFFFFFF) (mk_value U32 3) = Ok (truth less) /\
    (same = true <-> mk_value U32 3 = mk_value U32 0xFFFFFFFF) /\
    (less = true <->
     int_value (mk_value U32 3) < int_value (mk_value U32 0xFFFFFFFF)) /\
    ((if less then 1 else 0) + (if same then 1 else 0)
     + (if more then 1 else 0) = 1).
Proof.
  apply (integer_comparisons_order_the_numbers U32 U32_ops
           (mk_value U32 3) (mk_value U32 0xFFFFFFFF)).
  - cbn; tauto.
  - reflexivity.
  - reflexivity.
  - reflexivity.
  - unfold fits_tag; cbn; lia.
  - unfold fits_tag; cbn; lia.
Defined.

Lemma wrap_int_value (t : value_type) (a : value) :
  type a = t -> fits_tag a -> wrap (value_type_bits t) (int_value a) = data a.
Proof. intros Ht Hf. subst t. apply int_value_mod. exact Hf. Qed.

Section WrappingArithmetic.
Variable t : value_type.
Variables a b : value.
Hypothesis Ha : type a = t.
Hypothesis Hb : type b = t.
Hypothesis Hfa : fits_tag a.
Hypothesis Hfb : fits_tag b.

Lemma own_value : a = mk_value t (data a).
Proof. destruct a; cbn in *; congruence. Qed.

Lemma int_add_sub :
  (s <- int_binop t Z.add a b ;; int_binop t Z.sub s b) = Ok a.
Proof.
  rewrite int_binop_own by assumption. cbn [bind].
  rewrite int_binop_own by first [assumption | reflexivity | apply wrap_fits].
  symmetry; rewrite own_value at 1; symmetry. do 2 f_equal. unfold wrap at 1.
  rewrite Zminus_mod, int_value_wrap_mod, <- Zminus_mod.
  rewrite <- (wrap_int_value t a Ha Hfa). unfold wrap. f_equal. lia.
Qed.

Lemma int_sub_add :
  (d <- int_binop t Z.sub a b ;; int_binop t Z.add d b) = Ok a.
Proof.
  rewrite int_binop_own by assumption. cbn [bind].
  rewrite int_binop_own by first [assumption | reflexivity | apply wrap_fits].
  symmetry; rewrite own_value at 1; symmetry. do 2 f_equal. unfold wrap at 1.
  rewrite Zplus_mod, int_value_wrap_mod, <- Zplus_mod.
  rewrite <- (wrap_int_value t a Ha Hfa). unfold wrap. f_equal. lia.
Qed.

Lemma int_neg_add :
  (n <- int_unop t Z.opp b ;; int_binop t Z.add a n) = int_binop t Z.sub a b.
Proof.
  rewrite int_unop_own by assumption. cbn [bind].
  rewrite !int_binop_own by first [assumption | reflexivity | apply wrap_fits].
  do 2 f_equal. unfold wrap at 1.
  rewrite Zplus_mod, int_value_wrap_mod, <- Zplus_mod. reflexivity.
Qed.

Lemma int_neg_neg :
  (n <- int_unop t Z.opp a ;; int_unop t Z.opp n) = Ok a.
Proof.
  rewrite int_unop_own by assumption. cbn [bind].
  rewrite int_unop_own by first [reflexivity | apply wrap_fits].
  symmetry; rewrite own_value at 1; symmetry. do 2 f_equal. unfold wrap at 1.
  rewrite <- Z.sub_0_l, Zminus_mod, int_value_wrap_mod, <- Zminus_mod.
  rewrite <- (wrap_int_value t a Ha Hfa). unfold wrap. f_equal. lia.
Qed.

Lemma int_compl_compl :
  (c <- int_unop t Z.lnot a ;; int_unop t Z.lnot c) = Ok a.
Proof.
  rewrite int_unop_own by assumption. cbn [bind].
  rewrite int_unop_own by first [reflexivity | apply wrap_fits].
  symmetry; rewrite own_value at 1; symmetry. do 2 f_equal. unfold wrap at 1. unfold Z.lnot.
  rewrite <- !Z.sub_1_r, <- !Z.sub_0_l.
  rewrite Zminus_mod, (Zminus_mod 0), int_value_wrap_mod,
    <- (Zminus_mod 0), <- Zminus_mod.
  rewrite <- (wrap_int_value t a Ha Hfa). unfold wrap. f_equal. lia.
Qed.

Lemma int_add_comm : int_binop t Z.add a b = int_binop t Z.add b a.
Proof. rewrite !int_binop_own by assumption. do 3 f_equal. lia. Qed.

Lemma int_mul_comm : int_binop t Z.mul a b = int_binop t Z.mul b a.
Proof. rewrite !int_binop_own by assumption. do 3 f_equal. lia. Qed.
End WrappingArithmetic.

(** X8.  The arithmetic of s32, u32, s64 and u64 wraps around consistently:
    subtraction undoes addition and addition undoes subtraction, also
    across an overflow; subtracting is adding the negation; negation and
    complement are involutions; addition and multiplication commute. *)
Theorem wrapping_arithmetic_is_consistent
  (t : value_type) (ops : value_operations) (a b : value) :
  In t wide_integer_types -> value_ops t = Some ops ->
  type a = t -> type b = t -> fits_tag a -> fits_tag b ->
  (s <- op_add ops a b ;; op_sub ops s b) = Ok a /\
  (d <- op_sub ops a b ;; op_add ops d b) = Ok a /\
  (n <- op_neg ops b ;; op_add ops a n) = op_sub ops a b /\
  (n <- op_neg ops a ;; op_neg ops n) = Ok a /\
  (c <- op_compl ops a ;; op_compl ops c) = Ok a /\
  op_add ops a b = op_add ops b a /\
  op_mul ops a b = op_mul ops b a.
Proof.
  intros Ht Hops Ha Hb Hfa Hfb.
  cbn in Ht; repeat (destruct Ht as [Ht|Ht]; [subst t|]); try contradiction;
    cbn in Hops; inversion Hops; subst ops;
    (repeat split;
     [ apply int_add_sub | apply int_sub_add | apply int_neg_add
     | apply int_neg_neg | apply int_compl_compl
     | apply int_add_comm | apply int_mul_comm ]; assumption).
Qed.

Lemma wrapping_arithmetic_is_consistent_witness :
  (s <- op_add S32_ops (mk_value S32 0x7FFFFFFF) (mk_value S32 1) ;;
   op_sub S32_ops s (mk_value S32 1)) = Ok (mk_value S32 0x7FFFFFFF) /\
  (d <- op_sub S32_ops (mk_value S32 0x7FFFFFFF) (mk_value S32 1) ;;
   op_add S32_ops d (mk_value S32 1)) = Ok (mk_value S32 0x7FFFFFFF) /\
  (n <- op_neg S32_ops (mk_value S32 1) ;;
   op_add S32_ops (mk_value S32 0x7FFFFFFF) n)
  = op_sub S32_ops (mk_value S32 0x7FFFFFFF) (mk_value S32 1) /\
  (n <- op_neg S32_ops (mk_value S32 0x7FFFFFFF) ;; op_neg S32_ops n)
  = Ok (mk_value S32 0x7FFFFFFF) /\
  (c <- op_compl S32_ops (mk_value S32 0x7FFFFFFF) ;; op_compl S32_ops c)
  = Ok (mk_value S32 0x7FFFFFFF) /\
  op_add S32_ops (mk_value S32 0x7FFFFFFF) (mk_value S32 1)
  = op_add S32_ops (mk_value S32 1) (mk_value S32 0x7FFFFFFF) /\
  op_mul S32_ops (mk_value S32 0x7FFFFFFF) (mk_value S32 1)
  = op_mul S32_ops (mk_value S32 1) (mk_value S32 0x7FFFFFFF).
Proof.
  apply (wrapping_arithmetic_is_consistent S32 S32_ops
           (mk_value S32 0x7FFFFFFF) (mk_value S32 1)).
  - cbn; tauto.
  - reflexivity.
  - reflexivity.
  - reflexivity.
  - unfold fits_tag; cbn; lia.
  - unfold fits_tag; cbn; lia.
Defined.

Lemma narrow_in_s32 (v : value) :
  In (type v) narrow_integer_types -> fits_tag v ->
  - 2 ^ 16 < int_value v < 2 ^ 16.
Proof.
  intros Ht Hf. pose proof (int_value_range v Hf) as R.
  unfold int_min, int_max in R.
  cbn in Ht; repeat (destruct Ht as [Ht|Ht]; [rewrite <- Ht in R|]);
    try contradiction; cbn in R; lia.
Qed.

Lemma promote_s32_narrow (v : value) :
  In (type v) narrow_integer_types -> fits_tag v ->
  exists out, promote_s32 v = Ok out /\ type out = S32 /\ fits_tag out /\
              int_value out = int_value v.
Proof.
  intros Ht Hf. pose proof (narrow_in_s32 v Ht Hf) as R.
  eexists. split.
  - unfold promote_s32. apply value_cast_int; [|cbn; tauto|exact Hf].
    cbn in Ht |- *; tauto.
  - split; [reflexivity|]. split; [apply wrap_fits|].
    apply int_value_of_wrap. unfold int_min, int_max; cbn. lia.
Qed.

(** X9.  On a value of type s8, u8, s16 or u16 the handlers of unary minus
    and complement work on the number promoted to s32: the result is of
    type s32 and is the negation, or the complement, of the number, so that
    the complement of a u8 is negative; logical not gives the s32 truth
    value of the number being zero. *)
Theorem narrow_unary_operators_promote
  (t : value_type) (ops : value_operations) (v : value) :
  In t narrow_integer_types -> value_ops t = Some ops ->
  type v = t -> fits_tag v ->
  exists n c,
    op_neg ops v = Ok n /\ type n = S32 /\ int_value n = - int_value v /\
    op_compl ops v = Ok c /\ type c = S32 /\ int_value c = - int_value v - 1 /\
    op_not ops v = Ok (truth (int_value v =? 0)).
Proof.
  intros Ht Hops Hv Hf. rewrite <- Hv in Ht.
  destruct (promote_s32_narrow v Ht Hf) as [out [Hp [Hto [Hfo Hio]]]].
  pose proof (narrow_in_s32 v Ht Hf) as R.
  assert (E : op_neg ops = dummy_neg /\ op_compl ops = dummy_compl
              /\ op_not ops = dummy_not).
  { rewrite Hv in Ht.
    cbn in Ht; repeat (destruct Ht as [Ht|Ht]; [subst t|]); try contradiction;
      cbn in Hops; inversion Hops; repeat split. }
  destruct E as [En [Ec El]]. rewrite En, Ec, El.
  unfold dummy_neg, dummy_compl, dummy_not. rewrite Hp. cbn [bind].
  unfold s32_neg, s32_compl, s32_not.
  rewrite !int_unop_own by assumption. rewrite Hio.
  do 2 eexists. split; [reflexivity|]. split; [reflexivity|]. split.
  { apply int_value_of_wrap. unfold int_min, int_max; cbn. lia. }
  split; [reflexivity|]. split; [reflexivity|]. split.
  { rewrite int_value_of_wrap; unfold Z.lnot, int_min, int_max; cbn; lia. }
  unfold truth, c_not, wrap. do 2 f_equal.
  destruct (int_value v =? 0); reflexivity.
Qed.

Lemma narrow_unary_operators_promote_witness :
  exists n c,
    op_neg S8_ops (mk_value S8 0x80) = Ok n /\ type n = S32 /\
    int_value n = - int_value (mk_value S8 0x80) /\
    op_compl S8_ops (mk_value S8 0x80) = Ok c /\ type c = S32 /\
    int_value c = - int_value (mk_value S8 0x80) - 1 /\
    op_not S8_ops (mk_value S8 0x80)
    = Ok (truth (int_value (mk_value S8 0x80) =? 0)).
Proof.
  apply (narrow_unary_operators_promote S8 S8_ops (mk_value S8 0x80)).
  - cbn; tauto.
  - reflexivity.
  - reflexivity.
  - unfold fits_tag; cbn; lia.
Defined.

Lemma f64_of_nan_bits (bits : Z) :
  is_nan_bits bits = true -> f64_of_bits bits = S754_nan.
Proof.
  unfold is_nan_bits. intro H. apply andb_true_iff in H. destruct H as [He Hm].
  apply Z.eqb_eq in He. apply negb_true_iff in Hm.
  unfold f64_of_bits, float_of_bits. cbv zeta. rewrite He, Hm. reflexivity.
Qed.

Lemma SFcompare_nan_l (f : spec_float) : SFcompare S754_nan f = None.
Proof. destruct f; reflexivity. Qed.

Lemma SFcompare_nan_r (f : spec_float) : SFcompare f S754_nan = None.
Proof. destruct f; reflexivity. Qed.

(** X10.  A NaN compares unordered in the f64 row: with a NaN on either
    side [==], [<], [>], [<=] and [>=] give 0 and [!=] gives 1. *)
Theorem nan_compares_unordered (a b : value) :
  type a = F64 -> type b = F64 -> fits_tag a -> fits_tag b ->
  is_nan_bits (data a) = true ->
  op_eq F64_ops a b = Ok (truth false) /\ op_eq F64_ops b a = Ok (truth false) /\
  op_neq F64_ops a b = Ok (truth true) /\ op_neq F64_ops b a = Ok (truth true) /\
  op_lt F64_ops a b = Ok (truth false) /\ op_lt F64_ops b a = Ok (truth false) /\
  op_gt F64_ops a b = Ok (truth false) /\ op_gt F64_ops b a = Ok (truth false) /\
  op_le F64_ops a b = Ok (truth false) /\ op_le F64_ops b a = Ok (truth false) /\
  op_ge F64_ops a b = Ok (truth false) /\ op_ge F64_ops b a = Ok (truth false).
Proof.
  intros Ha Hb Hfa Hfb Hn.
  assert (Da : data_f64 a = Ok S754_nan).
  { unfold data_f64, member_bits. rewrite Ha. cbn -[Z.pow f64_of_bits].
    unfold fits_tag in Hfa. rewrite Ha in Hfa. cbn -[Z.pow] in Hfa.
    rewrite Z.mod_small by exact Hfa. f_equal. apply f64_of_nan_bits, Hn. }
  assert (Db : exists f, data_f64 b = Ok f).
  { unfold data_f64, member_bits. rewrite Hb. cbn -[Z.pow f64_of_bits].
    eexists; reflexivity. }
  destruct Db as [f Db].
  cbn [F64_ops op_eq op_neq op_lt op_gt op_le op_ge].
  unfold f64_eq, f64_neq, f64_lt, f64_gt, f64_le, f64_ge, f64_relop.
  rewrite Da, Db. cbn [bind].
  unfold SFeqb, SFltb, SFleb.
  rewrite SFcompare_nan_l, SFcompare_nan_r. repeat split.
Qed.

Lemma nan_compares_unordered_witness :
  op_eq F64_ops double_nan double_5 = Ok (truth false) /\
  op_eq F64_ops double_5 double_nan = Ok (truth false) /\
  op_neq F64_ops double_nan double_5 = Ok (truth true) /\
  op_neq F64_ops double_5 double_nan = Ok (truth true) /\
  op_lt F64_ops double_nan double_5 = Ok (truth false) /\
  op_lt F64_ops double_5 double_nan = Ok (truth false) /\
  op_gt F64_ops double_nan double_5 = Ok (truth false) /\
  op_gt F64_ops double_5 double_nan = Ok (truth false) /\
  op_le F64_ops double_nan double_5 = Ok (truth false) /\
  op_le F64_ops double_5 double_nan = Ok (truth false) /\
  op_ge F64_ops double_nan double_5 = Ok (truth false) /\
  op_ge F64_ops double_5 double_nan = Ok (truth false).
Proof.
  apply (nan_compares_unordered double_nan double_5).
  - reflexivity.
  - reflexivity.
  - unfold fits_tag; cbn; lia.
  - unfold fits_tag; cbn; lia.
  - vm_compute; reflexivity.
Defined.

(** ** parse.c: every tree the parser returns is well typed *)

Lemma value_type_eqb_refl (t : value_type) : value_type_eqb t t = true.
Proof. destruct t; reflexivity. Qed.

Lemma value_type_from_substring_scalar (str : list ascii) (len : nat)
  (t : value_type) :
  value_type_from_substring str len = Some t -> is_scalar t = true.
Proof.
  unfold value_type_from_substring.
  repeat match goal with
         | |- context [if ?c then _ else _] => destruct c
         end; intro H; inversion H; reflexivity.
Qed.

Lemma peek_type_scalar (p : parser) (t : value_type) :
  peek_type p = Some t -> is_scalar t = true.
Proof.
  unfold peek_type.
  destruct (lexer (input p)) as [[peek0|] rest]; [|discriminate].
  destruct (lexer rest) as [[peek1|] rest']; [|discriminate].
  destruct (_ && _); [|discriminate].
  apply value_type_from_substring_scalar.
Qed.

Lemma next_symbol_symtab (p : parser) :
  symtab (snd (next_symbol p)) = symtab p.
Proof.
  unfold next_symbol. destruct (lexer (input p)) as [[t|] rest];
    [reflexivity|].
  destruct (skip_to_eol rest) as [eol rest']. reflexivity.
Qed.

Lemma accept_symtab (p : parser) (sym : lex_token_type) :
  symtab (snd (accept p sym)) = symtab p.
Proof.
  unfold accept. destruct (negb _); [reflexivity|].
  apply (next_symbol_symtab
           (mk_parser (input p) (symtab p) (errors p) (symbol p) (symbol p))).
Qed.

Lemma accept_any_symtab (syms : list lex_token_type) (p : parser) :
  symtab (snd (accept_any p syms)) = symtab p.
Proof.
  revert p. induction syms as [|sym rest IH]; intro p; cbn [accept_any];
    [reflexivity|].
  pose proof (accept_symtab p sym) as H.
  destruct (accept p sym) as [[|] p1]; cbn [snd] in *; [exact H|].
  rewrite IH. exact H.
Qed.

Lemma expect_symtab (p : parser) (sym : lex_token_type) :
  symtab (snd (expect p sym)) = symtab p.
Proof.
  unfold expect. pose proof (accept_symtab p sym) as H.
  destruct (accept p sym) as [[|] p1]; exact H.
Qed.

Lemma lookup_name (tab : symbol_table) (name n : string) (v : value) :
  symbol_table_nlookup tab name = Some (n, v) -> n = name.
Proof.
  induction tab as [|[n' v'] tab IH]; cbn; [discriminate|].
  destruct (String.eqb n' name) eqn:E; [|exact IH].
  intro H. inversion H; subst. apply String.eqb_eq. exact E.
Qed.

Ltac accept_step E p1 p Hs :=
  match goal with
  | |- context [accept p ?sym] =>
      pose proof (accept_symtab p sym) as Hs;
      destruct (accept p sym) as [[|] p1] eqn:E; cbn [snd] in Hs
  | H : context [accept p ?sym] |- _ =>
      pose proof (accept_symtab p sym) as Hs;
      destruct (accept p sym) as [[|] p1] eqn:E; cbn [snd] in Hs
  end.

Lemma factor_typed (expression : parser -> presult) :
  typed expression -> typed (factor expression).
Proof.
  intros He p r p' H. unfold factor in H.
  accept_step E1 p1 p S1.
  { destruct (symtab p1) as [tab|] eqn:Et; [|discriminate].
    destruct (symbol_table_nlookup tab _) as [[n v]|] eqn:El; [|discriminate].
    inversion H; subst. split; [congruence|].
    replace (symtab p) with (Some tab) by congruence.
    cbn [well_typed variable_rule].
    pose proof (lookup_name _ _ _ _ El) as En. rewrite <- En in El.
    rewrite El, String.eqb_refl, value_type_eqb_refl. reflexivity. }
  accept_step E2 p2 p1 S2.
  { inversion H; subst. split; [congruence | reflexivity]. }
  accept_step E3 p3 p2 S3.
  { inversion H; subst. split; [congruence | reflexivity]. }
  accept_step E4 p4 p3 S4.
  { inversion H; subst. split; [congruence | reflexivity]. }
  accept_step E5 p5 p4 S5; [|discriminate].
  destruct (expression p5) as [[root q]|] eqn:E; [|discriminate].
  inversion H; subst. destruct (He _ _ _ E) as [Sq Hw].
  rewrite expect_symtab. split; [congruence|].
  replace (symtab p) with (symtab p5) by congruence. exact Hw.
Qed.

Lemma unary_expression_typed (cast_expression expression : parser -> presult) :
  typed cast_expression -> typed expression ->
  typed (unary_expression cast_expression expression).
Proof.
  intros Hc He p r p' H. unfold unary_expression in H.
  pose proof (accept_any_symtab [LEX_ADD; LEX_SUB; LEX_NOT; LEX_COMPL] p) as S1.
  destruct (accept_any p _) as [[|] p1] eqn:Ea; cbn [snd] in S1.
  - apply accept_any_true in Ea.
    destruct (cast_expression p1) as [[[child|] p2]|] eqn:E; try discriminate.
    destruct (Hc _ _ _ E) as [S2 Hchild]. rewrite S1 in Hchild.
    cbn in Ea. destruct Ea as [Ea|[Ea|[Ea|[Ea|[]]]]]; rewrite <- Ea in H;
      cbn [lex_to_ast_type] in H;
      match type of H with
      | context [if ?c then _ else _] => destruct c eqn:Hc'
      end; inversion H; subst;
      (split; [congruence|]);
      cbn [well_typed ast_unop_new unary_rule ast_value_type];
      rewrite value_type_eqb_refl, Hc', Hchild; reflexivity.
  - destruct (factor_typed expression He _ _ _ H) as [S2 Hw].
    split; [congruence|]. rewrite <- S1. exact Hw.
Qed.

Lemma cast_expression_typed (expression : parser -> presult) (fuel : nat) :
  typed expression -> typed (cast_expression expression fuel).
Proof.
  intro He. induction fuel as [|fuel IH]; intros p r p' H;
    cbn [cast_expression] in H; [discriminate|].
  pose proof (unary_expression_typed _ _ IH He) as Hu.
  destruct (lex_token_type_eqb _ _); [|exact (Hu _ _ _ H)].
  destruct (peek_type p) as [t|] eqn:Ep; [|exact (Hu _ _ _ H)].
  accept_step E1 p1 p S1; cbn [negb] in H;
    [|destruct (Hu _ _ _ H) as [S2 Hw]; split; [congruence|];
      rewrite <- S1; exact Hw].
  accept_step E2 p2 p1 S2; cbn [negb] in H;
    [|destruct (Hu _ _ _ H) as [S3 Hw]; split; [congruence|];
      rewrite <- S1, <- S2; exact Hw].
  accept_step E3 p3 p2 S3; cbn [negb] in H;
    [|destruct (Hu _ _ _ H) as [S4 Hw]; split; [congruence|];
      rewrite <- S1, <- S2, <- S3; exact Hw].
  destruct (cast_expression expression fuel p3) as [[[child|] p4]|] eqn:E;
    try discriminate.
  inversion H; subst. destruct (IH _ _ _ E) as [S4 Hw].
  split; [congruence|]. cbn [well_typed ast_cast_new unary_rule].
  rewrite (peek_type_scalar _ _ Ep).
  replace (symtab p) with (symtab p3) by congruence. rewrite Hw. reflexivity.
Qed.

Section BinaryTyped.
Variable operand : parser -> presult.
Variable operators : list lex_token_type.
Variable admits : ast_type -> value_type -> value_type -> bool.
Variable result_type : value_type -> value_type -> value_type.
Hypothesis operand_typed : typed operand.
Hypothesis admitted_by_rule :
  forall op l r, In op operators ->
    admits (lex_to_ast_type op) l r = true ->
    binary_rule (lex_to_ast_type op) (result_type l r) l r = true.

Lemma binary_body_typed (lhs : ast) (p : parser) (r : ast) (p' : parser) :
  well_typed (symtab p) lhs = true ->
  In (ltype (accepted p)) operators ->
  binary_body operand admits result_type lhs p = Some (Some r, p') ->
  symtab p' = symtab p /\ well_typed (symtab p) r = true.
Proof.
  intros Hl Hin H. unfold binary_body in H.
  destruct (operand p) as [[[rhs|] p1]|] eqn:E; try discriminate.
  destruct (admits _ _ _) eqn:Ea; [|discriminate].
  inversion H; subst. destruct (operand_typed _ _ _ E) as [S1 Hr].
  split; [exact S1|]. cbn [well_typed ast_binop_new].
  rewrite (admitted_by_rule _ _ _ Hin Ea), Hl, Hr. reflexivity.
Qed.

Lemma binary_while_typed (fuel : nat) (root : option ast) (p : parser)
  (r : ast) (p' : parser) :
  (forall t, root = Some t -> well_typed (symtab p) t = true) ->
  binary_while operand operators admits result_type fuel root p
  = Some (Some r, p') ->
  symtab p' = symtab p /\ well_typed (symtab p) r = true.
Proof.
  revert root p. induction fuel as [|fuel IH]; intros root p Hroot H;
    destruct root as [lhs|]; cbn [binary_while] in H; try discriminate;
    pose proof (accept_any_symtab operators p) as S1;
    destruct (accept_any p operators) as [[|] p1] eqn:Ea; cbn [snd] in S1;
    try discriminate;
    try (inversion H; subst; split; [exact S1 | apply Hroot; reflexivity]).
  destruct (binary_body _ _ _ lhs p1) as [[[t|] p2]|] eqn:Eb;
    [| |discriminate].
  - destruct (binary_body_typed lhs p1 t p2) as [S2 Ht]; auto.
    { rewrite S1. apply Hroot. reflexivity. }
    { exact (accept_any_true _ _ _ Ea). }
    destruct (IH (Some t) p2) with (2 := H) as [S3 Hr].
    { intros t' Ht'. inversion Ht'; subst. rewrite S2. exact Ht. }
    split; [congruence|]. rewrite <- S1, <- S2. exact Hr.
  - destruct fuel; cbn [binary_while] in H; discriminate.
Qed.

Lemma binary_loop_production_typed (fuel : nat) :
  typed (binary_loop_production operand operators admits result_type fuel).
Proof.
  intros p r p' H. unfold binary_loop_production in H.
  destruct (operand p) as [[[t|] p1]|] eqn:E; [| |discriminate].
  - destruct (operand_typed _ _ _ E) as [S1 Ht].
    destruct (binary_while_typed fuel (Some t) p1 r p') as [S2 Hr]; auto.
    { intros t' Ht'. inversion Ht'; subst. rewrite S1. exact Ht. }
    split; [congruence|]. rewrite <- S1. exact Hr.
  - destruct fuel; cbn [binary_while] in H; discriminate.
Qed.

Lemma binary_once_production_typed :
  typed (binary_once_production operand operators admits result_type).
Proof.
  intros p r p' H. unfold binary_once_production in H.
  destruct (operand p) as [[[lhs|] p1]|] eqn:E; cbn [binary_if] in H;
    try discriminate.
  destruct (operand_typed _ _ _ E) as [S1 Hl].
  pose proof (accept_any_symtab operators p1) as S2.
  destruct (accept_any p1 operators) as [[|] p2] eqn:Ea; cbn [snd] in S2.
  - destruct (binary_body_typed lhs p2 r p') as [S3 Hr]; auto.
    { rewrite S2, S1. exact Hl. }
    { exact (accept_any_true _ _ _ Ea). }
    split; [congruence|]. rewrite <- S1, <- S2. exact Hr.
  - inversion H; subst. split; [congruence | exact Hl].
Qed.
End BinaryTyped.
Ltac admitted_cases Hin Ha :=
  operator_cases Hin; cbn in Ha |- *;
  rewrite ?value_type_eqb_refl; cbn; try exact Ha; try reflexivity.

Section ProductionsTyped.
Variable expression : parser -> presult.
Variable fuel : nat.
Hypothesis expression_typed : typed expression.

Lemma muldiv_expression_typed : typed (muldiv_expression expression fuel).
Proof.
  apply binary_loop_production_typed.
  - apply cast_expression_typed. exact expression_typed.
  - intros op l r Hin Ha. admitted_cases Hin Ha.
Qed.

Lemma addsub_expression_typed : typed (addsub_expression expression fuel).
Proof.
  apply binary_loop_production_typed.
  - exact muldiv_expression_typed.
  - intros op l r Hin Ha. admitted_cases Hin Ha.
Qed.

Lemma shift_expression_typed : typed (shift_expression expression fuel).
Proof.
  apply binary_loop_production_typed.
  - exact addsub_expression_typed.
  - intros op l r Hin Ha. admitted_cases Hin Ha.
Qed.

Lemma relational_expression_typed :
  typed (relational_expression expression fuel).
Proof.
  apply binary_once_production_typed.
  - exact shift_expression_typed.
  - intros op l r Hin Ha. admitted_cases Hin Ha.
Qed.

Lemma equality_expression_typed : typed (equality_expression expression fuel).
Proof.
  apply binary_once_production_typed.
  - exact relational_expression_typed.
  - intros op l r Hin Ha. admitted_cases Hin Ha.
Qed.

Lemma and_expression_typed : typed (and_expression expression fuel).
Proof.
  apply binary_loop_production_typed.
  - exact equality_expression_typed.
  - intros op l r Hin Ha. admitted_cases Hin Ha.
Qed.

Lemma xor_expression_typed : typed (xor_expression expression fuel).
Proof.
  apply binary_loop_production_typed.
  - exact and_expression_typed.
  - intros op l r Hin Ha. admitted_cases Hin Ha.
Qed.

Lemma or_expression_typed : typed (or_expression expression fuel).
Proof.
  apply binary_loop_production_typed.
  - exact xor_expression_typed.
  - intros op l r Hin Ha. admitted_cases Hin Ha.
Qed.

Lemma conditional_expression_typed :
  typed (conditional_expression expression fuel).
Proof.
  apply binary_loop_production_typed.
  - exact or_expression_typed.
  - intros op l r Hin Ha. admitted_cases Hin Ha.
Qed.
End ProductionsTyped.

Lemma expression_typed (fuel : nat) : typed (expression fuel).
Proof.
  induction fuel as [|fuel IH]; intros p r p' H; cbn [expression] in H;
    [discriminate|].
  destruct (lex_token_type_eqb _ _); [discriminate|].
  exact (conditional_expression_typed _ _ IH _ _ _ H).
Qed.

Lemma parse_expression_typed (line : list lexeme) (tab : option symbol_table)
  (errs : nat) (t : ast) :
  parse_expression line tab = Some (errs, Some t) -> well_typed tab t = true.
Proof.
  unfold parse_expression. intro H.
  pose proof (next_symbol_symtab
                (mk_parser line tab 0 (token LEX_EOL) (token LEX_EOL))) as S0.
  destruct (next_symbol _) as [ok p]. cbn [snd symtab] in S0.
  destruct (expression _ p) as [[out p1]|] eqn:E; [|discriminate].
  inversion H as [[He Ht]]. clear H He.
  destruct (0 <? _)%nat; [discriminate|]. subst out.
  rewrite <- S0. exact (proj2 (expression_typed _ _ _ _ E)).
Qed.

(** X11.  Every tree parse_expression hands back is well typed, node by
    node: each cast, unary, arithmetic, bitwise, shift, comparison and
    conditional node has the result type, and operands of the kinds, that
    the checks of parse.c ask for; each literal has the type of its value
    and each variable the type of its symbol. *)
Theorem parsed_tree_is_well_typed (line : list lexeme)
  (tab : option symbol_table) (errs : nat) (t : ast) :
  parse_expression line tab = Some (errs, Some t) -> well_typed tab t = true.
Proof. apply parse_expression_typed. Qed.

Lemma parsed_tree_is_well_typed_witness :
  well_typed (Some table_x) tree_compl_x_shl_2 = true.
Proof.
  apply (parsed_tree_is_well_typed line_compl_x_shl_2 (Some table_x) 0%nat
           tree_compl_x_shl_2).
  vm_compute. reflexivity.
Defined.

(** ** Floating operands *)

Lemma well_typed_subtree (tab : option symbol_table) (t s : ast) :
  well_typed tab t = true -> In s (subtrees t) -> well_typed tab s = true.
Proof.
  induction t as [vt v|vt name|nt vt c IH|nt vt l IHl r IHr]; intros Hw Hin;
    cbn [subtrees] in Hin.
  - destruct Hin as [<-|[]]. exact Hw.
  - destruct Hin as [<-|[]]. exact Hw.
  - destruct Hin as [<-|Hin]; [exact Hw|].
    cbn [well_typed] in Hw. apply andb_prop in Hw. destruct Hw as [_ Hc].
    exact (IH Hc Hin).
  - destruct Hin as [<-|Hin]; [exact Hw|].
    cbn [well_typed] in Hw. apply andb_prop in Hw. destruct Hw as [Hw Hr].
    apply andb_prop in Hw. destruct Hw as [_ Hl].
    apply in_app_or in Hin. destruct Hin as [Hin|Hin];
      [exact (IHl Hl Hin) | exact (IHr Hr Hin)].
Qed.

(** [5.0 % 2] does not parse: muldiv_expression counts an error for the
    operands, and parse_expression one more for the tree it did not get. *)
Example parse_5_0_mod_2 :
  parse_expression line_5_0_mod_2 None = Some (2%nat, None).
Proof. reflexivity. Qed.

(** C4, amended.  In the F32 and F64 rows the complement is dummy_unop and
    the bitwise operators and shifts are dummy_nop: they return the error
    code for every operand.  The modulo of a floating operand is refused
    by the parser: muldiv_expression admits [%] between operands of
    integer type only, so every [%] node of a tree the parser returns has
    operands of integer type. *)
Theorem float_bitwise_fails_and_modulo_is_not_parsed :
  (forall a b : value,
      op_compl F64_ops a = Err /\ op_and F64_ops a b = Err /\
      op_xor F64_ops a b = Err /\ op_or F64_ops a b = Err /\
      op_shl F64_ops a b = Err /\ op_shr F64_ops a b = Err /\
      op_compl F32_ops a = Err /\ op_and F32_ops a b = Err /\
      op_xor F32_ops a b = Err /\ op_or F32_ops a b = Err /\
      op_shl F32_ops a b = Err /\ op_shr F32_ops a b = Err) /\
  (forall (line : list lexeme) (tab : option symbol_table) (errs : nat)
          (t : ast) (vt : value_type) (l r : ast),
      parse_expression line tab = Some (errs, Some t) ->
      In (Binop AST_MOD vt l r) (subtrees t) ->
      is_INT (ast_value_type l) = true /\ is_INT (ast_value_type r) = true).
Proof.
  split; [intros; repeat split|].
  intros line tab errs t vt l r Hp Hin.
  pose proof (well_typed_subtree tab t _ (parse_expression_typed _ _ _ _ Hp) Hin)
    as Hw.
  cbn [well_typed binary_rule] in Hw.
  apply andb_prop in Hw. destruct Hw as [Hw _].
  apply andb_prop in Hw. destruct Hw as [Hw _].
  apply andb_prop in Hw. destruct Hw as [Hw Hr].
  apply andb_prop in Hw. destruct Hw as [_ Hl].
  split; assumption.
Qed.

Lemma float_bitwise_fails_and_modulo_is_not_parsed_witness :
  is_INT (ast_value_type (ast_int_new 7)) = true /\
  is_INT (ast_value_type (ast_int_new 2)) = true.
Proof.
  apply (proj2 float_bitwise_fails_and_modulo_is_not_parsed
           line_7_mod_2 None 0%nat tree_7_mod_2 S32
           (ast_int_new 7) (ast_int_new 2)).
  - vm_compute. reflexivity.
  - left. reflexivity.
Defined.

(** ** Evaluation of well-typed trees *)

Ltac step_not_err :=
  first [ apply data_int_not_err | apply data_f64_not_err
        | apply data_f32_not_err | apply value_cast_not_err
        | discriminate ].

Ltac handler_not_err :=
  repeat (apply bind_not_err; [step_not_err | intro]);
  repeat match goal with
         | |- (if ?c then _ else _) <> _ => destruct c
         end;
  discriminate.

Ltac unfold_handlers :=
  unfold dummy_neg, dummy_not, dummy_compl, dummy_add, dummy_sub, dummy_mul,
    dummy_div, dummy_mod, dummy_and, dummy_xor, dummy_or, dummy_shl, dummy_shr,
    dummy_eq, dummy_neq, dummy_lt, dummy_gt, dummy_le, dummy_ge,
    f32_neg, f32_not, f32_add, f32_sub, f32_mul, f32_div,
    f32_eq, f32_neq, f32_lt, f32_gt, f32_le, f32_ge,
    promote_s32, promote_f64,
    s32_neg, s32_not, s32_compl, s32_add, s32_sub, s32_mul, s32_div, s32_mod,
    s32_and, s32_xor, s32_or, s32_shl, s32_shr,
    s32_eq, s32_neq, s32_lt, s32_gt, s32_le, s32_ge,
    u32_neg, u32_not, u32_compl, u32_add, u32_sub, u32_mul, u32_div, u32_mod,
    u32_and, u32_xor, u32_or, u32_shl, u32_shr,
    u32_eq, u32_neq, u32_lt, u32_gt, u32_le, u32_ge,
    s64_neg, s64_not, s64_compl, s64_add, s64_sub, s64_mul, s64_div, s64_mod,
    s64_and, s64_xor, s64_or, s64_shl, s64_shr,
    s64_eq, s64_neq, s64_lt, s64_gt, s64_le, s64_ge,
    u64_neg, u64_not, u64_compl, u64_add, u64_sub, u64_mul, u64_div, u64_mod,
    u64_and, u64_xor, u64_or, u64_shl, u64_shr,
    u64_eq, u64_neq, u64_lt, u64_gt, u64_le, u64_ge,
    f64_neg, f64_not, f64_add, f64_sub, f64_mul, f64_div,
    f64_eq, f64_neq, f64_lt, f64_gt, f64_le, f64_ge,
    int_unop, int_binop, int_divop, int_shift, int_relop, f64_arith, f64_relop
    in *.

Lemma apply_unary_not_err (nt : ast_type) (v : value) :
  (nt = AST_USUB \/ is_INT (type v) = true) -> apply_unary nt v <> Err.
Proof.
  intro H. unfold apply_unary.
  destruct (type v) eqn:T; cbn [value_ops]; try discriminate;
    destruct nt; cbn [unary_method]; try discriminate;
    try (destruct H as [H|H]; discriminate);
    cbn; unfold_handlers; handler_not_err.
Qed.

Lemma apply_binary_not_err (nt : ast_type) (l r : value) :
  (is_bitwise_or_shift nt = true -> is_INT (type l) = true) ->
  apply_binary nt l r <> Err.
Proof.
  intro H. unfold apply_binary.
  destruct (type l) eqn:T; cbn [value_ops]; try discriminate;
    destruct nt; cbn [binary_method]; try discriminate;
    try (specialize (H eq_refl); discriminate);
    cbn; unfold_handlers; handler_not_err.
Qed.

Lemma HIGHER_TYPE_cases (l r : value_type) :
  HIGHER_TYPE l r = l \/ HIGHER_TYPE l r = r.
Proof. unfold HIGHER_TYPE. destruct (_ <? _); auto. Qed.

Lemma bind_not_err_at {A B : Type} (r : result A) (k : A -> result B) :
  r <> Err -> (forall a, r = Ok a -> k a <> Err) -> bind r k <> Err.
Proof.
  intros Hr Hk. destruct r as [a| |]; cbn;
    [apply Hk; reflexivity | contradiction Hr; reflexivity | discriminate].
Qed.

(** A well-typed tree evaluates without the error return, and to a value
    of its declared type. *)
Lemma evaluation_is_typed (tab : symbol_table) (t : ast) :
  well_typed (Some tab) t = true ->
  ast_evaluate tab t <> Err /\
  forall v, ast_evaluate tab t = Ok v -> type v = ast_value_type t.
Proof.
  induction t as [vt v|vt name|nt vt c IH|nt vt l IHl r IHr]; intro Hw;
    cbn [well_typed] in Hw.
  - apply andb_prop in Hw. destruct Hw as [Hv _].
    apply value_type_eqb_eq in Hv. subst vt.
    split; [discriminate|]. cbn. intros v' E; inversion E; subst; auto.
  - unfold variable_rule in Hw. cbn [ast_evaluate ast_value_type].
    destruct (symbol_table_nlookup tab name) as [[n v]|]; [|discriminate].
    apply andb_prop in Hw. destruct Hw as [_ Hv].
    apply value_type_eqb_eq in Hv. subst vt.
    split; [discriminate|]. intros v' E; inversion E; subst; auto.
  - apply andb_prop in Hw. destruct Hw as [Hrule Hc].
    destruct (IH Hc) as [Hne Hty].
    split; [|exact (ast_evaluate_unop_type tab nt vt c)].
    destruct nt; try discriminate; cbn [unary_rule] in Hrule;
      cbn [ast_evaluate].
    + (* cast *)
      apply bind_not_err; [exact Hne | intro; apply value_cast_not_err].
    + (* unary plus *)
      apply bind_not_err; [exact Hne | intro; apply value_cast_not_err].
    + (* negation *)
      apply bind_not_err; [exact Hne | intro a].
      apply bind_not_err; [|intro; apply value_cast_not_err].
      apply apply_unary_not_err. left; reflexivity.
    + (* logical not *)
      apply andb_prop in Hrule. destruct Hrule as [Hvt Hi].
      apply bind_not_err_at; [exact Hne | intros a Ea].
      apply bind_not_err; [|intro; apply value_cast_not_err].
      apply apply_unary_not_err. right. rewrite (Hty _ Ea). exact Hi.
    + (* complement *)
      apply andb_prop in Hrule. destruct Hrule as [Hvt Hi].
      apply bind_not_err_at; [exact Hne | intros a Ea].
      apply bind_not_err; [|intro; apply value_cast_not_err].
      apply apply_unary_not_err. right. rewrite (Hty _ Ea). exact Hi.
  - apply andb_prop in Hw. destruct Hw as [Hw Hr].
    apply andb_prop in Hw. destruct Hw as [Hrule Hl].
    destruct (IHl Hl) as [Hlne Hlty]. destruct (IHr Hr) as [Hrne Hrty].
    split; [|exact (ast_evaluate_binop_type tab nt vt l r)].
    assert (Hcond : forall (settled : value -> bool) (outcome : bool),
              (lv <- ast_evaluate tab l ;;
               if settled lv then value_cast vt (truth outcome)
               else rv <- ast_evaluate tab r ;;
                    value_cast vt (truth (negb (value_is_zero rv =? 1))))
              <> Err).
    { intros settled outcome.
      apply bind_not_err; [exact Hlne | intro a].
      destruct (settled a); [apply value_cast_not_err|].
      apply bind_not_err; [exact Hrne | intro; apply value_cast_not_err]. }
    assert (Hbin : forall nt',
              is_conditional nt' = false ->
              binary_rule nt' vt (ast_value_type l) (ast_value_type r) = true ->
              (lv <- ast_evaluate tab l ;;
               rv <- ast_evaluate tab r ;;
               out <- (if value_type_eqb (type lv) (type rv)
                       then apply_binary nt' lv rv
                       else
                         let target :=
                           if is_relational nt'
                           then HIGHER_TYPE (type lv) (type rv) else vt in
                         lv' <- value_cast target lv ;;
                         rv' <- value_cast target rv ;;
                         apply_binary nt' lv' rv') ;;
               value_cast vt out) <> Err).
    { intros nt' Hnc Hrule'.
      assert (Hops : is_bitwise_or_shift nt' = true ->
                     is_INT (ast_value_type l) = true /\ is_INT vt = true).
      { intro Hb. destruct nt'; try discriminate; cbn [binary_rule] in Hrule';
          apply andb_prop in Hrule'; destruct Hrule' as [Hrule' Hir];
          apply andb_prop in Hrule'; destruct Hrule' as [Hvt Hil];
          apply value_type_eqb_eq in Hvt; subst vt;
          (split; try assumption);
          destruct (HIGHER_TYPE_cases (ast_value_type l) (ast_value_type r))
            as [-> | ->]; assumption. }
      apply bind_not_err_at; [exact Hlne | intros lv El].
      apply bind_not_err; [exact Hrne | intros rv].
      apply bind_not_err; [|intro; apply value_cast_not_err].
      destruct (value_type_eqb (type lv) (type rv)).
      - apply apply_binary_not_err. intro Hb.
        rewrite (Hlty _ El). exact (proj1 (Hops Hb)).
      - cbv zeta.
        apply bind_not_err_at; [apply value_cast_not_err | intros lv' El'].
        apply bind_not_err; [apply value_cast_not_err | intros rv'].
        apply apply_binary_not_err. intro Hb.
        rewrite (value_cast_tag _ _ _ El').
        replace (is_relational nt') with false
          by (destruct nt'; try discriminate; reflexivity).
        exact (proj2 (Hops Hb)). }
    destruct nt; try discriminate;
      try (match goal with
           | |- ast_evaluate _ (Binop ?n _ _ _) <> Err =>
               exact (Hbin n eq_refl Hrule)
           end).
    + exact (Hcond (fun lv => value_is_zero lv =? 1) false).
    + exact (Hcond (fun lv => negb (value_is_zero lv =? 1)) true).
Qed.

Lemma evaluation_is_sound (tab : symbol_table) (t : ast) :
  well_typed (Some tab) t = true ->
  sound_result (ast_value_type t) (ast_evaluate tab t).
Proof.
  intro Hw. destruct (evaluation_is_typed tab t Hw) as [Hne Hty].
  split; [exact Hne|]. intros v E Hi. rewrite (Hty v E). exact Hi.
Qed.

(** ** opt.c: what the optimizer reaches *)

Lemma fold_constant_again (tab : symbol_table) (node t' : ast) :
  fold_constant tab node = Ok t' ->
  (exists v, t' = Value (type v) v) \/
  (t' = node /\ fold_constant tab node = Ok node).
Proof.
  unfold fold_constant.
  destruct (ast_evaluate tab node) as [v| |]; intro H; inversion H; subst.
  - left. exists v. reflexivity.
  - right. split; reflexivity.
Qed.

Lemma ast_optimize_fixed (tab : symbol_table) (t : ast) :
  forall t', ast_optimize tab t = Ok t' -> ast_optimize tab t' = Ok t'.
Proof.
  induction t as [vt v | vt name | nt vt c IHc | nt vt l IHl r IHr];
    intros t' H; cbn [ast_optimize] in H.
  - inversion H; subst. reflexivity.
  - destruct (symbol_table_nlookup tab name) as [[n v]|] eqn:E;
      [|discriminate].
    inversion H; subst. cbn [ast_optimize].
    rewrite <- (lookup_name _ _ _ _ E) in E. rewrite E. reflexivity.
  - apply bind_ok in H. destruct H as [child [Ec H]].
    cbn [ast_unop_new set_value_type] in H.
    pose proof (IHc _ Ec) as Hchild.
    destruct (ast_is_constant child) eqn:K.
    + destruct (fold_constant_again _ _ _ H) as [[v ->]|[-> Hf]];
        [reflexivity|].
      cbn [ast_optimize]. rewrite Hchild. cbn [bind ast_unop_new set_value_type].
      rewrite K. exact Hf.
    + inversion H; subst. cbn [ast_optimize]. rewrite Hchild.
      cbn [bind ast_unop_new set_value_type]. rewrite K. reflexivity.
  - apply bind_ok in H. destruct H as [lhs [El H]].
    apply bind_ok in H. destruct H as [rhs [Er H]].
    cbn [ast_binop_new set_value_type] in H.
    pose proof (IHl _ El) as Hlhs. pose proof (IHr _ Er) as Hrhs.
    destruct (ast_is_constant lhs && ast_is_constant rhs) eqn:K.
    + destruct (fold_constant_again _ _ _ H) as [[v ->]|[-> Hf]];
        [reflexivity|].
      cbn [ast_optimize]. rewrite Hlhs, Hrhs.
      cbn [bind ast_binop_new set_value_type]. rewrite K. exact Hf.
    + inversion H; subst. cbn [ast_optimize]. rewrite Hlhs, Hrhs.
      cbn [bind ast_binop_new set_value_type]. rewrite K. reflexivity.
Qed.

(** X14.  Optimizing twice gives what optimizing once gives; the second
    pass finds nothing left to fold. *)
Theorem optimizer_is_idempotent (tab : symbol_table) (t : ast) :
  (once <- ast_optimize tab t ;; ast_optimize tab once) = ast_optimize tab t.
Proof.
  destruct (ast_optimize tab t) as [t'| |] eqn:E; cbn [bind];
    [exact (ast_optimize_fixed _ _ _ E) | reflexivity | reflexivity].
Qed.

Lemma folds_to_literal (tab : symbol_table) (t : ast) :
  well_typed (Some tab) t = true -> ast_closed t = true ->
  defined_everywhere tab t = true ->
  exists vt v, ast_optimize tab t = Ok (Value vt v) /\ ast_evaluate tab t = Ok v.
Proof.
  induction t as [vt v | vt name | nt vt c IHc | nt vt l IHl r IHr];
    intros Hw Hc Hd.
  - exists vt, v. split; reflexivity.
  - discriminate.
  - pose proof (proj1 (evaluation_is_sound tab _ Hw)) as Hne.
    pose proof (defined_everywhere_root _ _ Hd) as Hnu.
    apply defined_everywhere_unop in Hd.
    cbn [well_typed] in Hw. apply andb_prop in Hw. destruct Hw as [_ Hwc].
    destruct (IHc Hwc Hc Hd) as [cvt [cv [Eo Ee]]].
    destruct (ast_evaluate tab (Unop nt vt c)) as [v| |] eqn:E;
      [|contradiction|contradiction].
    exists (type v), v. split; [|reflexivity].
    cbn [ast_optimize]. rewrite Eo.
    cbn [bind ast_unop_new set_value_type ast_is_constant].
    unfold fold_constant.
    rewrite (evaluate_unop_congruence tab nt vt c (Value cvt cv))
      by (rewrite Ee; reflexivity).
    rewrite E. reflexivity.
  - pose proof (proj1 (evaluation_is_sound tab _ Hw)) as Hne.
    pose proof (defined_everywhere_root _ _ Hd) as Hnu.
    apply defined_everywhere_binop in Hd. destruct Hd as [Hdl Hdr].
    cbn [ast_closed] in Hc. apply andb_prop in Hc. destruct Hc as [Hcl Hcr].
    cbn [well_typed] in Hw. apply andb_prop in Hw. destruct Hw as [Hw Hwr].
    apply andb_prop in Hw. destruct Hw as [_ Hwl].
    destruct (IHl Hwl Hcl Hdl) as [lvt [lv [Elo Ele]]].
    destruct (IHr Hwr Hcr Hdr) as [rvt [rv [Ero Ere]]].
    destruct (ast_evaluate tab (Binop nt vt l r)) as [v| |] eqn:E;
      [|contradiction|contradiction].
    exists (type v), v. split; [|reflexivity].
    cbn [ast_optimize]. rewrite Elo, Ero.
    cbn [bind ast_binop_new set_value_type ast_is_constant andb].
    unfold fold_constant.
    rewrite (evaluate_binop_congruence tab nt vt l (Value lvt lv) r (Value rvt rv))
      by (first [rewrite Ele | rewrite Ere]; reflexivity).
    rewrite E. reflexivity.
Qed.



(** X13.  The optimizer turns a parsed expression without variables, none
    of whose subexpressions is undefined, into a single literal, the value
    the expression evaluates to. *)
Theorem closed_expression_folds_to_a_literal (line : list lexeme)
  (tab : symbol_table) (errs : nat) (t : ast) :
  parse_expression line (Some tab) = Some (errs, Some t) ->
  ast_closed t = true -> defined_everywhere tab t = true ->
  exists vt v,
    ast_optimize tab t = Ok (Value vt v) /\ ast_evaluate tab t = Ok v.
Proof.
  intros H Hc Hd. apply parse_expression_typed in H.
  exact (folds_to_literal tab t H Hc Hd).
Qed.

Lemma closed_expression_folds_to_a_literal_witness :
  exists vt v,
    ast_optimize [] tree_1_add_2_mul_3 = Ok (Value vt v) /\
    ast_evaluate [] tree_1_add_2_mul_3 = Ok v.
Proof.
  apply (closed_expression_folds_to_a_literal line_1_add_2_mul_3 [] 0%nat
           tree_1_add_2_mul_3).
  - vm_compute. reflexivity.
  - reflexivity.
  - vm_compute. reflexivity.
Defined.

(** ** parse.c: precedence and associativity *)

Lemma next_symbol_at (line : list lex_token) tab errs s acc :
  next_symbol (mk_parser (map Lexed line) tab errs s acc)
  = (true, parser_at line tab errs acc).
Proof. destruct line; reflexivity. Qed.

Lemma accept_at (t : lex_token) (line : list lex_token) tab errs acc :
  accept (parser_at (t :: line) tab errs acc) (ltype t)
  = (true, parser_at line tab errs t).
Proof.
  unfold accept. cbn [parser_at hd tl symbol input symtab errors].
  rewrite (proj2 (lex_token_type_eqb_eq _ _) eq_refl). cbn [negb].
  apply next_symbol_at.
Qed.

Lemma accept_other (line : list lex_token) tab errs acc (sym : lex_token_type) :
  head_type line <> sym ->
  accept (parser_at line tab errs acc) sym = (false, parser_at line tab errs acc).
Proof. intro H. apply accept_mismatch. exact H. Qed.

Lemma accept_any_other (ops : list lex_token_type) (line : list lex_token)
  tab errs acc :
  ~ In (head_type line) ops ->
  accept_any (parser_at line tab errs acc) ops
  = (false, parser_at line tab errs acc).
Proof.
  induction ops as [|op ops IH]; intro H; cbn [accept_any]; [reflexivity|].
  rewrite accept_other by (intro E; apply H; left; symmetry; exact E).
  apply IH. intro E; apply H; right; exact E.
Qed.

Lemma accept_any_at (ops : list lex_token_type) (op : lex_token_type)
  (line : list lex_token) tab errs acc :
  In op ops ->
  accept_any (parser_at (token op :: line) tab errs acc) ops
  = (true, parser_at line tab errs (token op)).
Proof.
  induction ops as [|o ops IH]; intro H; [contradiction|].
  cbn [accept_any].
  destruct (lex_token_type_eqb op o) eqn:E.
  - apply lex_token_type_eqb_eq in E. subst o.
    rewrite (accept_at (token op) line). reflexivity.
  - rewrite accept_other.
    + apply IH. destruct H as [H|H]; [|exact H].
      subst o. rewrite (proj2 (lex_token_type_eqb_eq _ _) eq_refl) in E.
      discriminate.
    + cbn. intro H'. subst o.
      rewrite (proj2 (lex_token_type_eqb_eq _ _) eq_refl) in E. discriminate.
Qed.

Section ChainLevel.
Variable operand : parser -> presult.
Variable operators : list lex_token_type.
Variable admits : ast_type -> value_type -> value_type -> bool.
Variable result_type : value_type -> value_type -> value_type.
Variable A : Type.
Variable tokens : A -> list lex_token.
Variable tree : A -> ast.
Variable stops : list lex_token -> Prop.
Variable good : A -> Prop.
Hypothesis operand_reads :
  forall a, good a -> reads operand (tokens a) (tree a) stops.
Hypothesis tree_s32 : forall a, ast_value_type (tree a) = S32.
Hypothesis operators_admitted :
  forall op, In op operators ->
    admits (lex_to_ast_type op) S32 S32 = true.
Hypothesis result_s32 : result_type S32 S32 = S32.
Hypothesis operator_stops :
  forall op rest, In op operators -> stops (token op :: rest).

Lemma chain_tree_s32 (c : chain A) : ast_value_type (chain_tree tree c) = S32.
Proof.
  destruct c as [a rest]. unfold chain_tree. cbn [fst snd].
  revert a. induction rest as [|[op b] rest IH] using rev_ind; intro a.
  - apply tree_s32.
  - rewrite fold_left_app. reflexivity.
Qed.

Lemma binary_while_chain (rest : list (lex_token_type * A)) :
  forall (fuel : nat) (lhs : ast) (tail : list lex_token) tab errs acc,
  (List.length rest <= fuel)%nat ->
  ast_value_type lhs = S32 ->
  (forall x, In x rest -> In (fst x) operators /\ good (snd x)) ->
  stops tail -> ~ In (head_type tail) operators ->
  exists acc',
    binary_while operand operators admits result_type fuel (Some lhs)
      (parser_at
         (flat_map (fun x => token (fst x) :: tokens (snd x)) rest ++ tail)
         tab errs acc)
    = Some (Some (fold_left
                    (fun l x => Binop (lex_to_ast_type (fst x)) S32 l
                                  (tree (snd x))) rest lhs),
            parser_at tail tab errs acc').
Proof.
  induction rest as [|[op b] rest IH];
    intros fuel lhs tail tab errs acc Hf Hl Hops Hs Hn.
  - exists acc. cbn [flat_map app fold_left].
    destruct fuel; cbn [binary_while]; rewrite accept_any_other by exact Hn;
      reflexivity.
  - destruct fuel as [|fuel]; [cbn in Hf; lia|].
    cbn [flat_map fst snd]. rewrite <- !app_comm_cons, <- app_assoc.
    cbn [binary_while].
    destruct (Hops (op, b) (or_introl eq_refl)) as [Hop Hb]. cbn [fst snd] in *.
    rewrite accept_any_at by exact Hop.
    unfold binary_body.
    destruct (operand_reads b Hb
                (flat_map (fun x => token (fst x) :: tokens (snd x)) rest ++ tail)
                tab errs (token op)) as [acc1 E].
    { destruct rest as [|[op' b'] rest']; [exact Hs|].
      cbn [flat_map fst snd]. rewrite <- app_comm_cons.
      apply operator_stops.
      exact (proj1 (Hops (op', b') (or_intror (or_introl eq_refl)))). }
    rewrite E. cbn [accepted parser_at ltype token].
    rewrite Hl, tree_s32, (operators_admitted op Hop), result_s32.
    cbn [ast_binop_new fold_left fst snd].
    apply IH; [cbn in Hf; lia | reflexivity | | exact Hs | exact Hn].
    intros x Hx. apply Hops. right. exact Hx.
Qed.

Lemma loop_production_reads_chain (fuel : nat) (c : chain A) :
  (List.length (snd c) <= fuel)%nat ->
  good (fst c) ->
  (forall x, In x (snd c) -> In (fst x) operators /\ good (snd x)) ->
  reads (binary_loop_production operand operators admits result_type fuel)
    (chain_tokens tokens c) (chain_tree tree c)
    (fun tail => stops tail /\ ~ In (head_type tail) operators).
Proof.
  destruct c as [a rest]. cbn [fst snd].
  intros Hf Ha Hops tail tab errs acc [Hs Hn].
  unfold binary_loop_production, chain_tokens, chain_tree. cbn [fst snd].
  rewrite <- app_assoc.
  destruct (operand_reads a Ha
              (flat_map (fun x => token (fst x) :: tokens (snd x)) rest ++ tail)
              tab errs acc) as [acc1 E].
  { destruct rest as [|[op' b'] rest']; [exact Hs|].
    cbn [flat_map fst snd]. rewrite <- app_comm_cons.
    apply operator_stops. exact (proj1 (Hops (op', b') (or_introl eq_refl))). }
  rewrite E. apply binary_while_chain; auto.
Qed.
End ChainLevel.

Section Passing.
Variable operand : parser -> presult.
Variable operators : list lex_token_type.
Variable admits : ast_type -> value_type -> value_type -> bool.
Variable result_type : value_type -> value_type -> value_type.
Variable tokens : list lex_token.
Variable tree : ast.
Variable stops : list lex_token -> Prop.
Hypothesis operand_reads : reads operand tokens tree stops.

Lemma loop_production_passes (fuel : nat) :
  reads (binary_loop_production operand operators admits result_type fuel)
    tokens tree (fun tail => stops tail /\ ~ In (head_type tail) operators).
Proof.
  intros tail tab errs acc [Hs Hn]. unfold binary_loop_production.
  destruct (operand_reads tail tab errs acc Hs) as [acc1 E]. rewrite E.
  exists acc1.
  destruct fuel; cbn [binary_while]; rewrite accept_any_other by exact Hn;
    reflexivity.
Qed.

Lemma once_production_passes :
  reads (binary_once_production operand operators admits result_type)
    tokens tree (fun tail => stops tail /\ ~ In (head_type tail) operators).
Proof.
  intros tail tab errs acc [Hs Hn]. unfold binary_once_production.
  destruct (operand_reads tail tab errs acc Hs) as [acc1 E]. rewrite E.
  exists acc1. cbn [binary_if]. rewrite accept_any_other by exact Hn.
  reflexivity.
Qed.
End Passing.

Lemma cast_expression_reads_literal (expression : parser -> presult)
  (fuel : nat) (n : Z) :
  reads (cast_expression expression (S fuel)) (literal_tokens n)
    (literal_tree n) (fun _ => True).
Proof.
  intros rest tab errs acc _. exists (tok_integer n).
  unfold literal_tokens. cbn [app cast_expression].
  cbn [parser_at hd symbol ltype tok_integer lex_token_type_eqb].
  unfold unary_expression.
  rewrite (accept_any_other _ (tok_integer n :: rest))
    by (cbn; intuition discriminate).
  unfold factor.
  rewrite (accept_other (tok_integer n :: rest)) by (cbn; discriminate).
  rewrite (accept_at (tok_integer n) rest). reflexivity.
Qed.

Lemma in_chain_operators {A : Type} (c : chain A) (x : lex_token_type * A) :
  In x (snd c) -> In (fst x) (chain_operators c).
Proof. intro H. unfold chain_operators. apply in_map. exact H. Qed.

Lemma muldiv_reads_product (expression : parser -> presult) (fuel : nat)
  (c : chain Z) :
  (List.length (snd c) < fuel)%nat -> multiplicative c ->
  reads (muldiv_expression expression fuel) (product_tokens c) (product_tree c)
    (fun tail => ~ In (head_type tail) [LEX_MUL; LEX_DIV; LEX_MOD]).
Proof.
  intros Hf Hm tail tab errs acc Hn.
  destruct fuel as [|fuel]; [lia|].
  unfold muldiv_expression, product_tokens, product_tree.
  apply (loop_production_reads_chain
           (cast_expression expression (S fuel)) [LEX_MUL; LEX_DIV; LEX_MOD]
           muldiv_admits HIGHER_TYPE Z literal_tokens literal_tree
           (fun _ => True) (fun _ => True)).
  - intros a _. apply cast_expression_reads_literal.
  - reflexivity.
  - intros op Hop. cbn in Hop.
    destruct Hop as [<-|[<-|[<-|[]]]]; reflexivity.
  - reflexivity.
  - intros; exact I.
  - lia.
  - exact I.
  - intros x Hx. split; [|exact I]. apply Hm. apply in_chain_operators, Hx.
  - split; [exact I | exact Hn].
Qed.

Lemma product_tree_s32 (c : chain Z) : ast_value_type (product_tree c) = S32.
Proof. apply chain_tree_s32. reflexivity. Qed.

Lemma addsub_reads_sum (expression : parser -> presult) (fuel : nat)
  (c : chain (chain Z)) :
  (List.length (snd c) <= fuel)%nat ->
  (List.length (snd (fst c)) < fuel)%nat ->
  (forall x, In x (snd c) -> (List.length (snd (snd x)) < fuel)%nat) ->
  additive c ->
  reads (addsub_expression expression fuel) (sum_tokens c) (sum_tree c)
    (fun tail => ~ In (head_type tail)
                      [LEX_MUL; LEX_DIV; LEX_MOD; LEX_ADD; LEX_SUB]).
Proof.
  intros Hf Hf0 Hfs [Ha [Hm0 Hms]] tail tab errs acc Hn.
  unfold addsub_expression, sum_tokens, sum_tree.
  apply (loop_production_reads_chain
           (muldiv_expression expression fuel) [LEX_ADD; LEX_SUB]
           both_numeric HIGHER_TYPE (chain Z) product_tokens product_tree
           (fun tail => ~ In (head_type tail) [LEX_MUL; LEX_DIV; LEX_MOD])
           (fun p => (List.length (snd p) < fuel)%nat /\ multiplicative p)).
  - intros p [Hp1 Hp2]. apply muldiv_reads_product; assumption.
  - apply product_tree_s32.
  - intros op Hop. cbn in Hop. destruct Hop as [<-|[<-|[]]]; reflexivity.
  - reflexivity.
  - intros op rest Hop. cbn in Hop |- *.
    destruct Hop as [<-|[<-|[]]]; cbn; intuition discriminate.
  - exact Hf.
  - split; assumption.
  - intros x Hx. split; [apply Ha, in_chain_operators, Hx|].
    split; [apply Hfs, Hx | apply Hms, Hx].
  - split; intro H; apply Hn; cbn in H |- *; tauto.
Qed.

Lemma flat_map_length_ge {A B : Type} (f : A -> list B) (l : list A) :
  (forall x, (1 <= List.length (f x))%nat) ->
  (List.length l <= List.length (flat_map f l))%nat.
Proof.
  intro Hf. induction l as [|x l IH]; cbn [flat_map List.length]; [lia|].
  rewrite length_app. pose proof (Hf x). lia.
Qed.

Lemma flat_map_length_in {A B : Type} (f : A -> list B) (l : list A) (x : A) :
  In x l -> (List.length (f x) <= List.length (flat_map f l))%nat.
Proof.
  induction l as [|y l IH]; intro H; [contradiction|].
  cbn [flat_map]. rewrite length_app. destruct H as [->|H]; [lia|].
  apply IH in H. lia.
Qed.

Lemma chain_tokens_length {A : Type} (tokens : A -> list lex_token)
  (c : chain A) :
  (List.length (snd c) <= List.length (chain_tokens tokens c))%nat /\
  (List.length (tokens (fst c)) <= List.length (chain_tokens tokens c))%nat /\
  forall x, In x (snd c) ->
    (List.length (tokens (snd x)) <= List.length (chain_tokens tokens c))%nat.
Proof.
  unfold chain_tokens. rewrite length_app. repeat split.
  - pose proof (flat_map_length_ge
                  (fun x => token (fst x) :: tokens (snd x)) (snd c)) as H.
    cbn [List.length] in H. specialize (H ltac:(intro; lia)). lia.
  - lia.
  - intros x Hx.
    pose proof (flat_map_length_in
                  (fun x => token (fst x) :: tokens (snd x)) (snd c) x Hx) as H.
    cbn [List.length] in H. lia.
Qed.

Lemma expression_reads_sum (fuel : nat) (c : chain (chain Z)) tab errs acc :
  (List.length (sum_tokens c) <= fuel)%nat -> additive c ->
  exists acc',
    expression (S (S fuel)) (parser_at (sum_tokens c) tab errs acc)
    = Some (Some (sum_tree c), parser_at [] tab errs acc').
Proof.
  intros Hf Ha.
  destruct (chain_tokens_length product_tokens c) as [L1 [L2 L3]].
  fold (sum_tokens c) in L1, L2, L3.
  pose proof (proj1 (chain_tokens_length literal_tokens (fst c))) as L4.
  fold (product_tokens (fst c)) in L4.
  assert (R : reads (addsub_expression (expression (S fuel)) (S fuel))
                (sum_tokens c) (sum_tree c)
                (fun tail => ~ In (head_type tail)
                      [LEX_MUL; LEX_DIV; LEX_MOD; LEX_ADD; LEX_SUB])).
  { apply addsub_reads_sum; [lia | lia | | exact Ha].
    intros x Hx. specialize (L3 x Hx).
    pose proof (proj1 (chain_tokens_length literal_tokens (snd x))) as L5.
    fold (product_tokens (snd x)) in L5. lia. }
  pose proof (loop_production_passes _ [LEX_SHL; LEX_SHR] both_INT
                (fun l _ => l) _ _ _ R (S fuel)) as R1.
  pose proof (once_production_passes _ [LEX_LT; LEX_GT; LEX_LE; LEX_GE]
                both_numeric (fun _ _ => SINT) _ _ _ R1) as R2.
  pose proof (once_production_passes _ [LEX_EQ; LEX_NEQ]
                both_numeric (fun _ _ => SINT) _ _ _ R2) as R3.
  pose proof (loop_production_passes _ [LEX_AND] both_INT HIGHER_TYPE
                _ _ _ R3 (S fuel)) as R4.
  pose proof (loop_production_passes _ [LEX_XOR] both_INT HIGHER_TYPE
                _ _ _ R4 (S fuel)) as R5.
  pose proof (loop_production_passes _ [LEX_OR] both_INT HIGHER_TYPE
                _ _ _ R5 (S fuel)) as R6.
  pose proof (loop_production_passes _ [LEX_AND_COND; LEX_OR_COND]
                (fun _ _ _ => true) (fun _ _ => SINT) _ _ _ R6 (S fuel)) as R7.
  specialize (R7 [] tab errs acc). rewrite app_nil_r in R7.
  destruct R7 as [acc' E].
  { repeat split; cbn; intuition discriminate. }
  exists acc'. cbn [expression].
  assert (Hsym : lex_token_type_eqb
                   (ltype (symbol (parser_at (sum_tokens c) tab errs acc)))
                   LEX_EOL = false).
  { destruct c as [[n ps] rest]. reflexivity. }
  rewrite Hsym. exact E.
Qed.

(** X15.  The parser gives [*], [/] and [%] precedence over [+] and [-] and
    makes both levels associate to the left: the tokens of a sum of
    products of integer literals, of any length, parse without error to
    the tree that nests each product under the sum and each chain to the
    left. *)
Theorem sum_of_products_parses (c : chain (chain Z))
  (tab : option symbol_table) :
  additive c ->
  parse_expression (map Lexed (sum_tokens c)) tab
  = Some (0%nat, Some (sum_tree c)).
Proof.
  intro Ha. unfold parse_expression. rewrite next_symbol_at.
  unfold parse_fuel. rewrite length_map.
  destruct (expression_reads_sum (List.length (sum_tokens c)) c tab 0%nat
              (token LEX_EOL) (Nat.le_refl _) Ha) as [acc' E].
  rewrite E. reflexivity.
Qed.

Ltac chain_cases :=
  repeat split;
  repeat (let x := fresh "x" in
          let Hx := fresh "Hx" in
          intros x Hx; vm_compute in Hx;
          repeat (destruct Hx as [Hx|Hx]; [subst x|]); try contradiction);
  cbn; tauto.

Lemma sum_of_products_parses_witness :
  parse_expression (map Lexed (sum_tokens sum_1_mul_2_sub_3_div_4_add_5)) None
  = Some (0%nat,
          Some (Binop AST_ADD S32
                  (Binop AST_SUB S32
                     (Binop AST_MUL S32 (ast_int_new 1) (ast_int_new 2))
                     (Binop AST_DIV S32 (ast_int_new 3) (ast_int_new 4)))
                  (ast_int_new 5))).
Proof.
  apply (sum_of_products_parses sum_1_mul_2_sub_3_div_4_add_5 None).
  chain_cases.
Defined.

Section OnceLevel.
Variable operand : parser -> presult.
Variable operators : list lex_token_type.
Variable admits : ast_type -> value_type -> value_type -> bool.
Variable result_type : value_type -> value_type -> value_type.
Variable stops : list lex_token -> Prop.
Variables ltokens rtokens : list lex_token.
Variables ltree rtree : ast.
Variable op : lex_token_type.
Hypothesis left_reads : reads operand ltokens ltree stops.
Hypothesis right_reads : reads operand rtokens rtree stops.
Hypothesis op_in : In op operators.
Hypothesis op_stops : forall rest, stops (token op :: rest).
Hypothesis op_admitted :
  admits (lex_to_ast_type op) (ast_value_type ltree) (ast_value_type rtree)
  = true.

Lemma once_production_reads_pair :
  reads (binary_once_production operand operators admits result_type)
    (ltokens ++ token op :: rtokens)
    (Binop (lex_to_ast_type op)
       (result_type (ast_value_type ltree) (ast_value_type rtree)) ltree rtree)
    stops.
Proof.
  intros tail tab errs acc Hs. unfold binary_once_production.
  rewrite <- app_assoc, <- app_comm_cons.
  destruct (left_reads (token op :: rtokens ++ tail) tab errs acc
              (op_stops _)) as [acc1 E1].
  rewrite E1. cbn [binary_if]. rewrite accept_any_at by exact op_in.
  unfold binary_body.
  destruct (right_reads tail tab errs (token op) Hs) as [acc2 E2].
  rewrite E2. cbn [accepted parser_at ltype token]. rewrite op_admitted.
  exists acc2. reflexivity.
Qed.
End OnceLevel.

Lemma skip_line_errors (fuel : nat) (line : list lex_token) tab errs acc :
  errors (skip_line fuel (parser_at line tab errs acc)) = errs.
Proof.
  revert line acc. induction fuel as [|fuel IH]; intros line acc;
    cbn [skip_line]; [reflexivity|].
  cbv zeta. unfold parser_at. rewrite !next_symbol_at. cbn [snd].
  destruct (negb _); [apply IH | reflexivity].
Qed.

Lemma sum_tree_s32 (c : chain (chain Z)) : ast_value_type (sum_tree c) = S32.
Proof. apply chain_tree_s32. apply product_tree_s32. Qed.

Lemma shift_reads_sum (expression : parser -> presult) (fuel : nat)
  (c : chain (chain Z)) :
  sums_fit fuel c ->
  reads (shift_expression expression (S fuel)) (sum_tokens c) (sum_tree c)
    (fun tail => ~ In (head_type tail)
                   [LEX_MUL; LEX_DIV; LEX_MOD; LEX_ADD; LEX_SUB;
                    LEX_SHL; LEX_SHR]).
Proof.
  intros [Hf Ha].
  destruct (chain_tokens_length product_tokens c) as [L1 [L2 L3]].
  fold (sum_tokens c) in L1, L2, L3.
  pose proof (proj1 (chain_tokens_length literal_tokens (fst c))) as L4.
  fold (product_tokens (fst c)) in L4.
  assert (R : reads (addsub_expression expression (S fuel))
                (sum_tokens c) (sum_tree c)
                (fun tail => ~ In (head_type tail)
                      [LEX_MUL; LEX_DIV; LEX_MOD; LEX_ADD; LEX_SUB])).
  { apply addsub_reads_sum; [lia | lia | | exact Ha].
    intros x Hx. specialize (L3 x Hx).
    pose proof (proj1 (chain_tokens_length literal_tokens (snd x))) as L5.
    fold (product_tokens (snd x)) in L5. lia. }
  pose proof (loop_production_passes _ [LEX_SHL; LEX_SHR] both_INT
                (fun l _ => l) _ _ _ R (S fuel)) as R1.
  intros tail tab errs acc Hn. apply R1.
  split; intro H; apply Hn; cbn in H |- *; tauto.
Qed.

Lemma reads_weaken (f : parser -> presult) (tokens : list lex_token)
  (tree : ast) (stops stops' : list lex_token -> Prop) :
  (forall tail, stops' tail -> stops tail) ->
  reads f tokens tree stops -> reads f tokens tree stops'.
Proof. intros Hw Hr tail tab errs acc Hs. apply Hr, Hw, Hs. Qed.

Section Comparisons.
Variable fuel : nat.
Variable expression : parser -> presult.
Variables x y z : chain (chain Z).
Hypothesis Hx : sums_fit fuel x.
Hypothesis Hy : sums_fit fuel y.
Hypothesis Hz : sums_fit fuel z.
Variables rel eqop : lex_token_type.
Hypothesis Hrel : In rel relational_operators.
Hypothesis Heq : In eqop equality_operators.

Lemma relational_reads_pair :
  reads (relational_expression expression (S fuel))
    (sum_tokens x ++ token rel :: sum_tokens y)
    (comparison_tree rel (sum_tree x) (sum_tree y)) stops_shift.
Proof.
  pose proof (once_production_reads_pair
                (shift_expression expression (S fuel)) relational_operators
                both_numeric (fun _ _ => SINT) stops_shift
                (sum_tokens x) (sum_tokens y) (sum_tree x) (sum_tree y) rel
                (shift_reads_sum _ _ _ Hx) (shift_reads_sum _ _ _ Hy) Hrel)
    as R.
  rewrite !sum_tree_s32 in R. apply R.
  - intro rest. unfold stops_shift, relational_operators in *.
    cbn in Hrel |- *. intuition (subst; discriminate).
  - reflexivity.
Qed.

Lemma relational_reads_sum (c : chain (chain Z)) :
  sums_fit fuel c ->
  reads (relational_expression expression (S fuel))
    (sum_tokens c) (sum_tree c) stops_rel.
Proof.
  intro Hc.
  exact (once_production_passes _ relational_operators both_numeric
           (fun _ _ => SINT) _ _ _ (shift_reads_sum _ _ _ Hc)).
Qed.

Lemma equality_reads_pair :
  reads (equality_expression expression (S fuel))
    (sum_tokens x ++ token eqop :: sum_tokens y)
    (comparison_tree eqop (sum_tree x) (sum_tree y)) stops_rel.
Proof.
  pose proof (once_production_reads_pair
                (relational_expression expression (S fuel)) equality_operators
                both_numeric (fun _ _ => SINT) stops_rel
                (sum_tokens x) (sum_tokens y) (sum_tree x) (sum_tree y) eqop
                (relational_reads_sum x Hx) (relational_reads_sum y Hy) Heq)
    as R.
  rewrite !sum_tree_s32 in R. apply R.
  - intro rest. unfold stops_rel, stops_shift, equality_operators in *.
    cbn in Heq |- *. intuition (subst; discriminate).
  - reflexivity.
Qed.

Lemma equality_reads_relational_first :
  reads (equality_expression expression (S fuel))
    ((sum_tokens x ++ token rel :: sum_tokens y) ++ token eqop :: sum_tokens z)
    (comparison_tree eqop (comparison_tree rel (sum_tree x) (sum_tree y))
       (sum_tree z)) stops_rel.
Proof.
  pose proof (once_production_reads_pair
                (relational_expression expression (S fuel)) equality_operators
                both_numeric (fun _ _ => SINT) stops_rel
                (sum_tokens x ++ token rel :: sum_tokens y) (sum_tokens z)
                (comparison_tree rel (sum_tree x) (sum_tree y)) (sum_tree z) eqop)
    as R.
  rewrite sum_tree_s32 in R. apply R.
  - apply (reads_weaken _ _ _ stops_shift); [intros t [H _]; exact H|].
    apply relational_reads_pair.
  - apply relational_reads_sum, Hz.
  - exact Heq.
  - intro rest. unfold stops_rel, stops_shift, equality_operators in *.
    cbn in Heq |- *. intuition (subst; discriminate).
  - reflexivity.
Qed.
End Comparisons.

Lemma parse_error_at (line : list lex_token) tab errs acc :
  parse_error (parser_at line tab errs acc) = parser_at line tab (S errs) acc.
Proof. reflexivity. Qed.

Lemma parse_expression_of_equality (tokens tail : list lex_token) (tree : ast)
  (stops : list lex_token -> Prop) (tab : option symbol_table) :
  reads (equality_expression
           (expression (S (List.length (tokens ++ tail))))
           (S (List.length (tokens ++ tail)))) tokens tree stops ->
  stops tail -> ~ In (head_type tail) above_equality ->
  head_type (tokens ++ tail) <> LEX_EOL ->
  parse_expression (map Lexed (tokens ++ tail)) tab
  = if lex_token_type_eqb (head_type tail) LEX_EOL
    then Some (0%nat, Some tree) else Some (1%nat, None).
Proof.
  intros R Hs Hn Hne. set (fuel := S (List.length (tokens ++ tail))) in *.
  pose proof (loop_production_passes _ [LEX_AND] both_INT HIGHER_TYPE
                _ _ _ R fuel) as R4.
  pose proof (loop_production_passes _ [LEX_XOR] both_INT HIGHER_TYPE
                _ _ _ R4 fuel) as R5.
  pose proof (loop_production_passes _ [LEX_OR] both_INT HIGHER_TYPE
                _ _ _ R5 fuel) as R6.
  pose proof (loop_production_passes _ [LEX_AND_COND; LEX_OR_COND]
                (fun _ _ _ => true) (fun _ _ => SINT) _ _ _ R6 fuel) as R7.
  destruct (R7 tail tab 0%nat (token LEX_EOL)) as [acc' E].
  { unfold above_equality in Hn. cbn in Hn |- *. tauto. }
  unfold parse_expression. rewrite next_symbol_at.
  unfold parse_fuel. rewrite length_map. fold fuel. cbn [expression].
  assert (Hsym : lex_token_type_eqb
                   (ltype (symbol (parser_at (tokens ++ tail) tab 0%nat
                                     (token LEX_EOL)))) LEX_EOL = false).
  { destruct (lex_token_type_eqb _ _) eqn:C; [|reflexivity].
    apply lex_token_type_eqb_eq in C. contradiction. }
  rewrite Hsym. unfold conditional_expression, or_expression, xor_expression,
    and_expression. rewrite E.
  change (ltype (symbol (parser_at tail tab 0%nat acc'))) with (head_type tail).
  destruct (lex_token_type_eqb (head_type tail) LEX_EOL); cbn [negb].
  - reflexivity.
  - rewrite parse_error_at, skip_line_errors. reflexivity.
Qed.

Lemma sum_tokens_head (c : chain (chain Z)) (tail : list lex_token) :
  head_type (sum_tokens c ++ tail) <> LEX_EOL.
Proof. destruct c as [[n ps] rest]. cbn. discriminate. Qed.

Lemma sums_fit_in (c : chain (chain Z)) (before after : list lex_token) :
  additive c ->
  sums_fit (List.length (before ++ sum_tokens c ++ after)) c.
Proof. intro H. split; [|exact H]. rewrite !length_app. lia. Qed.

(** X16.  Comparisons do not chain: relational_expression and
    equality_expression take their operator once, with [if] where the
    other levels loop, so [a < b < c] and [a == b != c] are parse errors:
    whatever tokens follow the second operator, exactly one error is
    counted and no tree is returned.  (Where the lexer fails on what
    follows, next_symbol counts an error of its own.) *)
Theorem comparisons_do_not_chain (x y : chain (chain Z))
  (op1 op2 : lex_token_type) (rest : list lex_token)
  (tab : option symbol_table) :
  additive x -> additive y ->
  (In op1 relational_operators /\ In op2 relational_operators) \/
  (In op1 equality_operators /\ In op2 equality_operators) ->
  parse_expression
    (map Lexed ((sum_tokens x ++ token op1 :: sum_tokens y)
                ++ token op2 :: rest)) tab
  = Some (1%nat, None).
Proof.
  intros Hx Hy Hops.
  set (tokens := sum_tokens x ++ token op1 :: sum_tokens y).
  set (tail := token op2 :: rest).
  assert (Fx : sums_fit (List.length (tokens ++ tail)) x).
  { pose proof (sums_fit_in x [] (token op1 :: sum_tokens y ++ tail) Hx) as F.
    unfold tokens. rewrite <- app_assoc. exact F. }
  assert (Fy : sums_fit (List.length (tokens ++ tail)) y).
  { pose proof (sums_fit_in y (sum_tokens x ++ [token op1]) tail Hy) as F.
    unfold tokens.
    replace ((sum_tokens x ++ token op1 :: sum_tokens y) ++ tail)
      with ((sum_tokens x ++ [token op1]) ++ sum_tokens y ++ tail)
      by (rewrite <- !app_assoc; reflexivity).
    exact F. }
  destruct Hops as [[H1 H2]|[H1 H2]].
  - pose proof (parse_expression_of_equality tokens tail
                  (comparison_tree op1 (sum_tree x) (sum_tree y)) _ tab
                  (once_production_passes _ equality_operators both_numeric
                     (fun _ _ => SINT) _ _ _
                     (relational_reads_pair _ _ x y Fx Fy op1 H1))) as P.
    rewrite P.
    + unfold tail. cbn [head_type hd ltype token].
      unfold relational_operators in H2. cbn in H2.
      intuition (subst; reflexivity).
    + unfold stops_rel, stops_shift, tail, relational_operators,
        below_relational, equality_operators in *. cbn in H2 |- *. intuition (subst; discriminate).
    + unfold tail, relational_operators, above_equality in *.
      cbn in H2 |- *. intuition (subst; discriminate).
    + unfold tokens. rewrite <- app_assoc. apply sum_tokens_head.
  - pose proof (parse_expression_of_equality tokens tail
                  (comparison_tree op1 (sum_tree x) (sum_tree y)) _ tab
                  (equality_reads_pair _ _ x y Fx Fy op1 H1)) as P.
    rewrite P.
    + unfold tail. cbn [head_type hd ltype token].
      unfold equality_operators in H2. cbn in H2.
      intuition (subst; reflexivity).
    + unfold stops_rel, stops_shift, tail, relational_operators,
        below_relational, equality_operators in *. cbn in H2 |- *. intuition (subst; discriminate).
    + unfold tail, equality_operators, above_equality in *.
      cbn in H2 |- *. intuition (subst; discriminate).
    + unfold tokens. rewrite <- app_assoc. apply sum_tokens_head.
Qed.

(** [1 < 6 <] before input the lexer fails on: "EOL expected" and the
    lexer error. *)
Example comparison_chain_before_lexer_failure :
  parse_expression
    [Lexed (tok_integer 1); Lexed (token LEX_LT); Lexed (tok_integer 6);
     Lexed (token LEX_LT); LexFail] None
  = Some (2%nat, None).
Proof. reflexivity. Qed.

Lemma comparisons_do_not_chain_witness :
  parse_expression
    (map Lexed ((sum_tokens sum_1_mul_2_sub_3_div_4_add_5
                 ++ token LEX_LT :: sum_tokens sum_6)
                ++ token LEX_LT :: sum_tokens sum_7)) None
  = Some (1%nat, None).
Proof.
  apply (comparisons_do_not_chain sum_1_mul_2_sub_3_div_4_add_5 sum_6
           LEX_LT LEX_LT (sum_tokens sum_7) None).
  - chain_cases.
  - chain_cases.
  - left. cbn; tauto.
Defined.

(** X17.  A relational operator binds tighter than an equality operator:
    [a < b == c] parses to the equality of the comparison [a < b] and
    [c], both nodes of type s32. *)
Theorem relational_binds_tighter_than_equality (x y z : chain (chain Z))
  (rel eqop : lex_token_type) (tab : option symbol_table) :
  additive x -> additive y -> additive z ->
  In rel relational_operators -> In eqop equality_operators ->
  parse_expression
    (map Lexed ((sum_tokens x ++ token rel :: sum_tokens y)
                ++ token eqop :: sum_tokens z)) tab
  = Some (0%nat,
          Some (comparison_tree eqop
                  (comparison_tree rel (sum_tree x) (sum_tree y))
                  (sum_tree z))).
Proof.
  intros Hx Hy Hz Hrel Heq.
  set (tokens := (sum_tokens x ++ token rel :: sum_tokens y)
                 ++ token eqop :: sum_tokens z).
  assert (Fx : sums_fit (List.length (tokens ++ [])) x).
  { pose proof (sums_fit_in x []
                  (token rel :: sum_tokens y ++ token eqop :: sum_tokens z) Hx)
      as F.
    unfold tokens. rewrite app_nil_r, <- app_assoc. exact F. }
  assert (Fy : sums_fit (List.length (tokens ++ [])) y).
  { pose proof (sums_fit_in y (sum_tokens x ++ [token rel])
                  (token eqop :: sum_tokens z) Hy) as F.
    unfold tokens. rewrite app_nil_r.
    replace ((sum_tokens x ++ token rel :: sum_tokens y)
             ++ token eqop :: sum_tokens z)
      with ((sum_tokens x ++ [token rel]) ++ sum_tokens y
            ++ token eqop :: sum_tokens z)
      by (rewrite <- !app_assoc; reflexivity).
    exact F. }
  assert (Fz : sums_fit (List.length (tokens ++ [])) z).
  { pose proof (sums_fit_in z
                  ((sum_tokens x ++ token rel :: sum_tokens y) ++ [token eqop])
                  [] Hz) as F.
    unfold tokens. rewrite !app_nil_r in *.
    replace ((sum_tokens x ++ token rel :: sum_tokens y)
             ++ token eqop :: sum_tokens z)
      with (((sum_tokens x ++ token rel :: sum_tokens y) ++ [token eqop])
            ++ sum_tokens z)
      by (rewrite <- !app_assoc; reflexivity).
    exact F. }
  pose proof (parse_expression_of_equality tokens [] _ _ tab
                (equality_reads_relational_first _ _ x y z Fx Fy Fz rel eqop
                   Hrel Heq)) as P.
  rewrite app_nil_r in P. rewrite P; [reflexivity | | | ].
  - unfold stops_rel, stops_shift. split; cbn; intuition discriminate.
  - cbn; intuition discriminate.
  - unfold tokens. rewrite <- !app_assoc. apply sum_tokens_head.
Qed.

Lemma relational_binds_tighter_than_equality_witness :
  parse_expression
    (map Lexed ((sum_tokens sum_1_mul_2_sub_3_div_4_add_5
                 ++ token LEX_LT :: sum_tokens sum_6)
                ++ token LEX_EQ :: sum_tokens sum_7)) None
  = Some (0%nat,
          Some (comparison_tree LEX_EQ
                  (comparison_tree LEX_LT
                     (sum_tree sum_1_mul_2_sub_3_div_4_add_5)
                     (sum_tree sum_6))
                  (sum_tree sum_7))).
Proof.
  apply (relational_binds_tighter_than_equality
           sum_1_mul_2_sub_3_div_4_add_5 sum_6 sum_7 LEX_LT LEX_EQ None).
  - chain_cases.
  - chain_cases.
  - chain_cases.
  - cbn; tauto.
  - cbn; tauto.
Defined.

(** ** cli.c: words, items, indices and sizes *)

(** X18.  accept of cli.c matches a command word as a whole word: it
    succeeds exactly when the input is the word followed by the end of the
    line or by white space, and then leaves the input after that white
    space; a longer word of which the command is a prefix is refused. *)
Theorem command_word_is_matched_whole (input what rest : list ascii) :
  cli_accept input what = Some rest <->
  exists tail,
    input = what ++ tail /\ rest = skip_spaces tail /\
    (tail = [] \/ exists c tail', tail = c :: tail' /\ isspace c = true).
Proof.
  revert input. induction what as [|w what IH]; intro input.
  - cbn [cli_accept app]. split.
    + intro H. exists input. destruct input as [|c input'].
      * inversion H. repeat split. left; reflexivity.
      * destruct (isspace c) eqn:S; [|discriminate].
        inversion H. repeat split. right.
        exists c, input'. split; [reflexivity|exact S].
    + intros [tail [E1 [E2 E3]]]. cbn [app] in E1. subst.
      destruct E3 as [E3|[c [tail' [E3 S]]]]; subst; [reflexivity|].
      rewrite S. reflexivity.
  - cbn [cli_accept]. destruct input as [|c input'].
    + split; [discriminate|]. intros [tail [E _]]. discriminate.
    + destruct (Ascii.eqb w c) eqn:E.
      * apply Ascii.eqb_eq in E. subst c. rewrite (IH input').
        split; intros [tail [E1 E2]]; exists tail; split; auto;
          cbn [app] in *; congruence.
      * split; [discriminate|]. intros [tail [E1 _]]. cbn [app] in E1.
        inversion E1; subst. rewrite Ascii.eqb_refl in E. discriminate.
Qed.

Lemma eat_item_loop_not_unwrapped (input : list ascii) :
  forall at_pin depth n d u pend,
    eat_item_loop input at_pin depth false = (n, d, u, pend) -> u = false.
Proof.
  induction input as [|c rest IH]; intros at_pin depth n d u pend H;
    cbn [eat_item_loop] in H.
  - inversion H; reflexivity.
  - destruct (negb (depth =? 0) || negb (isspace c)).
    + cbn [andb] in H.
      destruct (eat_item_loop rest false (depth + paren_step c) false)
        as [[[n' d'] u'] pend'] eqn:E.
      inversion H; subst. exact (IH _ _ _ _ _ _ E).
    + inversion H; reflexivity.
Qed.

Lemma eat_item_loop_shape (input : list ascii) :
  forall at_pin depth unwrap n d u pend,
    eat_item_loop input at_pin depth unwrap = (n, d, u, pend) ->
    input = firstn n input ++ pend /\
    List.length (firstn n input) = n /\
    d = depth + paren_depth (firstn n input) /\
    (d = 0 \/ pend = []).
Proof.
  induction input as [|c rest IH]; intros at_pin depth unwrap n d u pend H;
    cbn [eat_item_loop] in H.
  - inversion H; subst. cbn. repeat split; [lia | right; reflexivity].
  - destruct (negb (depth =? 0) || negb (isspace c)) eqn:C.
    + destruct (eat_item_loop rest false (depth + paren_step c) _)
        as [[[n' d'] u'] pend'] eqn:E.
      inversion H; subst. destruct (IH _ _ _ _ _ _ _ E) as [H1 [H2 [H3 H4]]].
      cbn [firstn app List.length paren_depth fold_right].
      fold (paren_depth (firstn n' rest)).
      repeat split; [f_equal; exact H1 | f_equal; exact H2 | lia | exact H4].
    + inversion H; subst. cbn. repeat split; [lia|]. left.
      apply orb_false_iff in C. destruct C as [C _].
      apply negb_false_iff, Z.eqb_eq in C. exact C.
Qed.

Lemma paren_step_cases (c : ascii) :
  (paren_step c = 1 /\ c = "("%char) \/ (paren_step c = -1 /\ c = ")"%char)
  \/ paren_step c = 0.
Proof.
  unfold paren_step.
  destruct (Ascii.eqb_spec c "("); destruct (Ascii.eqb_spec c ")"); subst;
    try discriminate; auto.
Qed.

Lemma eat_item_loop_unwrapped (input : list ascii) :
  forall depth unwrap n pend,
    0 < depth ->
    eat_item_loop input false depth unwrap = (n, 0, true, pend) ->
    exists body, firstn n input = body ++ [(")"%char)].
Proof.
  induction input as [|c rest IH]; intros depth unwrap n pend Hd H;
    cbn [eat_item_loop] in H.
  - inversion H; lia.
  - assert (C : (depth =? 0) = false) by (apply Z.eqb_neq; lia).
    rewrite C in H. cbn [negb orb andb] in H.
    replace (if unwrap && false && true then false else unwrap) with unwrap in H
      by (destruct unwrap; reflexivity).
    destruct (eat_item_loop rest false (depth + paren_step c) unwrap)
      as [[[n' d'] u'] pend'] eqn:E.
    inversion H; subst. cbn [firstn].
    destruct (Z_lt_le_dec 0 (depth + paren_step c)) as [Hpos|Hzero].
    + destruct (IH _ _ _ _ Hpos E) as [body Hb].
      exists (c :: body). rewrite Hb. reflexivity.
    + destruct (paren_step_cases c) as [[Hs _]|[[Hs Hc]|Hs]]; try lia.
      assert (Hz : depth + paren_step c = 0) by lia. rewrite Hz in E.
      subst c. exists [].
      destruct rest as [|c2 rest']; cbn [eat_item_loop] in E.
      * inversion E; subst. reflexivity.
      * cbn [Z.eqb negb orb andb] in E.
        destruct (isspace c2); cbn [negb] in E.
        -- inversion E; subst. reflexivity.
        -- replace (if unwrap && true && true then false else unwrap)
             with false in E by (destruct unwrap; reflexivity).
           destruct (eat_item_loop rest' false (0 + paren_step c2) false)
             as [[[n2 d2] u2] pend2] eqn:E2.
           pose proof (eat_item_loop_not_unwrapped _ _ _ _ _ _ _ E2) as Hu.
           inversion E. congruence.
Qed.

Lemma eat_item_unwrapped_shape (input : list ascii) (n : nat)
  (pend : list ascii) :
  eat_item_loop input true 0
    match input with c :: _ => Ascii.eqb c "(" | [] => false end
  = (n, 0, true, pend) ->
  firstn n input
  = ("("%char :: firstn (n - 2) (skipn 1 input)) ++ [(")"%char)].
Proof.
  destruct input as [|c rest]; [discriminate|].
  destruct (Ascii.eqb c "(") eqn:P.
  2:{ intro H. pose proof (eat_item_loop_not_unwrapped _ _ _ _ _ _ _ H).
      discriminate. }
  apply Ascii.eqb_eq in P. subst c.
  cbn -[Ascii.eqb paren_step isspace].
  change (isspace "(") with false. cbn [negb].
  change (paren_step "(") with 1.
  destruct (eat_item_loop rest false 1 true) as [[[n' d'] u'] pend'] eqn:E.
  intro H. inversion H; subst. clear H.
  destruct (eat_item_loop_unwrapped rest 1 true _ _ Z.lt_0_1 E) as [body Hb].
  pose proof (eat_item_loop_shape _ _ _ _ _ _ _ _ E) as [_ [G2 _]].
  assert (Hn : n' = S (List.length body)).
  { rewrite Hb, length_app in G2. cbn in G2. lia. }
  subst n'. rewrite firstn_cons.
  change (skipn 1 ("("%char :: rest)) with rest.
  replace (S (S (List.length body)) - 2)%nat with (List.length body) by lia.
  cbn [app]. f_equal. rewrite Hb. f_equal.
  pose proof (firstn_firstn rest (List.length body) (S (List.length body)))
    as F.
  replace (Nat.min (List.length body) (S (List.length body)))
    with (List.length body) in F by lia.
  rewrite <- F, Hb, firstn_app, firstn_all, Nat.sub_diag. cbn.
  symmetry. apply app_nil_r.
Qed.

Lemma paren_depth_cons (c : ascii) (s : list ascii) :
  paren_depth (c :: s) = paren_step c + paren_depth s.
Proof. reflexivity. Qed.

Lemma eat_item_loop_span (input : list ascii) :
  forall at_pin depth unwrap n d u pend,
    eat_item_loop input at_pin depth unwrap = (n, d, u, pend) ->
    (pend = [] \/
     (d = 0 /\ exists c tail', pend = c :: tail' /\ isspace c = true)) /\
    (forall p c q, firstn n input = p ++ c :: q ->
       depth + paren_depth p <> 0 \/ isspace c = false) /\
    (u = true <->
     unwrap = true /\
     forall p c q, firstn n input = p ++ c :: q ->
       (at_pin = true /\ p = []) \/ depth + paren_depth p <> 0).
Proof.
  induction input as [|c rest IH]; intros at_pin depth unwrap n d u pend H;
    cbn [eat_item_loop] in H.
  - inversion H; subst. cbn [firstn].
    split; [left; reflexivity|].
    split; [intros p c q E; destruct p; discriminate|].
    split.
    + intro Hu. split; [exact Hu|]. intros p c q E; destruct p; discriminate.
    + intros [Hu _]. exact Hu.
  - destruct (negb (depth =? 0) || negb (isspace c)) eqn:C.
    + destruct (eat_item_loop rest false (depth + paren_step c) _)
        as [[[n' d'] u'] pend'] eqn:E.
      inversion H; subst. clear H.
      destruct (IH _ _ _ _ _ _ _ E) as [H1 [H2 H3]].
      cbn [firstn].
      assert (Hc : depth <> 0 \/ isspace c = false).
      { apply orb_true_iff in C. destruct C as [C|C].
        - left. apply negb_true_iff, Z.eqb_neq in C. exact C.
        - right. apply negb_true_iff in C. exact C. }
      split; [exact H1|]. split.
      * intros p c' q Hs. destruct p as [|c0 p].
        -- cbn [app] in Hs. inversion Hs; subst.
           cbn [paren_depth fold_right]. rewrite Z.add_0_r. exact Hc.
        -- cbn [app] in Hs. inversion Hs; subst.
           rewrite paren_depth_cons, Z.add_assoc. exact (H2 _ _ _ H4).
      * rewrite H3. split.
        -- intros [Hu Hall].
           destruct unwrap; [|destruct (_ && _) in Hu; discriminate].
           split; [reflexivity|].
           intros p c' q Hs. destruct p as [|c0 p].
           ++ cbn [paren_depth fold_right]. rewrite Z.add_0_r.
              destruct at_pin; [left; split; reflexivity|].
              right. destruct (Z.eqb_spec depth 0) as [Hz|Hz];
                [discriminate Hu | exact Hz].
           ++ cbn [app] in Hs. inversion Hs; subst.
              rewrite paren_depth_cons, Z.add_assoc.
              destruct (Hall _ _ _ H4) as [[Hf _]|Hd];
                [discriminate | right; exact Hd].
        -- intros [Hu Hall]. subst unwrap. split.
           ++ destruct (Hall [] c (firstn n' rest) eq_refl) as [[Hp _]|Hd].
              ** subst at_pin. rewrite andb_false_r. reflexivity.
              ** cbn [paren_depth fold_right] in Hd. rewrite Z.add_0_r in Hd.
                 apply Z.eqb_neq in Hd. rewrite Hd. reflexivity.
           ++ intros p c' q Hs. right.
              destruct (Hall (c :: p) c' q) as [[_ Hp]|Hd];
                [rewrite Hs; reflexivity | discriminate |].
              rewrite paren_depth_cons, Z.add_assoc in Hd. exact Hd.
    + inversion H; subst. clear H. cbn [firstn].
      apply orb_false_iff in C. destruct C as [C1 C2].
      apply negb_false_iff in C1. apply negb_false_iff in C2.
      apply Z.eqb_eq in C1.
      split; [right; split; [exact C1 | exists c, rest; split; [reflexivity | exact C2]]|].
      split; [intros p c' q E; destruct p; discriminate|].
      split.
      * intro Hu. split; [exact Hu|]. intros p c' q E; destruct p; discriminate.
      * intros [Hu _]. exact Hu.
Qed.

Lemma item_span_unique (input s1 t1 s2 t2 : list ascii) :
  item_span input s1 t1 -> item_span input s2 t2 -> s1 = s2 /\ t1 = t2.
Proof.
  intros [E1 [S1 M1]] [E2 [S2 M2]].
  assert (E : s1 ++ t1 = s2 ++ t2) by congruence.
  assert (Hone : forall a ta b tb,
            a ++ ta = b ++ tb ->
            (ta = [] \/ (paren_depth a = 0 /\
               exists c tail', ta = c :: tail' /\ isspace c = true)) ->
            (forall p c q, b = p ++ c :: q ->
               paren_depth p <> 0 \/ isspace c = false) ->
            forall m, b = a ++ m -> ta = m ++ tb -> m = []).
  { intros a ta b tb _ Sa Mb m Hb Hta. destruct m as [|c m]; [reflexivity|].
    exfalso. destruct Sa as [Sa|[Sa [c' [tail' [Sc Sp]]]]].
    - subst ta. discriminate.
    - rewrite Hta in Sc. cbn [app] in Sc. inversion Sc; subst c'.
      destruct (Mb a c m Hb) as [Hd|Hs]; [contradiction | congruence]. }
  apply app_eq_app in E. destruct E as [m [[Hs Ht]|[Hs Ht]]].
  - pose proof (Hone s2 t2 s1 t1 (eq_sym (eq_trans (eq_sym E1) E2))
                  S2 M1 m Hs Ht) as Hm.
    subst m. rewrite app_nil_r in Hs. cbn [app] in Ht. split; congruence.
  - pose proof (Hone s1 t1 s2 t2 (eq_trans (eq_sym E1) E2) S1 M2 m Hs Ht)
      as Hm.
    subst m. rewrite app_nil_r in Hs. cbn [app] in Ht. split; congruence.
Qed.

(** What the loop of eat_item leaves: the span, the input behind it and
    whether the span is to be unwrapped. *)
Lemma eat_item_loop_item_span (input : list ascii) (n : nat) (d : Z)
  (u : bool) (pend : list ascii) :
  eat_item_loop input true 0
    match input with c :: _ => Ascii.eqb c "(" | [] => false end
  = (n, d, u, pend) ->
  item_span input (firstn n input) pend /\
  d = paren_depth (firstn n input) /\
  (u = true <-> enclosed (firstn n input)).
Proof.
  intro E.
  pose proof (eat_item_loop_shape _ _ _ _ _ _ _ _ E) as [H1 [H2 [H3 _]]].
  pose proof (eat_item_loop_span _ _ _ _ _ _ _ _ E) as [G1 [G2 G3]].
  cbn [Z.add] in H3, G2, G3.
  split; [|split; [exact H3|]].
  - split; [exact H1|]. split; [|exact G2].
    destruct G1 as [G1|[Gd G1]]; [left; exact G1 | right].
    split; [congruence | exact G1].
  - rewrite G3. unfold enclosed. split.
    + intros [Hu Hall].
      destruct input as [|c0 rest]; [discriminate|].
      apply Ascii.eqb_eq in Hu. subst c0.
      destruct n as [|n]; cbn [firstn] in *.
      * exfalso. cbn [eat_item_loop] in E.
        change (isspace "(") with false in E. cbn in E.
        destruct (eat_item_loop rest false _ _) as [[[? ?] ?] ?].
        discriminate.
      * exists (firstn n rest). split; [reflexivity|].
        intros p c q Hb.
        destruct (Hall ("("%char :: p) c q) as [[_ Hp]|Hd];
          [rewrite Hb; reflexivity | discriminate | exact Hd].
    + intros [body [Hb Hall]]. split.
      * destruct input as [|c0 rest];
          [destruct n; discriminate|].
        destruct n as [|n]; [discriminate|]. cbn [firstn] in Hb.
        inversion Hb. apply Ascii.eqb_refl.
      * intros p c q Hs. destruct p as [|c0 p]; [left; split; reflexivity|].
        right. rewrite Hb in Hs. cbn [app] in Hs. inversion Hs; subst c0.
        exact (Hall p c q H4).
Qed.

(** X19.  eat_item takes the first item of the line, parentheses kept
    together.  It passes over the shortest prefix of the input that ends
    the line or that has balanced parentheses and white space behind it,
    and succeeds exactly when the parentheses of that span balance.  The
    item is the span, or what is inside when one pair of parentheses
    encloses all of it; the rest of the input starts behind the white
    space that follows the span.  It fails exactly when no prefix with
    balanced parentheses has white space behind it and the parentheses of
    the whole line do not balance. *)
Theorem eat_item_takes_a_balanced_item (input : list ascii) :
  (forall item rest,
     eat_item input = Some (item, rest) <->
     exists span tail,
       item_span input span tail /\ paren_depth span = 0 /\
       rest = skip_spaces tail /\
       ((enclosed span /\ span = ("("%char :: item) ++ [")"%char]) \/
        (~ enclosed span /\ item = span))) /\
  (eat_item input = None <->
   item_span input input [] /\ paren_depth input <> 0).
Proof.
  unfold eat_item.
  destruct (eat_item_loop input true 0 _) as [[[n d] u] pend] eqn:E.
  destruct (eat_item_loop_item_span _ _ _ _ _ E) as [Hspan [Hd Hu]].
  split.
  - intros item rest. split.
    + destruct (Z.eqb_spec d 0) as [Hz|Hz]; cbn [negb]; [|discriminate].
      intro H.
      assert (Hi : item = if u then firstn (n - 2) (skipn 1 input)
                          else firstn n input) by congruence.
      assert (Hr : rest = skip_spaces pend) by congruence.
      clear H. exists (firstn n input), pend.
      split; [exact Hspan|]. split; [congruence|]. split; [exact Hr|].
      destruct u; subst item.
      * left. split; [apply Hu; reflexivity|].
        rewrite Hz in E. exact (eat_item_unwrapped_shape _ _ _ E).
      * right. split; [|reflexivity].
        intro He. apply Hu in He. discriminate.
    + intros [span [tail [Hs [Hd0 [Hr Hcase]]]]].
      destruct (item_span_unique _ _ _ _ _ Hs Hspan) as [-> ->].
      assert (Hz : d = 0) by congruence.
      subst d. rewrite Hz. cbn [Z.eqb negb]. subst rest. f_equal. f_equal.
      destruct Hcase as [[He Hshape]|[Hne Hitem]].
      * apply Hu in He. subst u. rewrite Hz in E.
        pose proof (eat_item_unwrapped_shape _ _ _ E) as Hsh.
        rewrite Hsh in Hshape. cbn [app] in Hshape. inversion Hshape as [Hb].
        apply app_inv_tail in Hb. exact Hb.
      * destruct u; [|symmetry; exact Hitem].
        exfalso. apply Hne, Hu. reflexivity.
  - split.
    + destruct (Z.eqb_spec d 0) as [Hz|Hz]; cbn [negb]; [discriminate|].
      intros _.
      destruct Hspan as [H1 [H2 H3]].
      destruct H2 as [H2|[H2 _]]; [|congruence].
      subst pend. rewrite app_nil_r in H1. rewrite <- H1 in *.
      split; [|congruence].
      split; [symmetry; apply app_nil_r|]. split; [left; reflexivity | exact H3].
    + intros [Hs Hne].
      destruct (item_span_unique _ _ _ _ _ Hs Hspan) as [Hi _].
      rewrite <- Hi in Hd.
      destruct (Z.eqb_spec d 0) as [Hz|Hz]; cbn [negb]; [congruence|].
      reflexivity.
Qed.

Example eat_item_examples :
  eat_item (list_ascii_of_string "(a b) c")
  = Some (list_ascii_of_string "a b", list_ascii_of_string "c") /\
  eat_item (list_ascii_of_string "(a)(b)  c")
  = Some (list_ascii_of_string "(a)(b)", list_ascii_of_string "c") /\
  eat_item (list_ascii_of_string "f(x y)z w")
  = Some (list_ascii_of_string "f(x y)z", list_ascii_of_string "w") /\
  eat_item (list_ascii_of_string "a)b (c")
  = Some (list_ascii_of_string "a)b (c", []) /\
  eat_item (list_ascii_of_string "f(x y") = None /\
  eat_item (list_ascii_of_string " a") = Some ([], list_ascii_of_string "a").
Proof. repeat split; vm_compute; reflexivity. Qed.

(** X20.  The hit index of peek and poke counts from either end: an index
    from 1 to the number of hits names a hit from the front, one from -1
    down to minus that number names a hit from the back (-1 the last), and
    everything else, 0 included, is refused. *)
Theorem hit_index_counts_from_either_end (index0 size i : Z) :
  - 2 ^ 63 <= index0 < 2 ^ 63 -> 0 <= size < 2 ^ 63 ->
  hit_index index0 size = Some i <->
  (1 <= index0 <= size /\ i = index0 - 1) \/
  (- size <= index0 <= -1 /\ i = size + index0).
Proof.
  intros H0 Hs. unfold hit_index.
  destruct (Z.eqb_spec size 0) as [Hz|Hz].
  { split; [discriminate | intros [[H _]|[H _]]; lia]. }
  destruct (Z.ltb_spec index0 0) as [Hneg|Hpos].
  - assert (E : signed 64 (wrap 64 (index0 + size)) = index0 + size).
    { apply signed_of_wrap; [lia|].
      change (2 ^ (64 - 1)) with (2 ^ 63). lia. }
    rewrite E.
    destruct (Z.leb_spec 0 (index0 + size));
      destruct (Z.ltb_spec (index0 + size) size); cbn [andb];
      (split; [intro Hx; inversion Hx; lia | intros [[Hx ->]|[Hx ->]]; try lia]);
      try reflexivity; f_equal; lia.
  - destruct (Z.leb_spec 0 (index0 - 1));
      destruct (Z.ltb_spec (index0 - 1) size); cbn [andb];
      (split; [intro Hx; inversion Hx; lia | intros [[Hx ->]|[Hx ->]]; try lia]);
      try reflexivity.
Qed.

Lemma hit_index_counts_from_either_end_witness :
  hit_index (-1) 7 = Some 6 <->
  (1 <= -1 <= 7 /\ 6 = -1 - 1) \/ (- 7 <= -1 <= -1 /\ 6 = 7 + -1).
Proof.
  apply (hit_index_counts_from_either_end (-1) 7 6); lia.
Defined.

Lemma human_rest_small (steps : nat) (bytes : Z) :
  bytes <= 1024 -> human_rest steps bytes = bytes.
Proof.
  intro H. destruct steps; cbn [human_rest]; [reflexivity|].
  destruct (Z.ltb_spec 1024 bytes); [lia | reflexivity].
Qed.

Lemma human_loop_steps (p : list ascii) :
  forall bytes, 0 <= bytes ->
  exists k : nat,
    (k <= List.length p)%nat /\
    human_loop p bytes = (skipn k p, bytes / 1024 ^ Z.of_nat k) /\
    (forall j : nat, (j < k)%nat -> 1024 < bytes / 1024 ^ Z.of_nat j) /\
    ((k = List.length p \/ nth k p NUL = "?"%char)
     \/ bytes / 1024 ^ Z.of_nat k <= 1024).
Proof.
  induction p as [|c p IH]; intros bytes Hb.
  - exists 0%nat. cbn [human_loop skipn List.length Z.of_nat].
    rewrite Z.pow_0_r, Z.div_1_r. repeat split; try lia; try (left; left; reflexivity).
  - cbn [human_loop].
    destruct (Ascii.eqb_spec c "?") as [Hc|Hc]; cbn [negb andb].
    { exists 0%nat. cbn [skipn Z.of_nat nth List.length].
      rewrite Z.pow_0_r, Z.div_1_r. repeat split; try lia; try (left; right; exact Hc). }
    destruct (Z.ltb_spec 1024 bytes) as [L|L].
    2:{ exists 0%nat. cbn [skipn Z.of_nat nth List.length].
        rewrite Z.pow_0_r, Z.div_1_r. repeat split; try lia. }
    assert (Hq : 0 <= bytes / 1024) by (apply Z.div_pos; lia).
    destruct (IH (bytes / 1024) Hq) as [k [Hk [E [Hj Hend]]]].
    assert (P : forall n : nat,
              bytes / 1024 / 1024 ^ Z.of_nat n = bytes / 1024 ^ Z.of_nat (S n)).
    { intro n. rewrite Z.div_div by (try apply Z.pow_pos_nonneg; lia).
      f_equal. rewrite Nat2Z.inj_succ, Z.pow_succ_r by lia. reflexivity. }
    exists (S k). cbn [skipn List.length nth]. rewrite E, P.
    repeat split; try lia.
    + intros j Hlt. destruct j as [|j].
      * cbn [Z.of_nat]. rewrite Z.pow_0_r, Z.div_1_r. exact L.
      * rewrite <- P. apply Hj. lia.
    + rewrite <- P. destruct Hend as [[Hend|Hend]|Hend];
        [left; left; lia | left; right; exact Hend | right; exact Hend].
Qed.

(** X21.  human_readable_size divides by the least power of 1024 that
    brings the size down to at most 1024 and returns the suffix of that
    power, from B to E; the test being [bytes > 1024], exactly 1024 bytes
    stay 1024 bytes. *)
Theorem human_readable_size_is_at_most_1024 (bytes : Z) :
  0 <= bytes < 2 ^ 64 ->
  exists k : nat,
    (k <= 6)%nat /\
    human_readable_size bytes
    = (bytes / 1024 ^ Z.of_nat k,
       nth k (list_ascii_of_string "BKMGTPE") NUL) /\
    0 <= bytes / 1024 ^ Z.of_nat k <= 1024 /\
    (forall j : nat, (j < k)%nat -> 1024 < bytes / 1024 ^ Z.of_nat j).
Proof.
  intro Hb. unfold human_readable_size.
  destruct (human_loop_steps (list_ascii_of_string "BKMGTPEZ?") bytes
              (proj1 Hb)) as [k [Hk [E [Hj Hend]]]].
  rewrite E.
  assert (K : (k <= 6)%nat).
  { destruct (Nat.le_gt_cases k 6) as [H|H]; [exact H|].
    specialize (Hj 6%nat H).
    assert (bytes / 1024 ^ Z.of_nat 6 < 16); [|lia].
    apply Z.div_lt_upper_bound; [reflexivity|].
    change (1024 ^ Z.of_nat 6 * 16) with (2 ^ 64). lia. }
  assert (S1 : bytes / 1024 ^ Z.of_nat k <= 1024).
  { destruct Hend as [[Hend|Hend]|Hend]; [| |exact Hend].
    - cbn in Hend. lia.
    - exfalso. do 7 (destruct k as [|k]; [discriminate Hend|]). lia. }
  exists k. rewrite human_rest_small by exact S1.
  repeat split; try assumption.
  - f_equal.
    do 7 (destruct k as [|k]; [reflexivity|]). lia.
  - apply Z.div_pos; [lia|]. apply Z.pow_pos_nonneg; lia.
Qed.

Lemma human_readable_size_is_at_most_1024_witness :
  exists k : nat,
    (k <= 6)%nat /\
    human_readable_size 1048576
    = (1048576 / 1024 ^ Z.of_nat k,
       nth k (list_ascii_of_string "BKMGTPE") NUL) /\
    0 <= 1048576 / 1024 ^ Z.of_nat k <= 1024 /\
    (forall j : nat, (j < k)%nat -> 1024 < 1048576 / 1024 ^ Z.of_nat j).
Proof.
  apply (human_readable_size_is_at_most_1024 1048576). lia.
Defined.

Lemma wrap_add_l (w a b : Z) : wrap w (wrap w a + b) = wrap w (a + b).
Proof. unfold wrap. apply Zplus_mod_idemp_l. Qed.

Lemma attach_other_regions_total (mrs : list region) :
  forall regions size,
    attach_other_regions mrs (wrap 64 regions) (wrap 64 size)
    = (wrap 64 (regions + Z.of_nat (List.length mrs)),
       wrap 64 (size + total_size mrs)).
Proof.
  induction mrs as [|mr rest IH]; intros regions size.
  - cbn [attach_other_regions List.length total_size fold_right Z.of_nat].
    rewrite !Z.add_0_r. reflexivity.
  - cbn [attach_other_regions]. rewrite !wrap_add_l, IH.
    cbn [total_size fold_right List.length]. fold (total_size rest).
    apply f_equal2; f_equal; lia.
Qed.

Lemma attach_loops_total (mrs : list region) :
  forall regions size,
    (let '(mr, regions1, size1) :=
       attach_low_regions mrs (wrap 64 regions) (wrap 64 size) in
     match mr with
     | [] => (regions1, size1, 4)
     | _ :: _ =>
         let '(regions', size') := attach_other_regions mr regions1 size1 in
         (regions', size', 8)
     end)
    = (wrap 64 (regions + Z.of_nat (List.length mrs)),
       wrap 64 (size + total_size mrs),
       if existsb region_above_4g mrs then 8 else 4).
Proof.
  induction mrs as [|mr rest IH]; intros regions size.
  - cbn [attach_low_regions existsb List.length total_size fold_right Z.of_nat].
    rewrite !Z.add_0_r. reflexivity.
  - cbn [attach_low_regions existsb].
    destruct (region_above_4g mr); cbn [orb].
    + rewrite attach_other_regions_total. reflexivity.
    + rewrite !wrap_add_l, IH.
      cbn [total_size fold_right List.length]. fold (total_size rest).
      apply f_equal2; [apply f_equal2|reflexivity]; f_equal; lia.
Qed.

(** X22.  The two loops of do_attach together count every region of the
    target once and add up every size, both modulo the width of size_t;
    the address size is 8 when some region ends above 4 GiB and 4
    otherwise. *)
Theorem attach_counts_every_region (mrs : list region) :
  attach_regions mrs
  = (wrap 64 (Z.of_nat (List.length mrs)), wrap 64 (total_size mrs),
     if existsb region_above_4g mrs then 8 else 4).
Proof.
  unfold attach_regions.
  pose proof (attach_loops_total mrs 0 0) as H.
  change (wrap 64 0) with 0 in H. rewrite H. reflexivity.
Qed.

(** ** ast.c: printing *)

Lemma c_snprintf_prints (text : list ascii) :
  prints (fun m => Some (c_snprintf text m)) text.
Proof. intro mem. split; [reflexivity | eexists; reflexivity]. Qed.

Lemma guarded_first (f : printer) (text mem : list ascii) :
  prints f text -> List.length mem <> 1%nat ->
  guarded f (O, mem) = Some (c_snprintf text mem).
Proof.
  intros Hf Hm. unfold guarded.
  destruct mem as [|a [|b mem]]; [| contradiction Hm; reflexivity |].
  - cbn. destruct (proj2 (Hf [])) as [m' E]. rewrite E. reflexivity.
  - cbn [List.length Nat.eqb negb andb Nat.sub Nat.ltb Nat.leb skipn firstn app
         Nat.add].
    rewrite (proj1 (Hf (a :: b :: mem))) by (cbn; lia). reflexivity.
Qed.

Lemma guarded_one (f : printer) (text : list ascii) (len : nat) (a : ascii) :
  prints f text -> guarded f (len, [a]) = Some ((len + List.length text)%nat, [a]).
Proof.
  intro Hf. unfold guarded. cbn [List.length Nat.eqb negb andb Nat.sub].
  replace (len <? 0)%nat with false by (symmetry; apply Nat.ltb_ge; lia).
  destruct (proj2 (Hf [])) as [m' E]. rewrite E. reflexivity.
Qed.

Lemma c_snprintf_length (text mem : list ascii) :
  List.length (snd (c_snprintf text mem)) = List.length mem.
Proof.
  unfold c_snprintf. cbn [snd]. destruct mem as [|a mem]; [reflexivity|].
  cbv zeta. rewrite length_app. cbn [List.length].
  rewrite length_skipn, length_firstn. cbn [List.length]. lia.
Qed.

Lemma guarded_next (f : printer) (text0 text mem : list ascii) :
  prints f text -> List.length mem <> 1%nat ->
  guarded f (c_snprintf text0 mem) = Some (c_snprintf (text0 ++ text) mem).
Proof.
  intros Hf Hm.
  pose proof (c_snprintf_length text0 mem) as Hl.
  destruct mem as [|a [|b mem]]; [| contradiction Hm; reflexivity |].
  - unfold guarded, c_snprintf. cbn [List.length Nat.eqb negb andb].
    destruct (proj2 (Hf [])) as [m' E]. rewrite E.
    rewrite length_app. reflexivity.
  - set (size := List.length (a :: b :: mem)) in *.
    assert (Hsize : (2 <= size)%nat) by (unfold size; cbn; lia).
    unfold c_snprintf in *. cbn [snd] in Hl. cbv zeta in *. fold size in Hl |- *.
    set (mem0 := firstn (size - 1) text0
                 ++ NUL :: skipn (S (List.length (firstn (size - 1) text0)))
                                 (a :: b :: mem)) in *.
    unfold guarded. rewrite Hl.
    replace (size =? 0)%nat with false by (symmetry; apply Nat.eqb_neq; lia).
    cbn [negb andb]. rewrite length_app.
    destruct (Nat.ltb_spec (List.length text0) (size - 1)) as [Hfit|Hfull].
    + assert (Hs0 : firstn (size - 1) text0 = text0)
        by (apply firstn_all2; lia).
      unfold mem0. rewrite Hs0.
      assert (Hsub : skipn (List.length text0)
                       (text0 ++ NUL :: skipn (S (List.length text0))
                                             (a :: b :: mem))
                     = NUL :: skipn (S (List.length text0)) (a :: b :: mem)).
      { rewrite skipn_app, skipn_all, Nat.sub_diag. reflexivity. }
      rewrite Hsub.
      assert (Hsl : List.length
                      (NUL :: skipn (S (List.length text0)) (a :: b :: mem))
                    = (size - List.length text0)%nat).
      { cbn [List.length]. rewrite length_skipn. fold size. lia. }
      rewrite (proj1 (Hf _)) by (rewrite Hsl; lia).
      unfold c_snprintf. rewrite Hsl. cbv zeta.
      assert (Hfirst : firstn (List.length text0)
                         (text0 ++ NUL :: skipn (S (List.length text0))
                                               (a :: b :: mem)) = text0).
      { rewrite firstn_app, firstn_all, Nat.sub_diag. cbn. apply app_nil_r. }
      rewrite Hfirst.
      assert (Hst : firstn (size - 1) (text0 ++ text)
                    = text0 ++ firstn (size - List.length text0 - 1) text).
      { rewrite firstn_app, Hs0. f_equal. f_equal. lia. }
      rewrite Hst. f_equal. f_equal.
      rewrite <- app_assoc. f_equal. f_equal. f_equal.
      rewrite length_app.
      change (skipn (S (List.length (firstn (size - List.length text0 - 1) text)))
                (NUL :: skipn (S (List.length text0)) (a :: b :: mem)))
        with (skipn (List.length (firstn (size - List.length text0 - 1) text))
                (skipn (S (List.length text0)) (a :: b :: mem))).
      rewrite skipn_skipn. f_equal. lia.
    + destruct (proj2 (Hf [])) as [m' E]. rewrite E. f_equal. f_equal.
      unfold mem0.
      assert (Hst : firstn (size - 1) (text0 ++ text)
                    = firstn (size - 1) text0).
      { rewrite firstn_app.
        replace (size - 1 - List.length text0)%nat with 0%nat by lia.
        cbn. apply app_nil_r. }
      rewrite Hst. reflexivity.
Qed.

Lemma prints_from_cases (f : printer) (text : list ascii) :
  (forall mem, List.length mem <> 1%nat -> f mem = Some (c_snprintf text mem)) ->
  (forall a, f [a] = Some (List.length text, [a])
             \/ f [a] = Some (c_snprintf text [a])) ->
  prints f text.
Proof.
  intros Hmany Hone mem. split; [apply Hmany|].
  destruct mem as [|a [|b mem]].
  - rewrite Hmany by discriminate. eexists; reflexivity.
  - destruct (Hone a) as [E|E]; rewrite E; eexists; reflexivity.
  - rewrite Hmany by discriminate. eexists; reflexivity.
Qed.

Section PrintingProofs.
Variable format_g : spec_float -> list ascii.

Lemma ast_snprint_prints (t : ast) :
  printable t = true -> prints (ast_snprint format_g t) (rpn format_g t).
Proof.
  induction t as [vt v | vt name | nt vt c IHc | nt vt l IHl r IHr];
    intro Hp.
  - apply prints_from_cases.
    + intros mem Hm. cbn [ast_snprint rpn].
      rewrite (guarded_first _ _ mem (c_snprintf_prints _) Hm).
      cbn [then_guarded].
      exact (guarded_next _ _ _ mem (c_snprintf_prints (value_text format_g v)) Hm).
    + intro a. left. cbn [ast_snprint rpn].
      rewrite (guarded_one _ _ 0 a (c_snprintf_prints _)). cbn [then_guarded].
      rewrite (guarded_one _ _ _ a (c_snprintf_prints (value_text format_g v))).
      rewrite length_app. reflexivity.
  - apply prints_from_cases; [reflexivity | right; reflexivity].
  - cbn [printable] in Hp.
    assert (Hc : printable c = true).
    { destruct nt; try exact Hp; discriminate. }
    specialize (IHc Hc).
    destruct nt; try discriminate Hp; apply prints_from_cases;
      cbn [ast_snprint rpn unary_operator operator_text];
      try (intros mem Hm;
           rewrite (guarded_first _ _ mem IHc Hm); cbn [then_guarded];
           first [ exact (guarded_next _ _ _ mem (c_snprintf_prints _) Hm)
                 | unfold print_text;
                   exact (guarded_next _ _ _ mem (c_snprintf_prints _) Hm) ]);
      try (intro a; left;
           rewrite (guarded_one _ _ 0 a IHc); cbn [then_guarded];
           unfold print_text;
           rewrite (guarded_one _ _ _ a (c_snprintf_prints _));
           rewrite length_app; reflexivity).
  - cbn [printable] in Hp.
    assert (Hlr : printable l = true /\ printable r = true).
    { destruct (binary_operator nt); [|discriminate].
      apply andb_prop. exact Hp. }
    destruct Hlr as [Hl Hr]. specialize (IHl Hl). specialize (IHr Hr).
    cbn [ast_snprint rpn].
    destruct (binary_operator nt) as [op|]; [|discriminate Hp].
    cbn [operator_text]. apply prints_from_cases.
    + intros mem Hm.
      rewrite (guarded_first _ _ mem IHl Hm). cbn [then_guarded].
      unfold print_text at 2.
      rewrite (guarded_next _ _ _ mem (c_snprintf_prints _) Hm).
      cbn [then_guarded list_ascii_of_string].
      rewrite (guarded_next _ _ _ mem IHr Hm). cbn [then_guarded].
      unfold print_text.
      exact (guarded_next _ _ _ mem (c_snprintf_prints _) Hm).
    + intro a. left.
      rewrite (guarded_one _ _ 0 a IHl). cbn [then_guarded].
      unfold print_text at 2.
      rewrite (guarded_one _ _ _ a (c_snprintf_prints _)).
      cbn [then_guarded].
      rewrite (guarded_one _ _ _ a IHr). cbn [then_guarded].
      unfold print_text.
      rewrite (guarded_one _ _ _ a (c_snprintf_prints _)).
      rewrite !length_app. cbn [List.length list_ascii_of_string].
      reflexivity.
Qed.

End PrintingProofs.

(** X23.  ast_snprint behaves as one snprintf of the whole expression in
    reverse Polish notation: whatever the size of the buffer it returns the
    length of the whole text, which is what ast_print relies on, and unless
    the buffer has a single byte it leaves in it what snprintf would: the
    text, cut to the size less one, and a NUL. *)
Theorem ast_snprint_is_one_snprintf (format_g : spec_float -> list ascii)
  (t : ast) (mem : list ascii) :
  printable t = true ->
  (exists mem',
     ast_snprint format_g t mem = Some (List.length (rpn format_g t), mem')) /\
  (List.length mem <> 1%nat ->
   ast_snprint format_g t mem = Some (c_snprintf (rpn format_g t) mem)).
Proof.
  intro Hp. destruct (ast_snprint_prints format_g t Hp mem) as [H1 H2].
  split; assumption.
Qed.

Lemma ast_snprint_is_one_snprintf_witness :
  (exists mem',
     ast_snprint no_format_g tree_1_add_2_mul_3 (buffer 12)
     = Some (List.length (rpn no_format_g tree_1_add_2_mul_3), mem')) /\
  (List.length (buffer 12) <> 1%nat ->
   ast_snprint no_format_g tree_1_add_2_mul_3 (buffer 12)
   = Some (c_snprintf (rpn no_format_g tree_1_add_2_mul_3) (buffer 12))).
Proof.
  apply (ast_snprint_is_one_snprintf no_format_g tree_1_add_2_mul_3
           (buffer 12)).
  reflexivity.
Defined.

Lemma firstn_stored (text mem : list ascii) :
  (List.length text < List.length mem)%nat ->
  firstn (List.length text) (snd (c_snprintf text mem)) = text.
Proof.
  intro H. unfold c_snprintf. cbn [snd].
  destruct mem as [|a mem]; [cbn in H; lia|]. cbv zeta.
  rewrite (firstn_all2 text) by (cbn [List.length] in *; lia).
  rewrite firstn_app, firstn_all, Nat.sub_diag. cbn. apply app_nil_r.
Qed.

Lemma c_snprintf_pair (text mem : list ascii) :
  c_snprintf text mem = (List.length text, snd (c_snprintf text mem)).
Proof. reflexivity. Qed.

(** X24.  ast_print writes the whole expression in reverse Polish notation,
    whether it fits the array of BUFSIZ bytes or needs the allocated
    buffer, and whatever bytes the two held before; the check for
    inconsistent results of ast_snprint never fails. *)
Theorem ast_print_writes_the_whole_expression
  (format_g : spec_float -> list ascii) (t : ast)
  (buf : list ascii) (heap : nat -> list ascii) :
  printable t = true -> (2 <= List.length buf)%nat ->
  (forall n, List.length (heap n) = n) ->
  ast_print format_g t buf heap = Some (rpn format_g t).
Proof.
  intros Hp Hbuf Hheap. unfold ast_print.
  destruct (ast_snprint_prints format_g t Hp buf) as [E _].
  rewrite E by lia. rewrite c_snprintf_pair.
  destruct (Nat.ltb_spec (List.length (rpn format_g t)) (List.length buf))
    as [Hfit|Hbig].
  - f_equal. apply firstn_stored. exact Hfit.
  - destruct (ast_snprint_prints format_g t Hp
                (heap (S (List.length (rpn format_g t))))) as [E' _].
    rewrite E' by (rewrite Hheap; lia).
    rewrite c_snprintf_pair. rewrite Nat.eqb_refl. f_equal.
    apply firstn_stored. rewrite Hheap. lia.
Qed.

Lemma ast_print_writes_the_whole_expression_witness :
  ast_print no_format_g tree_1_add_2_mul_3 (buffer 16) buffer
  = Some (list_ascii_of_string "(s32)1 (s32)2 (s32)3 * +").
Proof.
  apply (ast_print_writes_the_whole_expression no_format_g
           tree_1_add_2_mul_3 (buffer 16) buffer).
  - reflexivity.
  - cbn. lia.
  - intro n. apply repeat_length.
Defined.

(** ** mem.c: finding the region of an address *)

Lemma find_addr_loop_scans (stream : maps_file) :
  forall turns r addr,
    (List.length stream < turns)%nat ->
    find_addr_loop turns (Some (r, stream)) addr
    = first_region_holding stream addr.
Proof.
  induction stream as [|[l|] rest IH]; intros turns r addr Ht;
    (destruct turns as [|turns]; [cbn in Ht; lia|]);
    cbn [find_addr_loop mem_region_iter_next first_region_holding];
    try reflexivity.
  destruct (region_contains (region_of_line l) addr); [reflexivity|].
  apply IH. cbn in Ht. lia.
Qed.

(** X25.  mem_region_find_addr never tests the first region of the maps
    file: mem_region_iter_first has read it when the loop calls
    mem_region_iter_next again, so the search returns the first region
    holding the address among the second and later lines. *)
Theorem find_addr_skips_the_first_region (first : maps_line)
  (rest : maps_file) (addr : Z) :
  mem_region_find_addr (Some (Some first :: rest)) addr
  = first_region_holding rest addr.
Proof.
  unfold mem_region_find_addr.
  cbn [mem_region_iter_first mem_region_iter_next].
  apply find_addr_loop_scans. cbn. lia.
Qed.
